(** * HysteresisAnalyzer: curve splitting, alignment and feature metrics

    A shallow embedding of [hystan/preprocess.py] and [hystan/features.py].

    Modelling conventions.
    - A pandas [DataFrame] is a list of column names and a list of rows, each
      row carrying its index label; a row is a finite map from column names to
      cells.  A cell the row has no entry for is NaN, as after [concat] or
      [reindex].
    - A float is a [cell]: NaN, one of the two infinities, or an exact
      rational.  NaN and infinities follow IEEE 754; rounding and overflow of
      binary64 are not part of this model.  Where a property hinges on the
      range of binary64, the lines concerned are also given on [PrimFloat]
      (module [Binary64]).
    - A Python exception is a [Raise] result.
    - pandas methods that return a new object are functions on values.  The
      functions of the source that assign into a frame ([df[c] = ...],
      [df[c] -= ...]) are programs over a store of frames, so that aliasing
      between the caller's frame and the callee's is visible.
    - pandas 2.x behaviour is modelled ([DataFrame.map] in the ingestion code
      needs pandas >= 2.1). *)

From Stdlib Require Import ZArith QArith Qcanon Qcabs Qround Lia Lqa Floats.
From stdpp Require Import base decidable option list sorting numbers strings gmap.

Local Open Scope Z_scope.

(** * Part I: the model *)

(** ** Cells: the values a float column holds *)

Module Cell.

Inductive cell : Type :=
| NaN
| NInf
| PInf
| Num (q : Qc).

#[global] Instance cell_eq_dec : EqDecision cell.
Proof. solve_decision. Defined.

#[global] Instance cell_inhabited : Inhabited cell := populate NaN.

(** [pandas.isna] / [numpy.isnan] *)
Definition isna (c : cell) : bool :=
  match c with NaN => true | _ => false end.

Definition notna (c : cell) : bool := negb (isna c).

(** [numpy.isfinite] *)
Definition isfinite (c : cell) : bool :=
  match c with Num _ => true | _ => false end.

Definition of_Z (z : Z) : cell := Num (Q2Qc (inject_Z z)).

(** The float comparison [a < b]: false as soon as one side is NaN. *)
Definition ltb (a b : cell) : bool :=
  match a, b with
  | NaN, _ | _, NaN => false
  | NInf, NInf => false
  | NInf, _ => true
  | _, NInf => false
  | PInf, _ => false
  | Num _, PInf => true
  | Num x, Num y => match (x ?= y)%Qc with Lt => true | _ => false end
  end.

(** The float comparison [a == b]. *)
Definition eqb (a b : cell) : bool :=
  match a, b with
  | NInf, NInf | PInf, PInf => true
  | Num x, Num y => bool_decide (x = y)
  | _, _ => false
  end.

(** The order [sort_values] puts keys in: ascending, NaN last
    ([na_position="last"]). *)
Definition sort_leb (a b : cell) : bool :=
  match a, b with
  | _, NaN => true
  | NaN, _ => false
  | NInf, _ => true
  | _, NInf => false
  | _, PInf => true
  | PInf, _ => false
  | Num x, Num y => match (x ?= y)%Qc with Gt => false | _ => true end
  end.

Definition sort_le (a b : cell) : Prop := sort_leb a b = true.

#[global] Instance sort_le_dec a b : Decision (sort_le a b).
Proof. unfold sort_le. apply _. Defined.

Definition neg (a : cell) : cell :=
  match a with
  | NaN => NaN
  | NInf => PInf
  | PInf => NInf
  | Num x => Num (- x)%Qc
  end.

Definition add (a b : cell) : cell :=
  match a, b with
  | NaN, _ | _, NaN => NaN
  | PInf, NInf | NInf, PInf => NaN
  | PInf, _ | _, PInf => PInf
  | NInf, _ | _, NInf => NInf
  | Num x, Num y => Num (x + y)%Qc
  end.

Definition sub (a b : cell) : cell := add a (neg b).

Definition abs (a : cell) : cell :=
  match a with
  | NaN => NaN
  | NInf | PInf => PInf
  | Num x => Num (Qcabs x)
  end.

(** [numpy.sign]: -1, 0 or 1, and NaN for NaN. *)
Definition sign (a : cell) : cell :=
  match a with
  | NaN => NaN
  | NInf => of_Z (-1)
  | PInf => of_Z 1
  | Num x => match (x ?= 0)%Qc with
             | Lt => of_Z (-1)
             | Eq => of_Z 0
             | Gt => of_Z 1
             end
  end.

(** An infinity of the sign of [s * t] for nonzero rationals [s], [t]. *)
Definition inf_of_sign (c : comparison) : cell :=
  match c with Lt => NInf | Gt => PInf | Eq => NaN end.

Definition mul (a b : cell) : cell :=
  match a, b with
  | NaN, _ | _, NaN => NaN
  | Num x, Num y => Num (x * y)%Qc
  | PInf, PInf | NInf, NInf => PInf
  | PInf, NInf | NInf, PInf => NInf
  | PInf, Num y | Num y, PInf => inf_of_sign (y ?= 0)%Qc
  | NInf, Num y | Num y, NInf => inf_of_sign (0 ?= y)%Qc
  end.

(** Float division.  A zero divisor is the positive zero (the model has no
    negative zero): [x / 0] is an infinity of the sign of [x], [0 / 0] is
    NaN. *)
Definition div (a b : cell) : cell :=
  match a, b with
  | NaN, _ | _, NaN => NaN
  | Num x, Num y =>
      if bool_decide (y = 0%Qc) then inf_of_sign (x ?= 0)%Qc
      else Num (x / y)%Qc
  | Num _, (PInf | NInf) => of_Z 0
  | (PInf | NInf), (PInf | NInf) => NaN
  | PInf, Num y => match (y ?= 0)%Qc with Lt => NInf | _ => PInf end
  | NInf, Num y => match (y ?= 0)%Qc with Lt => PInf | _ => NInf end
  end.

(** Python's builtin [min(a, b)] on two floats: [b] when [b < a], else [a]. *)
Definition py_min (a b : cell) : cell := if ltb b a then b else a.

End Cell.
Export Cell.

(** ** Results and exceptions *)

(** The exceptions of the Python runtime and pandas that the modelled code can
    raise.  [InvalidInputError] is the error class the specification names;
    no function of the source raises it.  [ReferenceError] stands for a
    reference to no object of the store, which a Python caller cannot
    pass. *)
Inductive exn : Type :=
| KeyError
| ValueError
| TypeError
| IndexError
| ReferenceError
| InvalidInputError.

#[global] Instance exn_eq_dec : EqDecision exn.
Proof. solve_decision. Defined.

Inductive result (A : Type) : Type :=
| Ok (a : A)
| Raise (e : exn).
Arguments Ok {A} a.
Arguments Raise {A} e.

#[global] Instance result_ret : MRet result := @Ok.
#[global] Instance result_bind : MBind result := fun A B f m =>
  match m with Ok a => f a | Raise e => Raise e end.
#[global] Instance result_fmap : FMap result := fun A B f m =>
  match m with Ok a => Ok (f a) | Raise e => Raise e end.

Definition raises {A} (m : result A) : Prop := exists e, m = Raise e.
Definition returns {A} (m : result A) : Prop := exists a, m = Ok a.

(** ** Frames and the pandas operations the source uses *)

Abbreviation row := (gmap string cell).

(** A [Series]: values with their index labels. *)
Abbreviation Series := (list (Z * cell)).

Record DataFrame : Type := mkDF {
  columns : list string;
  body : list (Z * row)
}.

Definition index (df : DataFrame) : list Z := (body df).*1.
Definition rows (df : DataFrame) : list row := (body df).*2.
Definition len (df : DataFrame) : nat := length (body df).

(** The cell of row [r] in column [c]. *)
Definition at_col (c : string) (r : row) : cell := default NaN (r !! c).

(** [df[c]]: the column as a Series, [KeyError] when there is no such column. *)
Definition getitem (df : DataFrame) (c : string) : result Series :=
  if decide (c ∈ columns df) then Ok (prod_map id (at_col c) <$> body df)
  else Raise KeyError.

Definition values (s : Series) : list cell := s.*2.

(** [RangeIndex(n)] *)
Definition RangeIndex (n : nat) : list Z := seqZ 0 (Z.of_nat n).

(** [df.reset_index(drop=True)] *)
Definition reset_index (df : DataFrame) : DataFrame :=
  mkDF (columns df) (zip (RangeIndex (len df)) (rows df)).

(** The end of a Python slice [[:k]] (and start of [[k:]]) on a sequence of
    length [n]: a negative [k] counts from the end, and the bound is clipped
    to the sequence. *)
Definition slice_bound (n : nat) (k : Z) : nat :=
  Z.to_nat (if k <? 0 then Z.max 0 (Z.of_nat n + k) else Z.min k (Z.of_nat n)).

(** [df.iloc[:k].copy()] and [df.iloc[k:].copy()] *)
Definition iloc_to (k : Z) (df : DataFrame) : DataFrame :=
  mkDF (columns df) (take (slice_bound (len df) k) (body df)).
Definition iloc_from (k : Z) (df : DataFrame) : DataFrame :=
  mkDF (columns df) (drop (slice_bound (len df) k) (body df)).

(** Rows compared by their key column, NaN keys last. *)
Definition key_le (by_ : string) : relation (Z * row) :=
  fun a b => sort_le (at_col by_ a.2) (at_col by_ b.2).

#[global] Instance key_le_dec by_ a b : Decision (key_le by_ a b).
Proof. unfold key_le. apply _. Defined.

(** [df.sort_values(by=by_, ascending=True)].  pandas sorts with an unstable
    quicksort by default, so the relative order of rows with equal keys is
    not fixed by pandas; the merge sort here is one possible outcome and no
    statement below depends on the order of ties. *)
Definition sort_values (df : DataFrame) (by_ : string) : result DataFrame :=
  if decide (by_ ∈ columns df)
  then Ok (mkDF (columns df) (merge_sort (key_le by_) (body df)))
  else Raise KeyError.

(** Position of the first minimum of a non-empty list ([ndarray.argmin]). *)
Fixpoint argmin_from (best : nat) (bv : cell) (i : nat) (l : list cell) : nat :=
  match l with
  | [] => best
  | v :: l' =>
      if ltb v bv then argmin_from i v (S i) l'
      else argmin_from best bv (S i) l'
  end.

Definition argmin (l : list cell) : nat :=
  match l with
  | [] => 0%nat
  | v :: l' => argmin_from 0 v 1 l'
  end.

(** [nanops.nanargmin]: NaN is replaced by +inf before [argmin]; the result
    is "no position" when every value is NaN. *)
Definition nanargmin (l : list cell) : option nat :=
  if forallb isna l then None
  else Some (argmin ((fun v => if isna v then PInf else v) <$> l)).

(** [Series.idxmin()]: the index label of the first minimum, NaN skipped.
    An empty Series raises [ValueError]; for an all-NaN Series pandas 2.x
    returns NaN (here [None]). *)
Definition idxmin (s : Series) : result (option Z) :=
  match s with
  | [] => Raise ValueError
  | _ => Ok (p ← nanargmin (values s); s.*1 !! p)
  end.

(** ** preprocess.py *)

(** [split_dataframe_at_turning_point(df, target_col)].  [idxmin] gives an
    index label, which [iloc] then reads as a position; when [idxmin] gave
    NaN, [turning_index + 1] is NaN and the [iloc] slice raises
    [TypeError]. *)
Definition split_dataframe_at_turning_point (df : DataFrame) (target_col : string)
  : result (DataFrame * DataFrame) :=
  s ← getitem df target_col;
  turning_index ← idxmin s;
  match turning_index with
  | None => Raise TypeError
  | Some turning_index =>
      let df1 := iloc_to (turning_index + 1) df in
      let df2 := iloc_from (turning_index + 1) df in
      df1 ← reset_index <$> sort_values df1 target_col;
      df2 ← reset_index <$> sort_values df2 target_col;
      Ok (df1, df2)
  end.

(** Frames for examples: [frame cols idx data] has the columns [cols], the
    index labels [idx] and one row per element of [data], read against
    [cols]. *)
Definition mkrow (cols : list string) (vs : list cell) : row :=
  list_to_map (zip cols vs).
Definition frame (cols : list string) (idx : list Z) (data : list (list cell))
  : DataFrame :=
  mkDF cols (zip idx (mkrow cols <$> data)).
Definition zs (l : list Z) : list cell := of_Z <$> l.

(** ** Predicates the statements use *)

(** Rows in ascending order of column [c], NaN keys last. *)
Definition row_le (c : string) : relation row :=
  fun r r' => sort_le (at_col c r) (at_col c r').
Definition ascending (c : string) (df : DataFrame) : Prop :=
  Sorted (row_le c) (rows df).

(** The index is the fresh one, [0 .. len-1]. *)
Definition fresh_index (df : DataFrame) : Prop :=
  index df = RangeIndex (len df).

Definition no_nan (l : list cell) : Prop := Forall (fun c => isna c = false) l.

(** The column [c] of a frame, as a list of cells. *)
Definition column (c : string) (df : DataFrame) : list cell :=
  at_col c <$> rows df.

(** The frame [process_csv] leaves when [dropna] removed the first line of
    the data: three samples whose labels are 1, 2, 3.  The least field value
    is at position 1 and carries the label 2. *)
Definition curve_after_dropna : DataFrame :=
  frame ["H"; "R"] [1; 2; 3] [zs [2; 5]; zs [0; 1]; zs [1; 3]].

(** *** Malformed input to the split *)

(** The exception the split ends with on a malformed curve: the column
    lookup fails first, then [idxmin] on an empty column, then the slice
    whose bound is NaN. *)
Definition split_error (df : DataFrame) (c : string) : exn :=
  if decide (c ∈ columns df) then
    if decide (rows df = []) then ValueError else TypeError
  else KeyError.

(** ** [merge_dataframes] *)

(** [pd.concat([df1, df2], ignore_index=True)]: the rows of both frames
    under the union of their columns (a row has NaN in a column its frame
    did not have), with a fresh index. *)
Definition concat (df1 df2 : DataFrame) : DataFrame :=
  reset_index
    (mkDF (columns df1 ++ list_difference (columns df2) (columns df1))
          (body df1 ++ body df2)).

(** [merge_dataframes(df1, df2)]: the sort key is the literal ["H_kOe"]. *)
Definition merge_dataframes (df1 df2 : DataFrame) : result DataFrame :=
  reset_index <$> sort_values (concat df1 df2) "H_kOe".

(** ** [interpolate_and_fill] *)

(** [df[c] = vals], on a frame and a Series of the same index: the column is
    replaced, or appended when the frame did not have it. *)
Definition setitem (df : DataFrame) (c : string) (vals : list cell) : DataFrame :=
  mkDF (if decide (c ∈ columns df) then columns df else columns df ++ [c])
       (zip_with (fun '(i, r) v => (i, <[c := v]> r)) (body df) vals).

(** [sorted(set(xs1).union(set(xs2)))].  Equal floats are one element of the
    set.  (Python keeps NaN objects apart in a set, and where a sort puts
    them depends on the order of the elements, hence on the order of the two
    arguments; the statements about the grid are for NaN-free field
    columns.) *)
Definition common_grid (xs1 xs2 : list cell) : list cell :=
  merge_sort sort_le (remove_dups (xs1 ++ xs2)).

(** The row of label [g] after [set_index(x_col)]. *)
Definition row_of_label (x_col : string) (g : cell) (rs : list row) : option row :=
  snd <$> list_find (fun r => at_col x_col r = g) rs.

(** The key a row gets when [reset_index] names the restored labels
    "level_0" and the column "index" is renamed to [x_col] after it. *)
Definition relabel (x_col : string) (r : row) : row :=
  <["level_0" := at_col x_col r]> (<[x_col := at_col "index" r]> (delete "index" r)).

(** [df.set_index(x_col).reindex(grid).reset_index()
       .rename(columns={"index": x_col})].
    [set_index] needs the column; [reindex] returns the frame as it is when
    its labels are the grid already, raises [ValueError] ("cannot reindex on
    an axis with duplicate labels") when a label occurs twice, and otherwise
    takes, for each grid label, the row of that label or an all-NaN row.
    The index it leaves has no name (the grid is a Series without one), so
    [reset_index] puts the labels back as a first column called "index",
    which the [rename] turns into [x_col].  When the frame has another column
    called "index", [reset_index] calls the labels "level_0" instead
    ([ValueError] when that is taken as well), and the [rename] gives the name
    [x_col] to the column "index" of the frame.  Onto an empty grid [reindex]
    keeps the name [x_col] of the index, so the labels come back under it.
    (With another column "index", an empty grid or a field column called
    "level_0" leaves two columns of one name: the list of columns shows both,
    a row holds one cell for the name.) *)
Definition reindex_on (x_col : string) (grid : list cell) (df : DataFrame)
  : result DataFrame :=
  xs ← getitem df x_col;
  let labels := values xs in
  let rest := list_difference (columns df) [x_col] in
  reindexed ←
    (if decide (labels = grid) then Ok (body df)
     else if decide (NoDup labels) then
       Ok ((fun g => (0, <[x_col := g]> (default ∅ (row_of_label x_col g (rows df)))))
             <$> grid)
     else Raise ValueError);
  if decide ("index" ∈ rest) then
    let renamed := (fun c => if decide (c = "index") then x_col else c) <$> rest in
    if decide (grid = []) then Ok (reset_index (mkDF (x_col :: renamed) reindexed))
    else if decide ("level_0" ∈ rest) then Raise ValueError
    else Ok (reset_index
               (mkDF ("level_0" :: renamed) (prod_map id (relabel x_col) <$> reindexed)))
  else Ok (reset_index (mkDF (x_col :: rest) reindexed)).

(** The valid (not NaN) sample nearest before position [i], with its
    distance, and the one nearest after. *)
Fixpoint valid_before (l : list cell) (i : nat) : option (nat * cell) :=
  match i with
  | O => None
  | S j =>
      match l !! j with
      | Some v => if isna v then prod_map S id <$> valid_before l j
                  else Some (1%nat, v)
      | None => prod_map S id <$> valid_before l j
      end
  end.

Fixpoint valid_after (l : list cell) : option (nat * cell) :=
  match l with
  | [] => None
  | v :: l' => if isna v then prod_map S id <$> valid_after l'
               else Some (1%nat, v)
  end.

(** [s.interpolate(method="nearest", limit_direction="both")] on a Series
    with the default index: scipy's [interp1d(kind="nearest")] over the
    positions of the valid samples.  A NaN between two valid samples takes
    the value of the nearer one, the left one on a tie; a NaN before the
    first or after the last valid sample is out of bounds and stays NaN. *)
Definition interpolate_nearest (l : list cell) : list cell :=
  imap (fun i v =>
          if isna v then
            match valid_before l i, valid_after (drop (S i) l) with
            | Some (dp, vp), Some (dq, vq) => if (dp <=? dq)%nat then vp else vq
            | _, _ => NaN
            end
          else v) l.

(** [s.ffill()] and [s.bfill()] *)
Fixpoint ffill_from (last : cell) (l : list cell) : list cell :=
  match l with
  | [] => []
  | v :: l' => if isna v then last :: ffill_from last l' else v :: ffill_from v l'
  end.
Definition ffill (l : list cell) : list cell := ffill_from NaN l.
Definition bfill (l : list cell) : list cell := reverse (ffill (reverse l)).

(** The inner function [interpolate_and_fill_df(df)]. *)
Definition interpolate_and_fill_df (x_col y_col : string) (common_x_values : list cell)
    (df : DataFrame) : result DataFrame :=
  df_interp ← reindex_on x_col common_x_values df;
  ys ← getitem df_interp y_col;
  let df_interp := setitem df_interp y_col (interpolate_nearest (values ys)) in
  ys ← getitem df_interp y_col;
  Ok (setitem df_interp y_col (bfill (ffill (values ys)))).

(** [interpolate_and_fill(df1, df2, x_col, y_col)] *)
Definition interpolate_and_fill (df1 df2 : DataFrame) (x_col y_col : string)
  : result (DataFrame * DataFrame) :=
  xs1 ← getitem df1 x_col;
  xs2 ← getitem df2 x_col;
  let common_x_values := common_grid (values xs1) (values xs2) in
  df1_filled ← interpolate_and_fill_df x_col y_col common_x_values df1;
  df2_filled ← interpolate_and_fill_df x_col y_col common_x_values df2;
  Ok (df1_filled, df2_filled).

Definition has_valid (l : list cell) : Prop := exists v, v ∈ l /\ isna v = false.

(** No column of the frame other than the field column is called "index",
    the name [reset_index] gives the restored labels. *)
Definition index_name_free (x_col : string) (df : DataFrame) : Prop :=
  "index" ∈ columns df -> x_col = "index".

#[global] Instance index_name_free_dec x_col df : Decision (index_name_free x_col df).
Proof. unfold index_name_free. apply _. Defined.

(** ** features.py: zero crossings and range *)

(** [np.diff(a)]: the differences [a[i+1] - a[i]]. *)
Definition diff (l : list cell) : list cell := zip_with sub (tail l) l.

(** Truth of a float for [np.where]: everything but zero, NaN included. *)
Definition nonzero (c : cell) : bool := negb (eqb c (of_Z 0)).

(** The inner [compute(df)] of [compute_zero_crossings], on the column:
    [len(np.where(np.diff(np.sign(col)))[0])]. *)
Definition crossings (col : list cell) : nat :=
  length (filter (fun d => nonzero d = true) (diff (sign <$> col))).

Definition compute_zero_crossings (df1 df2 : DataFrame) (y_column : string)
  : result nat :=
  s1 ← getitem df1 y_column;
  let zero_df1 := crossings (values s1) in
  s2 ← getitem df2 y_column;
  let zero_df2 := crossings (values s2) in
  Ok (zero_df1 + zero_df2)%nat.

(** The count in the words of the specification: the number of adjacent
    pairs of samples whose signs differ. *)
Fixpoint sign_changes (col : list cell) : nat :=
  match col with
  | a :: (b :: _) as rest =>
      ((if decide (sign a = sign b) then 0 else 1) + sign_changes rest)%nat
  | _ => 0%nat
  end.

(** [Series.max()] and [Series.min()]: NaN is skipped, and the result is NaN
    when nothing is left. *)
Definition series_min (l : list cell) : cell :=
  match filter (fun v => isna v = false) l with
  | [] => NaN
  | v :: vs => foldl (fun m w => if ltb w m then w else m) v vs
  end.
Definition series_max (l : list cell) : cell :=
  match filter (fun v => isna v = false) l with
  | [] => NaN
  | v :: vs => foldl (fun m w => if ltb m w then w else m) v vs
  end.

Definition compute_range (df1 df2 : DataFrame) (y_column : string) : result cell :=
  df ← merge_dataframes df1 df2;
  s ← getitem df y_column;
  Ok (sub (series_max (values s)) (series_min (values s))).

(** ** The store of frames *)

(** Frames are Python objects: a variable holds a reference, [df.copy()]
    makes a new object, and [df[c] = ...] changes the object every holder of
    the reference sees.  The store lists the live frames; a reference is a
    position in it. *)
Definition loc : Type := nat.
Abbreviation store := (list DataFrame).
Definition prog (A : Type) : Type := store -> result (A * store).

#[global] Instance prog_ret : MRet prog := fun A a h => Ok (a, h).
#[global] Instance prog_bind : MBind prog := fun A B f m h =>
  match m h with
  | Ok (a, h') => f a h'
  | Raise e => Raise e
  end.

Definition lift {A} (r : result A) : prog A := fun h =>
  match r with Ok a => Ok (a, h) | Raise e => Raise e end.

(** Dereference. *)
Definition load (l : loc) : prog DataFrame := fun h =>
  match h !! l with
  | Some d => Ok (d, h)
  | None => Raise ReferenceError
  end.

(** A new object. *)
Definition new (d : DataFrame) : prog loc := fun h => Ok (length h, h ++ [d]).

(** Overwrite the object at [l]. *)
Definition store_at (l : loc) (d : DataFrame) : prog unit := fun h =>
  Ok (tt, <[l := d]> h).

(** [df.copy()] *)
Definition copy (l : loc) : prog loc := d ← load l; new d.

(** [df[c] = vals] *)
Definition assign (l : loc) (c : string) (vals : list cell) : prog unit :=
  d ← load l; store_at l (setitem d c vals).

(** [df[c] -= k] *)
Definition isub (l : loc) (c : string) (k : cell) : prog unit :=
  d ← load l;
  s ← lift (getitem d c);
  store_at l (setitem d c ((fun v => sub v k) <$> values s)).

(** [np.sum(series)], which is [series.sum()]: NaN is skipped and the empty
    sum is 0.  The sum is exact here and so does not depend on the order of
    the rows; the source adds doubles row after row ([Binary64.sum]). *)
Definition nansum (l : list cell) : cell :=
  foldr add (of_Z 0) (filter (fun v => isna v = false) l).

(** ** [compute_pseudo_area_random_sampling] *)

Section Sampling.

(** [numpy.random.RandomState(42).choice(N, size=n, replace=False)]: the
    positions pandas draws for [df.sample(n, random_state=42)].  The
    generator is not part of the repository; it is a parameter here. *)
Variable choice : nat -> nat -> list nat.

(** [df.sample(n, random_state=42)]: the rows at the drawn positions, with
    their labels; [ValueError] for a sample larger than the frame. *)
Definition sample_rows (df : DataFrame) (n : nat) : DataFrame :=
  mkDF (columns df) (omap (fun i => body df !! i) (choice (len df) n)).
Definition sample (df : DataFrame) (n : nat) : result DataFrame :=
  if (n <=? len df)%nat then Ok (sample_rows df n) else Raise ValueError.

Definition compute_pseudo_area_random_sampling (df_upper df_lower : loc)
    (y_column : string) : prog cell :=
  u ← load df_upper;
  l ← load df_lower;
  yu ← lift (getitem u y_column);
  yl ← lift (getitem l y_column);
  let y_min := py_min (series_min (values yu)) (series_min (values yl)) in
  df_upper_norm ← copy df_upper;
  df_lower_norm ← copy df_lower;
  _ ← isub df_upper_norm y_column y_min;
  _ ← isub df_lower_norm y_column y_min;
  un ← load df_upper_norm;
  ln ← load df_lower_norm;
  let N_upper := len un in
  let N_lower := len ln in
  let N_min := Nat.min N_upper N_lower in
  '(df_upper_sampled, df_lower_sampled) ←
    (if (N_lower <? N_upper)%nat
     then s ← lift (sample un N_min); sl ← new s; mret (sl, df_lower_norm)
     else s ← lift (sample ln N_min); sl ← new s; mret (df_upper_norm, sl));
  us ← load df_upper_sampled;
  ls ← load df_lower_sampled;
  su ← lift (getitem us y_column);
  sl ← lift (getitem ls y_column);
  let sum_upper := nansum (values su) in
  let sum_lower := nansum (values sl) in
  mret (abs (sub sum_upper sum_lower)).

(** The frame after [df[y] -= k]. *)
Definition shifted (y : string) (k : cell) (df : DataFrame) : DataFrame :=
  setitem df y ((fun v => sub v k) <$> column y df).

(** The value the program computes, as an expression of the two frames. *)
Definition pseudo_area_value (u l : DataFrame) (y : string) : cell :=
  let y_min := py_min (series_min (column y u)) (series_min (column y l)) in
  let un := shifted y y_min u in
  let ln := shifted y y_min l in
  if (len ln <? len un)%nat
  then abs (sub (nansum (column y (sample_rows un (Nat.min (len un) (len ln)))))
                (nansum (column y ln)))
  else abs (sub (nansum (column y un))
                (nansum (column y (sample_rows ln (Nat.min (len un) (len ln)))))).

End Sampling.

(** A sampler for examples: the first [n] positions in reverse order. *)
Definition choice_rev (N n : nat) : list nat := reverse (seq 0 n).

(** A store grows at its end: [h'] extends [h] when the frames of [h] are
    all still there, unchanged. *)
Definition extends (h h' : store) : Prop := exists ext, h' = h ++ ext.

Definition finite (l : list cell) : Prop := Forall (fun c => isfinite c = true) l.

(** The property of the generator the statements below rely on. *)
Definition sampler (choice : nat -> nat -> list nat) : Prop :=
  forall N n, (n <= N)%nat ->
    NoDup (choice N n) /\ length (choice N n) = n /\
    Forall (fun i => (i < N)%nat) (choice N n).

(** ** [compute_change_rate_stats] and [apply_moving_average] *)

Definition of_nat (n : nat) : cell := of_Z (Z.of_nat n).

(** [s.pct_change()] (pandas 2.x: NaN is forward-filled first):
    [s / s.shift(1) - 1]. *)
Definition pct_change (l : list cell) : list cell :=
  let data := ffill l in
  match data with
  | [] => []
  | _ => NaN :: zip_with (fun cur prev => sub (div cur prev) (of_Z 1)) (tail data) data
  end.

(** [s.mean()]: NaN skipped; NaN when nothing is left. *)
Definition series_mean (l : list cell) : cell :=
  let xs := filter (fun v => isna v = false) l in
  div (foldr add (of_Z 0) xs) (of_nat (length xs)).

(** [s.var()]: the sample variance ([ddof=1]) of the values that are not
    NaN; NaN when fewer than two are left. *)
Definition series_var (l : list cell) : cell :=
  let xs := filter (fun v => isna v = false) l in
  if (length xs <=? 1)%nat then NaN
  else
    let avg := div (foldr add (of_Z 0) xs) (of_nat (length xs)) in
    div (foldr add (of_Z 0) ((fun x => mul (sub avg x) (sub avg x)) <$> xs))
        (of_nat (length xs - 1)).

(** [compute_change_rate_stats(df, column_name)].  The first statement
    assigns into [df], the frame of the caller. *)
Definition compute_change_rate_stats (df : loc) (column_name : string)
  : prog (cell * cell) :=
  d ← load df;
  s ← lift (getitem d column_name);
  _ ← assign df "change_rate" (pct_change (values s));
  d ← load df;
  cr ← lift (getitem d "change_rate");
  let mean_change_rate := series_mean (values cr) in
  let var_change_rate := series_var (values cr) in
  mret (mean_change_rate, var_change_rate).

(** [s.rolling(window=w, center=True).mean()]: the mean of the [w] samples
    at positions [i + 1 + (w-1)//2 - w .. i + (w-1)//2], NaN when one of them
    is missing or NaN. *)
Definition rolling_mean_center (w : nat) (l : list cell) : list cell :=
  imap (fun i _ =>
          let stop := (i + 1 + (w - 1) / 2)%nat in
          if ((w <=? stop) && (stop <=? length l))%nat then
            let win := take w (drop (stop - w) l) in
            if forallb (fun v => negb (isna v)) win
            then div (foldr add (of_Z 0) win) (of_nat w)
            else NaN
          else NaN) l.

(** [apply_moving_average(df, column_name, window_size)]: the first
    statement rebinds [df] to a copy, and the assignment goes to the copy. *)
Definition apply_moving_average (df : loc) (column_name : string) (window_size : nat)
  : prog loc :=
  df ← copy df;
  let new_column_name := column_name +:+ "_MA" in
  d ← load df;
  s ← lift (getitem d column_name);
  _ ← assign df new_column_name (rolling_mean_center window_size (values s));
  mret df.

(** ** [compute_y_deviation] and [compute_y_ratio] *)

(** Python's [round(q)] on a float: to the nearest integer, a tie to the
    even one. *)
Definition py_round (q : Qc) : Z :=
  let f := Qfloor q in
  match (q - Q2Qc (inject_Z f) ?= Q2Qc (1 # 2))%Qc with
  | Lt => f
  | Gt => f + 1
  | Eq => if Z.even f then f else f + 1
  end.

(** [int(round(fraction * (len(df) - 1)))].  The product is exact here; the
    source rounds it to a double before [round], which can turn a product
    just off a half into a tie (0.1 on six rows), so the row read may differ
    by one.  The statements about the two functions below hold for whichever
    row is read. *)
Definition fraction_index (fraction : Qc) (df : DataFrame) : Z :=
  py_round (fraction * Q2Qc (inject_Z (Z.of_nat (len df) - 1)))%Qc.

(** [df.iloc[i][c]]: the cell of column [c] in the row at position [i]; a
    negative position counts from the end.  [IndexError] outside the frame,
    [KeyError] without the column. *)
Definition iloc_at (df : DataFrame) (i : Z) (c : string) : result cell :=
  let n := Z.of_nat (len df) in
  let p := if i <? 0 then n + i else i in
  if (0 <=? p) && (p <? n) then
    match rows df !! Z.to_nat p with
    | Some r => if decide (c ∈ columns df) then Ok (at_col c r) else Raise KeyError
    | None => Raise IndexError
    end
  else Raise IndexError.

(** [compute_y_deviation]: the copies go to [interpolate_and_fill], which
    assigns into no frame it is given, so this is a function of the two
    frames. *)
Definition compute_y_deviation (df1 df2 : DataFrame) (x_col y_col : string)
    (fraction : Qc) : result cell :=
  '(df1_filled, df2_filled) ← interpolate_and_fill df1 df2 x_col y_col;
  let index_df1 := fraction_index fraction df1_filled in
  let index_df2 := fraction_index fraction df2_filled in
  y_df1 ← iloc_at df1_filled index_df1 y_col;
  y_df2 ← iloc_at df2_filled index_df2 y_col;
  Ok (abs (sub y_df1 y_df2)).

Definition epsilon : cell := Num (Q2Qc (1 # 10000000000)).

(** The last lines of [compute_y_ratio]: the guard and the division. *)
Definition ratio_guard (y_df1 y_df2 : cell) : cell :=
  let y_df2 := if ltb (abs y_df2) epsilon then epsilon else y_df2 in
  div y_df1 y_df2.

(** [compute_y_ratio(df1, df2, x_col, y_col, fraction)].  The two filled
    frames are new objects, and the baseline shift assigns into them. *)
Definition compute_y_ratio (df1 df2 : loc) (x_col y_col : string) (fraction : Qc)
  : prog cell :=
  c1 ← copy df1;
  c2 ← copy df2;
  a ← load c1;
  b ← load c2;
  '(f1, f2) ← lift (interpolate_and_fill a b x_col y_col);
  df1_filled ← new f1;
  df2_filled ← new f2;
  s1 ← lift (getitem f1 y_col);
  s2 ← lift (getitem f2 y_col);
  let y_min := py_min (series_min (values s1)) (series_min (values s2)) in
  _ ← isub df1_filled y_col y_min;
  _ ← isub df2_filled y_col y_min;
  f1 ← load df1_filled;
  f2 ← load df2_filled;
  let index_df1 := fraction_index fraction f1 in
  let index_df2 := fraction_index fraction f2 in
  y_df1 ← lift (iloc_at f1 index_df1 y_col);
  y_df2 ← lift (iloc_at f2 index_df2 y_col);
  mret (ratio_guard y_df1 y_df2).

(** The numerator and the denominator before the guard: the values of the
    aligned, baseline-shifted branches at the fractional index. *)
Definition y_ratio_operands (a b : DataFrame) (x_col y_col : string) (fraction : Qc)
  : result (cell * cell) :=
  '(f1, f2) ← interpolate_and_fill a b x_col y_col;
  s1 ← getitem f1 y_col;
  s2 ← getitem f2 y_col;
  let y_min := py_min (series_min (values s1)) (series_min (values s2)) in
  let f1 := shifted y_col y_min f1 in
  let f2 := shifted y_col y_min f2 in
  y_df1 ← iloc_at f1 (fraction_index fraction f1) y_col;
  y_df2 ← iloc_at f2 (fraction_index fraction f2) y_col;
  Ok (y_df1, y_df2).

(** *** Finiteness *)

(** Not an infinity. *)
Definition not_inf (c : cell) : Prop := isna c = true \/ isfinite c = true.

(** ** The guard and the sums on binary64 *)

Module Binary64.

(** The float [1e-10] of the source, exactly: the double nearest to
    10^-10. *)
Definition epsilon : float := 0x1.b7cdfd9d7bdbbp-34%float.

(** The last lines of [compute_y_ratio] on IEEE 754 doubles. *)
Definition ratio_guard (y_df1 y_df2 : float) : float :=
  let y_df2 :=
    if PrimFloat.ltb (PrimFloat.abs y_df2) epsilon then epsilon else y_df2 in
  PrimFloat.div y_df1 y_df2.

(** The double nearest to 10^300. *)
Definition big : float := 0x1.7e43c8800759cp+996%float.

(** [Series.min()] on doubles: NaN is skipped. *)
Definition series_min (l : list float) : float :=
  match filter (fun v => PrimFloat.is_nan v = false) l with
  | [] => nan
  | v :: vs => foldl (fun m w => if PrimFloat.ltb w m then w else m) v vs
  end.

Definition py_min (a b : float) : float := if PrimFloat.ltb b a then b else a.

(** [np.sum(series)] on a column of fewer than eight doubles: NaN is
    skipped, and the others are added one after the other, from the first
    row to the last, each addition rounding. *)
Definition sum (l : list float) : float :=
  foldl PrimFloat.add 0%float (filter (fun v => PrimFloat.is_nan v = false) l).

(** The lines of [compute_pseudo_area_random_sampling] on the two value
    columns as lists of doubles, for a generator [choice]. *)
Definition pseudo_area (choice : nat -> nat -> list nat) (u l : list float) : float :=
  let y_min := py_min (series_min u) (series_min l) in
  let u_norm := (fun v => PrimFloat.sub v y_min) <$> u in
  let l_norm := (fun v => PrimFloat.sub v y_min) <$> l in
  let N_min := Nat.min (length u_norm) (length l_norm) in
  let sampled (col : list float) := omap (fun i => col !! i) (choice (length col) N_min) in
  if (length l_norm <? length u_norm)%nat
  then PrimFloat.abs (PrimFloat.sub (sum (sampled u_norm)) (sum l_norm))
  else PrimFloat.abs (PrimFloat.sub (sum u_norm) (sum (sampled l_norm))).

End Binary64.

(** ** Expressions the further statements use *)

(** The range as an expression of the two value columns. *)
Definition range_value (a b : DataFrame) (y : string) : cell :=
  sub (series_max (column y a ++ column y b)) (series_min (column y a ++ column y b)).

(** The positions at which a window of [w] samples centred by pandas fits
    into a column of [n] samples. *)
Definition window_fits (w n i : nat) : bool :=
  ((w <=? i + 1 + (w - 1) / 2) && (i + 1 + (w - 1) / 2 <=? n))%nat.

(** ** [get_gradient_at_fraction] *)

(** [Series.dropna().nunique()]: the number of distinct values that are not
    NaN. *)
Definition nunique (l : list cell) : nat :=
  length (remove_dups (filter (fun v => isna v = false) l)).

(** One entry of [np.gradient(f, x)] with [edge_order=1], from the spacings
    [diffx = np.diff(x)].  The two ends are one-sided differences; inside,
    numpy takes the central difference over a constant spacing and the
    three-point formula otherwise. *)
Definition gradient_at (f diffx : list cell) (uniform : bool) (i : nat) : cell :=
  let n := length f in
  if (i =? 0)%nat then
    div (sub (f !!! 1%nat) (f !!! 0%nat)) (diffx !!! 0%nat)
  else if (i =? n - 1)%nat then
    let dx_n := if uniform then diffx !!! 0%nat else diffx !!! (n - 2)%nat in
    div (sub (f !!! (n - 1)%nat) (f !!! (n - 2)%nat)) dx_n
  else if uniform then
    div (sub (f !!! (i + 1)%nat) (f !!! (i - 1)%nat)) (mul (of_Z 2) (diffx !!! 0%nat))
  else
    let dx1 := diffx !!! (i - 1)%nat in
    let dx2 := diffx !!! i in
    let a := div (neg dx2) (mul dx1 (add dx1 dx2)) in
    let b := div (sub dx2 dx1) (mul dx1 dx2) in
    let c := div dx1 (mul dx2 (add dx1 dx2)) in
    add (add (mul a (f !!! (i - 1)%nat)) (mul b (f !!! i))) (mul c (f !!! (i + 1)%nat)).

(** [np.gradient(f, x)] on two one-dimensional arrays.  The coordinates must
    be as many as the values ([ValueError]); [diffx[0]] is read to compare the
    spacings, which is an [IndexError] for fewer than two coordinates. *)
Definition gradient (f x : list cell) : result (list cell) :=
  if negb (length x =? length f)%nat then Raise ValueError
  else
    let diffx := diff x in
    match diffx with
    | [] => Raise IndexError
    | d0 :: _ =>
        let uniform := forallb (fun d => eqb d d0) diffx in
        Ok (gradient_at f diffx uniform <$> seq 0 (length f))
    end.

(** [a[i]] on a one-dimensional array; a negative position counts from the
    end. *)
Definition item (a : list cell) (i : Z) : result cell :=
  let n := Z.of_nat (length a) in
  let p := if i <? 0 then n + i else i in
  if (0 <=? p) && (p <? n) then
    match a !! Z.to_nat p with
    | Some v => Ok v
    | None => Raise IndexError
    end
  else Raise IndexError.

Definition get_gradient_at_fraction (df : DataFrame) (fraction : Qc)
    (x_col y_col : string) : result cell :=
  s ← getitem df y_col;
  if (nunique (values s) =? 1)%nat then Ok (of_Z 0)
  else
    let index := fraction_index fraction df in
    x ← getitem df x_col;
    y ← getitem df y_col;
    dy_dx ← gradient (values y) (values x);
    item dy_dx index.

(** * Part II: facts about the model *)

(** ** Results *)

Lemma bind_Ok {A B} (f : A -> result B) (m : result A) (b : B) :
  m ≫= f = Ok b -> exists a, m = Ok a /\ f a = Ok b.
Proof. destruct m as [a|e]; simpl; [eauto | discriminate]. Qed.

Ltac inv_bind H :=
  let a := fresh "x" in
  let Ha := fresh "E" in
  apply bind_Ok in H; destruct H as (a & Ha & H).

(** ** Order facts about cells *)

Lemma sort_leb_Num (x y : Qc) : sort_leb (Num x) (Num y) = true <-> (x <= y)%Qc.
Proof.
  simpl. rewrite Qcle_alt. destruct (x ?= y)%Qc; split; congruence.
Qed.

Lemma ltb_Num (x y : Qc) : ltb (Num x) (Num y) = true <-> (x < y)%Qc.
Proof.
  simpl. rewrite Qclt_alt. destruct (x ?= y)%Qc; split; congruence.
Qed.

#[global] Instance sort_le_refl : Reflexive sort_le.
Proof.
  intros [| | |x]; unfold sort_le; try reflexivity.
  apply sort_leb_Num, Qcle_refl.
Qed.

#[global] Instance sort_le_trans : Transitive sort_le.
Proof.
  intros [| | |x] [| | |y] [| | |z]; unfold sort_le; try (simpl; congruence).
  rewrite !sort_leb_Num. apply Qcle_trans.
Qed.

#[global] Instance sort_le_total : Total sort_le.
Proof.
  intros [| | |x] [| | |y]; unfold sort_le; try (simpl; auto; fail).
  rewrite !sort_leb_Num. destruct (Qc_le_total x y); auto.
Qed.

(** On cells that are not NaN, [a < b] is the negation of [b <= a]. *)
Lemma ltb_sort_leb (a b : cell) :
  isna a = false -> isna b = false -> ltb a b = negb (sort_leb b a).
Proof.
  destruct a as [| | |x], b as [| | |y]; try (simpl; congruence); intros _ _.
  destruct (ltb (Num x) (Num y)) eqn:L, (sort_leb (Num y) (Num x)) eqn:S;
    try reflexivity; exfalso.
  - apply ltb_Num in L. apply sort_leb_Num in S. exact (Qclt_not_le _ _ L S).
  - assert (~ (y <= x)%Qc) as N by (rewrite <- sort_leb_Num; congruence).
    apply Qcnot_le_lt, ltb_Num in N. congruence.
Qed.

Example split_scenario :
  split_dataframe_at_turning_point
    (frame ["H"; "R"] [0; 1; 2; 3; 4]
       [zs [2; 5]; zs [1; 3]; zs [0; 1]; zs [1; 3]; zs [2; 5]]) "H"
  = Ok (frame ["H"; "R"] [0; 1; 2] [zs [0; 1]; zs [1; 3]; zs [2; 5]],
        frame ["H"; "R"] [0; 1] [zs [1; 3]; zs [2; 5]]).
Proof. vm_compute. reflexivity. Qed.

#[global] Instance key_le_total c : Total (key_le c).
Proof. intros a b. apply sort_le_total. Qed.

#[global] Instance key_le_trans c : Transitive (key_le c).
Proof. intros x y z. unfold key_le. apply sort_le_trans. Qed.

Lemma length_RangeIndex n : length (RangeIndex n) = n.
Proof. unfold RangeIndex. rewrite length_seqZ. lia. Qed.

Lemma len_rows df : length (rows df) = len df.
Proof. unfold rows, len. apply length_fmap. Qed.

Lemma reset_index_rows df : rows (reset_index df) = rows df.
Proof.
  unfold reset_index, rows at 1. simpl. apply snd_zip.
  rewrite length_RangeIndex, len_rows. lia.
Qed.

Lemma reset_index_len df : len (reset_index df) = len df.
Proof. rewrite <- !len_rows, reset_index_rows. reflexivity. Qed.

Lemma reset_index_fresh df : fresh_index (reset_index df).
Proof.
  unfold fresh_index. rewrite reset_index_len.
  unfold reset_index, index. simpl. apply fst_zip.
  rewrite length_RangeIndex, len_rows. lia.
Qed.

(** What [df.sort_values(by=c).reset_index(drop=True)] returns. *)
Lemma sort_reset_spec df c d :
  reset_index <$> sort_values df c = Ok d ->
  columns d = columns df /\ rows d ≡ₚ rows df /\ len d = len df /\
  ascending c d /\ fresh_index d.
Proof.
  unfold sort_values. destruct (decide (c ∈ columns df)); [|discriminate].
  intros [= <-]. set (s := mkDF _ _).
  assert (rows s ≡ₚ rows df) as P.
  { unfold rows. simpl. apply fmap_Permutation, merge_sort_Permutation. }
  split; [reflexivity|]. split; [rewrite reset_index_rows; exact P|].
  split.
  { rewrite reset_index_len, <- !len_rows. apply Permutation_length, P. }
  split; [|apply reset_index_fresh].
  unfold ascending. rewrite reset_index_rows. unfold rows. simpl.
  apply (Sorted_fmap snd (key_le c) (row_le c)); [auto|].
  apply Sorted_merge_sort, _.
Qed.

Lemma sort_reset_returns df c :
  c ∈ columns df -> returns (reset_index <$> sort_values df c).
Proof.
  intros H. unfold sort_values. rewrite decide_True by done. eexists. reflexivity.
Qed.

Lemma iloc_split k df : rows (iloc_to k df) ++ rows (iloc_from k df) = rows df.
Proof.
  unfold rows, iloc_to, iloc_from. simpl.
  rewrite <- fmap_app, take_drop. reflexivity.
Qed.

(** ** [split_dataframe_at_turning_point] *)

(** X1: whenever the split returns, its two outputs partition the rows of
    the input, each output is ascending in the field column, each carries a
    fresh index and the columns of the input. *)
Lemma split_partitions df c d1 d2 :
  split_dataframe_at_turning_point df c = Ok (d1, d2) ->
  rows d1 ++ rows d2 ≡ₚ rows df /\
  ascending c d1 /\ ascending c d2 /\
  fresh_index d1 /\ fresh_index d2 /\
  columns d1 = columns df /\ columns d2 = columns df.
Proof.
  unfold split_dataframe_at_turning_point. intros H.
  inv_bind H. inv_bind H. destruct x0 as [t|]; [|discriminate].
  simpl in H. inv_bind H. inv_bind H. injection H as <- <-.
  apply sort_reset_spec in E1 as (C1 & P1 & _ & A1 & F1).
  apply sort_reset_spec in E2 as (C2 & P2 & _ & A2 & F2).
  repeat split; try assumption.
  rewrite P1, P2. rewrite iloc_split. reflexivity.
Qed.

Lemma ltb_le_trans a b x :
  isna a = false -> isna b = false -> isna x = false ->
  ltb a b = true -> sort_le b x -> ltb a x = true.
Proof.
  intros Na Nb Nx L S. rewrite ltb_sort_leb in L |- * by assumption.
  apply negb_true_iff in L. apply negb_true_iff.
  destruct (sort_leb x a) eqn:E; [|reflexivity].
  assert (sort_le b a) as F by (etransitivity; [exact S|exact E]).
  unfold sort_le in F. congruence.
Qed.

Lemma ltb_sort_le a b :
  isna a = false -> isna b = false -> ltb a b = true -> sort_le a b.
Proof.
  intros Na Nb L. rewrite ltb_sort_leb in L by assumption.
  apply negb_true_iff in L. destruct (sort_le_total a b) as [|F]; [assumption|].
  unfold sort_le in F. congruence.
Qed.

Lemma not_ltb_sort_le a b :
  isna a = false -> isna b = false -> ltb a b = false -> sort_le b a.
Proof.
  intros Na Nb L. rewrite ltb_sort_leb in L by assumption.
  apply negb_false_iff in L. exact L.
Qed.

Lemma argmin_from_spec (l : list cell) : forall pre best bv,
  no_nan (pre ++ l) -> pre !! best = Some bv ->
  (forall x, x ∈ pre -> sort_le bv x) ->
  (forall j x, (j < best)%nat -> pre !! j = Some x -> ltb bv x = true) ->
  exists rv,
    (pre ++ l) !! argmin_from best bv (length pre) l = Some rv /\
    (forall x, x ∈ pre ++ l -> sort_le rv x) /\
    (forall j x, (j < argmin_from best bv (length pre) l)%nat ->
                 (pre ++ l) !! j = Some x -> ltb rv x = true).
Proof.
  induction l as [|a l IH]; intros pre best bv N B Lo St.
  - simpl. rewrite app_nil_r. exists bv. auto.
  - assert (isna bv = false) as Nbv.
    { unfold no_nan in N. rewrite Forall_forall in N. apply N.
      apply elem_of_app. left. eapply list_elem_of_lookup_2, B. }
    assert (isna a = false) as Na.
    { unfold no_nan in N. rewrite Forall_forall in N. apply N.
      apply elem_of_app. right. left. }
    assert (forall x, x ∈ pre -> isna x = false) as Npre.
    { intros x Hx. unfold no_nan in N. rewrite Forall_forall in N. apply N.
      apply elem_of_app. left. exact Hx. }
    assert (length (pre ++ [a]) = S (length pre)) as Len
      by (rewrite length_app; simpl; lia).
    assert (best < length pre)%nat as Bl by (eapply lookup_lt_Some, B).
    rewrite (cons_middle a pre l), (assoc_L (++)) in N |- *.
    simpl. destruct (ltb a bv) eqn:L.
    + specialize (IH (pre ++ [a]) (length pre) a N).
      rewrite Len in IH. apply IH.
      * rewrite lookup_app_r by lia. rewrite Nat.sub_diag. reflexivity.
      * intros x Hx. apply elem_of_app in Hx as [Hx|Hx].
        -- apply ltb_sort_le; auto. apply (ltb_le_trans a bv x); auto.
        -- apply list_elem_of_singleton in Hx. subst. reflexivity.
      * intros j x Hj Hx. rewrite lookup_app_l in Hx by lia.
        assert (x ∈ pre) as Hin by (eapply list_elem_of_lookup_2, Hx).
        apply (ltb_le_trans a bv x); auto.
    + specialize (IH (pre ++ [a]) best bv N).
      rewrite Len in IH. apply IH.
      * rewrite lookup_app_l by lia. exact B.
      * intros x Hx. apply elem_of_app in Hx as [Hx|Hx]; [auto|].
        apply list_elem_of_singleton in Hx. subst.
        apply not_ltb_sort_le; auto.
      * intros j x Hj Hx. rewrite lookup_app_l in Hx by lia. eauto.
Qed.

(** [argmin] finds the first position of the least value. *)
Lemma argmin_spec (l : list cell) :
  l <> [] -> no_nan l ->
  exists v, l !! argmin l = Some v /\
    (forall x, x ∈ l -> sort_le v x) /\
    (forall j x, (j < argmin l)%nat -> l !! j = Some x -> ltb v x = true).
Proof.
  destruct l as [|v l]; [congruence|]. intros _ N.
  apply (argmin_from_spec l [v] 0%nat v); auto.
  - intros x Hx. apply list_elem_of_singleton in Hx. subst. reflexivity.
  - intros j x Hj. lia.
Qed.

Lemma nanargmin_no_nan (l : list cell) :
  l <> [] -> no_nan l -> nanargmin l = Some (argmin l).
Proof.
  intros Hl N. unfold nanargmin.
  assert ((fun v => if isna v then PInf else v) <$> l = l) as ->.
  { clear Hl. induction N as [|x l Hx N IH]; [reflexivity|].
    rewrite fmap_cons, Hx, IH. reflexivity. }
  destruct l as [|x l]; [congruence|]. simpl.
  apply Forall_cons in N as [-> _]. reflexivity.
Qed.

(** *** The turning point on a frame with the default index *)

Lemma getitem_Ok df c s :
  getitem df c = Ok s -> c ∈ columns df /\ s.*1 = index df /\ values s = column c df.
Proof.
  unfold getitem. destruct (decide _) as [Hc|]; [|discriminate]. intros [= <-].
  split; [exact Hc|]. unfold values, column, index, rows.
  rewrite <- !list_fmap_compose. split; apply list_fmap_ext; intros _ [i r] _; reflexivity.
Qed.

Lemma getitem_present df c :
  c ∈ columns df -> getitem df c = Ok (prod_map id (at_col c) <$> body df).
Proof. intros H. unfold getitem. rewrite decide_True by done. reflexivity. Qed.

Lemma getitem_absent df c : c ∉ columns df -> getitem df c = Raise KeyError.
Proof. intros H. unfold getitem. rewrite decide_False by done. reflexivity. Qed.

Lemma idxmin_nonempty (s : Series) :
  s <> [] -> idxmin s = Ok (p ← nanargmin (values s); s.*1 !! p).
Proof. destruct s; [congruence|reflexivity]. Qed.

Lemma slice_bound_S (n p : nat) : (p < n)%nat -> slice_bound n (Z.of_nat p + 1) = S p.
Proof.
  intros H. unfold slice_bound.
  destruct (Z.ltb_spec (Z.of_nat p + 1) 0); lia.
Qed.

(** X2: on a frame with the default index and a NaN-free field column, the
    split is taken just after the first position [p] of the least field
    value: [before] holds the rows at positions [0..p], [after] the rows
    behind. *)
Lemma split_at_first_minimum df c :
  c ∈ columns df -> rows df <> [] -> no_nan (column c df) -> fresh_index df ->
  exists p v d1 d2,
    split_dataframe_at_turning_point df c = Ok (d1, d2) /\
    column c df !! p = Some v /\
    (forall x, x ∈ column c df -> sort_le v x) /\
    (forall j x, (j < p)%nat -> column c df !! j = Some x -> ltb v x = true) /\
    rows d1 ≡ₚ take (S p) (rows df) /\
    rows d2 ≡ₚ drop (S p) (rows df).
Proof.
  intros Hc Hne Hnan Hidx.
  assert (column c df <> []) as Hne'.
  { unfold column. intros E. apply fmap_nil_inv in E. auto. }
  destruct (argmin_spec (column c df) Hne' Hnan) as (v & Hv & Hmin & Hfirst).
  set (p := argmin (column c df)) in *.
  assert (p < len df)%nat as Hp.
  { apply lookup_lt_Some in Hv. unfold column in Hv.
    rewrite length_fmap, len_rows in Hv. exact Hv. }
  destruct (sort_reset_returns (iloc_to (Z.of_nat p + 1) df) c Hc) as [d1 E1].
  destruct (sort_reset_returns (iloc_from (Z.of_nat p + 1) df) c Hc) as [d2 E2].
  exists p, v, d1, d2. split.
  - unfold split_dataframe_at_turning_point.
    destruct (getitem df c) as [s|] eqn:G; [|rewrite getitem_present in G by done; discriminate].
    apply getitem_Ok in G as (_ & Gi & Gv). simpl.
    assert (idxmin s = Ok (Some (Z.of_nat p))) as ->.
    { rewrite idxmin_nonempty by (intros ->; symmetry in Gv; contradiction).
      rewrite Gv, nanargmin_no_nan by assumption. simpl. fold p.
      rewrite Gi, Hidx. unfold RangeIndex.
      rewrite lookup_seqZ_lt by lia. reflexivity. }
    simpl. rewrite E1. simpl. rewrite E2. reflexivity.
  - repeat split; try assumption.
    + apply sort_reset_spec in E1 as (_ & P & _). rewrite P.
      unfold rows, iloc_to. simpl. rewrite slice_bound_S by assumption.
      rewrite fmap_take. reflexivity.
    + apply sort_reset_spec in E2 as (_ & P & _). rewrite P.
      unfold rows, iloc_from. simpl. rewrite slice_bound_S by assumption.
      rewrite fmap_drop. reflexivity.
Qed.

(** C1 (divergence): on a curve whose index is not [0..n-1], the label that
    [idxmin] returns is used as a position: the split of
    [curve_after_dropna] puts all three samples into [before] and none into
    [after], although the sample of field value 1 comes after the turning
    point. *)
Lemma split_label_used_as_position :
  split_dataframe_at_turning_point curve_after_dropna "H"
  = Ok (frame ["H"; "R"] [0; 1; 2] [zs [0; 1]; zs [1; 3]; zs [2; 5]],
        frame ["H"; "R"] [] []) /\
  column "H" curve_after_dropna = zs [2; 0; 1] /\
  idxmin [(1, of_Z 2); (2, of_Z 0); (3, of_Z 1)] = Ok (Some 2).
Proof. vm_compute. repeat split; reflexivity. Qed.

(** *** Malformed input to the split *)

Lemma nanargmin_all_nan (l : list cell) :
  Forall (fun v => isna v = true) l -> nanargmin l = None.
Proof.
  intros H. unfold nanargmin.
  assert (forallb isna l = true) as ->; [|reflexivity].
  induction H as [|x l Hx _ IH]; [reflexivity|]. simpl. rewrite Hx, IH. reflexivity.
Qed.

(** C6 (as amended): the split fails on a curve without the field column
    (KeyError), on an empty curve (ValueError) and on a curve whose field
    column is entirely NaN (TypeError); none of these is the
    InvalidInputError of the specification. *)
Theorem split_malformed_raises (df : DataFrame) (c : string) :
  c ∉ columns df \/ rows df = [] \/ Forall (fun v => isna v = true) (column c df) ->
  split_dataframe_at_turning_point df c = Raise (split_error df c) /\
  split_error df c <> InvalidInputError.
Proof.
  intros H. split.
  2:{ unfold split_error. repeat destruct (decide _); discriminate. }
  unfold split_dataframe_at_turning_point, split_error.
  destruct (decide (c ∈ columns df)) as [Hc|Hc].
  2:{ rewrite getitem_absent by assumption. reflexivity. }
  destruct H as [H|H]; [contradiction|].
  destruct (getitem df c) as [s|] eqn:G;
    [|rewrite getitem_present in G by done; discriminate].
  apply getitem_Ok in G as (_ & Gi & Gv). simpl.
  destruct (decide (rows df = [])) as [He|He].
  - assert (s = []) as ->; [|reflexivity].
    apply (fmap_nil_inv snd). fold (values s). rewrite Gv. unfold column.
    rewrite He. reflexivity.
  - destruct H as [H|H]; [contradiction|].
    rewrite idxmin_nonempty.
    + rewrite Gv, nanargmin_all_nan by assumption. reflexivity.
    + intros ->. apply He. symmetry in Gv. apply fmap_nil_inv in Gv. exact Gv.
Qed.

Lemma split_malformed_raises_witness :
  split_dataframe_at_turning_point (frame ["H"; "R"] [0; 1] [[NaN; of_Z 1]; [NaN; of_Z 2]]) "H"
  = Raise TypeError.
Proof.
  apply (split_malformed_raises
           (frame ["H"; "R"] [0; 1] [[NaN; of_Z 1]; [NaN; of_Z 2]]) "H").
  right. right. vm_compute. repeat constructor.
Defined.

(** C6 (counterexample): the empty curve and the curve without the field
    column are rejected, but with ValueError and KeyError. *)
Lemma split_not_InvalidInputError :
  split_dataframe_at_turning_point (frame ["H"; "R"] [] []) "H" = Raise ValueError /\
  split_dataframe_at_turning_point (frame ["R"] [0] [zs [1]]) "H" = Raise KeyError /\
  split_dataframe_at_turning_point (frame ["H"; "R"] [] []) "H"
    <> Raise InvalidInputError.
Proof. vm_compute. repeat split; try reflexivity. discriminate. Qed.

(** ** [merge_dataframes] *)

Lemma concat_rows df1 df2 : rows (concat df1 df2) = rows df1 ++ rows df2.
Proof.
  unfold concat. rewrite reset_index_rows. unfold rows. simpl. apply fmap_app.
Qed.

Lemma concat_columns df1 df2 c :
  c ∈ columns (concat df1 df2) <-> c ∈ columns df1 \/ c ∈ columns df2.
Proof.
  unfold concat. simpl. rewrite elem_of_app, list_elem_of_difference.
  destruct (decide (c ∈ columns df1)); tauto.
Qed.

(** C8 (as amended): when "H_kOe" is a column of one of the branches, the
    merge returns a curve of [len a + len b] rows that keeps every row of
    both branches (nothing is deduplicated), ascending in "H_kOe", with a
    fresh index.  The sort column is fixed: it is not a parameter. *)
Theorem merge_sorted_by_H_kOe (a b : DataFrame) :
  "H_kOe" ∈ columns a \/ "H_kOe" ∈ columns b ->
  exists m,
    merge_dataframes a b = Ok m /\
    len m = (len a + len b)%nat /\
    rows m ≡ₚ rows a ++ rows b /\
    ascending "H_kOe" m /\
    fresh_index m.
Proof.
  intros H. apply concat_columns in H.
  destruct (sort_reset_returns _ _ H) as [m E]. exists m.
  split; [exact E|]. apply sort_reset_spec in E as (_ & P & L & A & F).
  rewrite concat_rows in P.
  repeat split; try assumption.
  rewrite <- !len_rows. rewrite P, length_app. reflexivity.
Qed.

Lemma merge_sorted_by_H_kOe_witness :
  exists m,
    merge_dataframes (frame ["H_kOe"; "R"] [0; 1] [zs [1; 3]; zs [0; 1]])
                     (frame ["H_kOe"; "R"] [0; 1] [zs [1; 4]; zs [2; 5]]) = Ok m /\
    len m = 4%nat.
Proof.
  destruct (merge_sorted_by_H_kOe
              (frame ["H_kOe"; "R"] [0; 1] [zs [1; 3]; zs [0; 1]])
              (frame ["H_kOe"; "R"] [0; 1] [zs [1; 4]; zs [2; 5]]))
    as (m & E & L & _).
  - left. vm_compute. repeat constructor.
  - exists m. split; [exact E|exact L].
Defined.

(** C8 (counterexample): two branches whose field column is named "H_Oe",
    the default name of the split.  The merge has no parameter to say so and
    fails on its fixed key; when both columns exist, the result is ordered
    by "H_kOe" and not by the designated "H_Oe". *)
Lemma merge_key_is_hard_wired :
  merge_dataframes (frame ["H_Oe"; "R"] [0; 1] [zs [0; 1]; zs [1; 3]])
                   (frame ["H_Oe"; "R"] [0] [zs [2; 5]]) = Raise KeyError /\
  (exists m,
     merge_dataframes (frame ["H_Oe"; "H_kOe"] [0] [zs [1; 2]])
                      (frame ["H_Oe"; "H_kOe"] [0] [zs [2; 1]]) = Ok m /\
     column "H_Oe" m = zs [2; 1] /\ ~ ascending "H_Oe" m).
Proof.
  split; [vm_compute; reflexivity|].
  eexists. split; [vm_compute; reflexivity|]. split; [vm_compute; reflexivity|].
  unfold ascending. intros S. apply Sorted_inv in S as [_ S].
  apply HdRel_inv in S. vm_compute in S. discriminate.
Qed.

(** ** [interpolate_and_fill] *)

Example interpolate_nearest_ex :
  interpolate_nearest ([NaN; of_Z 1; NaN; NaN; NaN; of_Z 5; NaN; of_Z 7; NaN])
  = [NaN; of_Z 1; of_Z 1; of_Z 1; of_Z 5; of_Z 5; of_Z 5; of_Z 7; NaN].
Proof. vm_compute. reflexivity. Qed.

Example interpolate_and_fill_ex :
  interpolate_and_fill
    (frame ["H"; "R"] [0; 1; 2] [zs [0; 10]; zs [2; 12]; zs [4; 14]])
    (frame ["H"; "R"] [0; 1] [zs [1; 21]; zs [2; 22]]) "H" "R"
  = Ok (frame ["H"; "R"] [0; 1; 2; 3] [zs [0; 10]; zs [1; 10]; zs [2; 12]; zs [4; 14]],
        frame ["H"; "R"] [0; 1; 2; 3] [zs [0; 21]; zs [1; 21]; zs [2; 22]; zs [4; 22]]).
Proof. vm_compute. reflexivity. Qed.

(** *** Lengths and columns through the fill pipeline *)

Lemma at_col_insert c v (r : row) : at_col c (<[c := v]> r) = v.
Proof. unfold at_col. rewrite lookup_insert_eq. reflexivity. Qed.

Lemma at_col_insert_ne c c' v (r : row) :
  c <> c' -> at_col c' (<[c := v]> r) = at_col c' r.
Proof. intros H. unfold at_col. rewrite lookup_insert_ne by done. reflexivity. Qed.

Lemma setitem_len df c vals :
  length vals = len df -> len (setitem df c vals) = len df.
Proof.
  intros H. unfold len, setitem in *. simpl. rewrite length_zip_with. lia.
Qed.

Lemma setitem_column df c vals :
  length vals = len df -> column c (setitem df c vals) = vals.
Proof.
  unfold column, rows, len, setitem. simpl. generalize (body df) as b.
  induction vals as [|v vals IH]; intros [|[i r] b] L; simpl in *; try congruence.
  rewrite at_col_insert. f_equal. apply IH. lia.
Qed.

Lemma setitem_has_column df c vals : c ∈ columns (setitem df c vals).
Proof.
  unfold setitem. simpl. destruct (decide _); [assumption|].
  apply elem_of_app. right. left.
Qed.

Lemma length_column c df : length (column c df) = len df.
Proof. unfold column. rewrite length_fmap. apply len_rows. Qed.

Lemma length_interpolate_nearest l : length (interpolate_nearest l) = length l.
Proof. unfold interpolate_nearest. apply length_imap. Qed.

Lemma length_ffill_from c l : length (ffill_from c l) = length l.
Proof.
  revert c. induction l as [|v l IH]; intros c; [reflexivity|].
  simpl. destruct (isna v); simpl; rewrite IH; reflexivity.
Qed.

Lemma length_fill l : length (bfill (ffill l)) = length l.
Proof.
  unfold bfill, ffill. rewrite length_reverse, length_ffill_from, length_reverse.
  apply length_ffill_from.
Qed.

Lemma ffill_from_valid c l : isna c = false -> no_nan (ffill_from c l).
Proof.
  revert c. induction l as [|v l IH]; intros c Hc; [constructor|].
  simpl. destruct (isna v) eqn:E; (constructor; [assumption|apply IH; assumption]).
Qed.

Lemma ffill_from_last c l :
  l <> [] -> isna c = false \/ has_valid l ->
  exists v, last (ffill_from c l) = Some v /\ isna v = false.
Proof.
  revert c. induction l as [|v l IH]; intros c Hne H; [congruence|].
  simpl. destruct l as [|w l].
  - simpl. destruct (isna v) eqn:E; simpl; [|eauto].
    destruct H as [H|(u & Hu & Hn)]; [eauto|].
    apply list_elem_of_singleton in Hu. subst. congruence.
  - destruct (isna v) eqn:E.
    + destruct (IH c) as (u & Hu & Hn); [congruence| |].
      * destruct H as [H|(u & Hu & Hn)]; [auto|]. right.
        apply elem_of_cons in Hu as [->|Hu]; [congruence|]. exists u. auto.
      * exists u. split; [|exact Hn]. rewrite <- Hu.
        remember (w :: l) as k. simpl. destruct (ffill_from c k) eqn:F; [|reflexivity].
        apply (f_equal length) in F. rewrite length_ffill_from in F. subst. discriminate.
    + destruct (IH v) as (u & Hu & Hn); [congruence|auto|].
      exists u. split; [|exact Hn]. rewrite <- Hu.
      remember (w :: l) as k. simpl. destruct (ffill_from v k) eqn:F; [|reflexivity].
      apply (f_equal length) in F. rewrite length_ffill_from in F. subst. discriminate.
Qed.

(** [ffill] then [bfill] defines every value of a Series that has one
    defined value. *)
Lemma fill_no_nan l : has_valid l -> no_nan (bfill (ffill l)).
Proof.
  intros H. assert (l <> []) as Hne.
  { destruct H as (v & Hv & _). intros ->. inversion Hv. }
  destruct (ffill_from_last NaN l Hne (or_intror H)) as (v & Hl & Hv).
  unfold bfill. fold (ffill l) in Hl.
  apply last_Some in Hl as [k Hk]. rewrite Hk, reverse_snoc.
  unfold ffill at 1. simpl. rewrite Hv.
  unfold no_nan. rewrite Forall_reverse. constructor; [exact Hv|].
  apply ffill_from_valid, Hv.
Qed.

Lemma interpolate_nearest_valid l : has_valid l -> has_valid (interpolate_nearest l).
Proof.
  intros (v & Hv & Hn). exists v. split; [|exact Hn].
  apply list_elem_of_lookup in Hv as [i Hi]. apply list_elem_of_lookup. exists i.
  unfold interpolate_nearest. rewrite list_lookup_imap, Hi. simpl. rewrite Hn.
  reflexivity.
Qed.

(** *** The common grid and the reindexing *)

Lemma common_grid_NoDup xs1 xs2 : NoDup (common_grid xs1 xs2).
Proof.
  unfold common_grid. rewrite merge_sort_Permutation. apply NoDup_remove_dups.
Qed.

Lemma common_grid_elem xs1 xs2 g :
  g ∈ common_grid xs1 xs2 <-> g ∈ xs1 \/ g ∈ xs2.
Proof.
  unfold common_grid. rewrite merge_sort_Permutation, elem_of_remove_dups.
  apply elem_of_app.
Qed.

(** The size of the grid is the number of distinct field values of the two
    branches taken together. *)
Lemma common_grid_length xs1 xs2 :
  length (common_grid xs1 xs2) = length (remove_dups (xs1 ++ xs2)).
Proof. unfold common_grid. apply Permutation_length, merge_sort_Permutation. Qed.

Lemma common_grid_ascending xs1 xs2 : Sorted sort_le (common_grid xs1 xs2).
Proof. unfold common_grid. apply Sorted_merge_sort, _. Qed.

Lemma getitem_values df c :
  c ∈ columns df ->
  exists s, getitem df c = Ok s /\ values s = column c df /\ s.*1 = index df.
Proof.
  intros H. rewrite getitem_present by assumption. eexists. split; [reflexivity|].
  destruct (getitem_Ok df c _ (getitem_present df c H)) as (_ & ? & ?). auto.
Qed.

Lemma reindex_columns (x c : string) (cols : list string) :
  c ∈ cols -> c ∈ x :: list_difference cols [x].
Proof.
  intros H. destruct (decide (c = x)) as [->|N]; [left|right].
  apply list_elem_of_difference. split; [assumption|].
  intros E. apply list_elem_of_singleton in E. contradiction.
Qed.

(** On a frame without another column "index" the labels come back under
    the name of the field column. *)
Lemma reindex_on_plain x grid df :
  index_name_free x df ->
  reindex_on x grid df =
    xs ← getitem df x;
    let labels := values xs in
    let cols := x :: list_difference (columns df) [x] in
    if decide (labels = grid) then
      Ok (reset_index (mkDF cols (body df)))
    else if decide (NoDup labels) then
      Ok (reset_index
            (mkDF cols
               ((fun g => (0, <[x := g]> (default ∅ (row_of_label x g (rows df)))))
                  <$> grid)))
    else Raise ValueError.
Proof.
  intros Free. unfold reindex_on.
  destruct (getitem df x) as [xs|e]; [|reflexivity]. simpl.
  assert ("index" ∉ list_difference (columns df) [x]) as N.
  { intros H. apply list_elem_of_difference in H as [H1 H2].
    apply H2, list_elem_of_singleton. symmetry. exact (Free H1). }
  destruct (decide (values xs = grid)).
  { unfold mbind, result_bind. rewrite decide_False by exact N. reflexivity. }
  destruct (decide (NoDup (values xs))); unfold mbind, result_bind;
    [rewrite decide_False by exact N|]; reflexivity.
Qed.

Lemma reindex_on_duplicates x grid df :
  x ∈ columns df -> NoDup grid -> ~ NoDup (column x df) ->
  reindex_on x grid df = Raise ValueError.
Proof.
  intros Hx Hg Hd. unfold reindex_on.
  destruct (getitem_values df x Hx) as (s & -> & Gv & _). simpl. rewrite Gv.
  rewrite decide_False by (intros E; rewrite E in Hd; contradiction).
  rewrite decide_False by assumption. reflexivity.
Qed.

Lemma reindex_on_returns x grid df :
  index_name_free x df ->
  x ∈ columns df -> column x df = grid \/ NoDup (column x df) ->
  exists d, reindex_on x grid df = Ok d /\
    (forall c, c ∈ columns df -> c ∈ columns d) /\
    len d = length grid /\
    (forall y, no_nan (column x df) -> (forall g, g ∈ column x df -> g ∈ grid) ->
               has_valid (column y df) -> has_valid (column y d)).
Proof.
  intros Free Hx Hl. rewrite reindex_on_plain by exact Free.
  destruct (getitem_values df x Hx) as (s & -> & Gv & _). simpl. rewrite Gv.
  destruct (decide (column x df = grid)) as [E|NE].
  - eexists. split; [reflexivity|]. split; [intros c; apply reindex_columns|].
    split.
    + rewrite reset_index_len. unfold len. simpl. fold (len df).
      rewrite <- E. symmetry. apply length_column.
    + intros y _ _ H. unfold column. rewrite reset_index_rows. exact H.
  - destruct Hl as [?|Hnd]; [contradiction|]. rewrite decide_True by assumption.
    eexists. split; [reflexivity|]. split; [intros c; apply reindex_columns|].
    split.
    + rewrite reset_index_len. unfold len. simpl. apply length_fmap.
    + intros y Hnan Hsub (v & Hv & Hn).
      unfold column in Hv. apply list_elem_of_fmap in Hv as (r & -> & Hr).
      set (g := at_col x r).
      assert (g ∈ column x df) as Hg by (apply list_elem_of_fmap; eauto).
      assert (isna g = false) as Hgn.
      { unfold no_nan in Hnan. rewrite Forall_forall in Hnan. auto. }
      assert (row_of_label x g (rows df) = Some r) as Hrow.
      { unfold row_of_label.
        destruct (list_find_elem_of (fun r' => at_col x r' = g) (rows df) r Hr eq_refl)
          as [[i r'] Hf].
        rewrite Hf. simpl. f_equal.
        apply list_find_Some in Hf as (Hi & Hg' & _).
        apply list_elem_of_lookup in Hr as [j Hj].
        assert (i = j) as ->; [|congruence].
        apply (NoDup_lookup (column x df) i j g Hnd); unfold column;
          rewrite list_lookup_fmap; [rewrite Hi|rewrite Hj]; simpl.
        all: try (f_equal; assumption). all: reflexivity. }
      unfold column. rewrite reset_index_rows. unfold rows. simpl.
      rewrite <- !list_fmap_compose.
      destruct (decide (x = y)) as [->|Nxy].
      * exists g. split; [|exact Hgn]. apply list_elem_of_fmap. exists g.
        split; [|auto]. unfold compose. cbn [snd]. rewrite at_col_insert. reflexivity.
      * exists (at_col y r). split; [|exact Hn]. apply list_elem_of_fmap. exists g.
        split; [|auto]. unfold compose. cbn [snd]. fold (rows df). rewrite Hrow. cbn [default].
        rewrite at_col_insert_ne by assumption. reflexivity.
Qed.

Lemma interpolate_and_fill_df_duplicates x y grid df :
  x ∈ columns df -> NoDup grid -> ~ NoDup (column x df) ->
  interpolate_and_fill_df x y grid df = Raise ValueError.
Proof.
  intros. unfold interpolate_and_fill_df.
  rewrite reindex_on_duplicates by assumption. reflexivity.
Qed.

Lemma interpolate_and_fill_df_returns x y grid df :
  index_name_free x df ->
  x ∈ columns df -> y ∈ columns df ->
  column x df = grid \/ NoDup (column x df) ->
  exists d, interpolate_and_fill_df x y grid df = Ok d /\
    len d = length grid /\
    (no_nan (column x df) -> (forall g, g ∈ column x df -> g ∈ grid) ->
     has_valid (column y df) -> no_nan (column y d)).
Proof.
  intros Free Hx Hy Hl. unfold interpolate_and_fill_df.
  destruct (reindex_on_returns x grid df Free Hx Hl) as (d0 & -> & Hc & Hlen & Hval).
  simpl. destruct (getitem_values d0 y (Hc y Hy)) as (s & -> & Gv & _). simpl.
  rewrite Gv. set (d1 := setitem d0 y _).
  assert (len d1 = len d0) as L1.
  { apply setitem_len. rewrite length_interpolate_nearest. apply length_column. }
  destruct (getitem_values d1 y (setitem_has_column _ _ _)) as (s1 & -> & Gv1 & _).
  simpl. rewrite Gv1. eexists. split; [reflexivity|].
  assert (length (bfill (ffill (column y d1))) = len d1) as L2.
  { rewrite length_fill. apply length_column. }
  split.
  - rewrite setitem_len by assumption. congruence.
  - intros Hn Hs Hv. rewrite setitem_column by assumption.
    apply fill_no_nan. unfold d1. rewrite setitem_column.
    + apply interpolate_nearest_valid. auto.
    + rewrite length_interpolate_nearest. apply length_column.
Qed.

(** *** Alignment: when it returns and what it returns *)

Lemma interpolate_and_fill_unfold a b x y :
  x ∈ columns a -> x ∈ columns b ->
  interpolate_and_fill a b x y =
    df1_filled ← interpolate_and_fill_df x y (common_grid (column x a) (column x b)) a;
    df2_filled ← interpolate_and_fill_df x y (common_grid (column x a) (column x b)) b;
    Ok (df1_filled, df2_filled).
Proof.
  intros Ha Hb. unfold interpolate_and_fill.
  destruct (getitem_values a x Ha) as (s1 & -> & G1 & _).
  destruct (getitem_values b x Hb) as (s2 & -> & G2 & _).
  simpl. rewrite G1, G2. reflexivity.
Qed.

(** C10 (as amended): with the field and value columns present and the
    field values defined, the alignment raises as soon as a field value
    occurs twice within one branch.  When no other column is called "index",
    what it raises then is the ValueError of [reindex], and it returns when
    the field values of each branch are pairwise distinct. *)
Theorem align_raises_on_duplicates (a b : DataFrame) (x y : string) :
  x ∈ columns a -> x ∈ columns b -> y ∈ columns a -> y ∈ columns b ->
  no_nan (column x a) -> no_nan (column x b) ->
  (~ NoDup (column x a) \/ ~ NoDup (column x b) ->
   raises (interpolate_and_fill a b x y)) /\
  (index_name_free x a -> index_name_free x b ->
   (~ NoDup (column x a) \/ ~ NoDup (column x b) ->
    interpolate_and_fill a b x y = Raise ValueError) /\
   (NoDup (column x a) -> NoDup (column x b) ->
    returns (interpolate_and_fill a b x y))).
Proof.
  intros Hxa Hxb Hya Hyb _ _.
  rewrite interpolate_and_fill_unfold by assumption.
  set (grid := common_grid _ _).
  assert (NoDup grid) as Hg by apply common_grid_NoDup.
  split.
  - intros H. unfold raises. destruct (decide (NoDup (column x a))) as [Da|Da].
    + destruct H as [H|H]; [contradiction|].
      destruct (interpolate_and_fill_df x y grid a) as [d|e]; simpl; [|eauto].
      rewrite (interpolate_and_fill_df_duplicates x y grid b Hxb Hg H). simpl. eauto.
    + rewrite (interpolate_and_fill_df_duplicates x y grid a Hxa Hg Da). simpl. eauto.
  - intros Ia Ib. split.
    + intros H. destruct (decide (NoDup (column x a))) as [Da|Da].
      * destruct H as [H|H]; [contradiction|].
        destruct (interpolate_and_fill_df_returns x y grid a) as (d & -> & _); auto.
        simpl. rewrite (interpolate_and_fill_df_duplicates x y grid b Hxb Hg H).
        reflexivity.
      * rewrite (interpolate_and_fill_df_duplicates x y grid a Hxa Hg Da). reflexivity.
    + intros Da Db.
      destruct (interpolate_and_fill_df_returns x y grid a) as (d1 & -> & _); auto.
      destruct (interpolate_and_fill_df_returns x y grid b) as (d2 & -> & _); auto.
      eexists. reflexivity.
Qed.

Lemma align_raises_on_duplicates_witness :
  interpolate_and_fill
    (frame ["H"; "R"] [0; 1; 2] [zs [0; 10]; zs [1; 11]; zs [1; 12]])
    (frame ["H"; "R"] [0; 1] [zs [0; 20]; zs [2; 22]]) "H" "R"
  = Raise ValueError.
Proof.
  destruct (align_raises_on_duplicates
              (frame ["H"; "R"] [0; 1; 2] [zs [0; 10]; zs [1; 11]; zs [1; 12]])
              (frame ["H"; "R"] [0; 1] [zs [0; 20]; zs [2; 22]]) "H" "R")
    as [_ V].
  1-4: apply (bool_decide_unpack _); vm_compute; exact I.
  1-2: vm_compute; repeat constructor.
  destruct V as [V _].
  1-2: apply (bool_decide_unpack _); vm_compute; exact I.
  apply V. left. apply (bool_decide_eq_false_1 _). vm_compute. reflexivity.
Defined.

(** C10 (counterexample): distinct field values do not make the alignment
    total.  With the value column called "index", [reset_index] calls the
    restored labels "level_0", the [rename] gives the name of the field
    column to the column "index", and [df_interp["index"]] is a KeyError. *)
Lemma align_distinct_not_total :
  NoDup (column "H" (frame ["H"; "index"] [0; 1] [zs [0; 10]; zs [1; 11]])) /\
  NoDup (column "H" (frame ["H"; "index"] [0; 1] [zs [0; 20]; zs [2; 22]])) /\
  interpolate_and_fill
    (frame ["H"; "index"] [0; 1] [zs [0; 10]; zs [1; 11]])
    (frame ["H"; "index"] [0; 1] [zs [0; 20]; zs [2; 22]]) "H" "index"
  = Raise KeyError.
Proof.
  split; [|split]; [| |vm_compute; reflexivity];
    apply (bool_decide_unpack _); vm_compute; exact I.
Qed.

(** C2 (as amended): for two branches with the field and value columns
    present and no other column called "index", whose field values are
    defined and pairwise distinct within each branch and whose value column
    has a defined value in each branch (so no branch is empty), the alignment
    returns two frames of the same length, the number of distinct field
    values of both branches together, and no value of the value column is NaN
    in either. *)
Theorem align_lengths_and_defined (a b : DataFrame) (x y : string) :
  x ∈ columns a -> x ∈ columns b -> y ∈ columns a -> y ∈ columns b ->
  index_name_free x a -> index_name_free x b ->
  no_nan (column x a) -> no_nan (column x b) ->
  NoDup (column x a) -> NoDup (column x b) ->
  has_valid (column y a) -> has_valid (column y b) ->
  exists fa fb,
    interpolate_and_fill a b x y = Ok (fa, fb) /\
    len fa = len fb /\
    len fa = length (remove_dups (column x a ++ column x b)) /\
    no_nan (column y fa) /\ no_nan (column y fb).
Proof.
  intros Hxa Hxb Hya Hyb Ia Ib Na Nb Da Db Va Vb.
  rewrite interpolate_and_fill_unfold by assumption.
  set (grid := common_grid _ _).
  destruct (interpolate_and_fill_df_returns x y grid a) as (fa & -> & La & Fa); auto.
  destruct (interpolate_and_fill_df_returns x y grid b) as (fb & -> & Lb & Fb); auto.
  exists fa, fb. split; [reflexivity|].
  split; [congruence|]. split.
  - rewrite La. apply common_grid_length.
  - split; [apply Fa|apply Fb]; auto; intros g Hg; apply common_grid_elem; auto.
Qed.

Lemma align_lengths_and_defined_witness :
  exists fa fb,
    interpolate_and_fill
      (frame ["H"; "R"] [0; 1; 2] [zs [0; 10]; zs [2; 12]; zs [4; 14]])
      (frame ["H"; "R"] [0; 1] [zs [1; 21]; zs [2; 22]]) "H" "R" = Ok (fa, fb) /\
    len fa = 4%nat /\ len fb = 4%nat.
Proof.
  destruct (align_lengths_and_defined
              (frame ["H"; "R"] [0; 1; 2] [zs [0; 10]; zs [2; 12]; zs [4; 14]])
              (frame ["H"; "R"] [0; 1] [zs [1; 21]; zs [2; 22]]) "H" "R")
    as (fa & fb & E & L1 & L2 & _).
  1-6: apply (bool_decide_unpack _); vm_compute; exact I.
  1-2: vm_compute; repeat constructor.
  1-2: apply (bool_decide_unpack _); vm_compute; exact I.
  1-2: eexists; split; [left|reflexivity].
  exists fa, fb. split; [exact E|]. rewrite <- L1, L2. vm_compute. auto.
Defined.

(** C2 (counterexample): an empty branch, as the split returns for a curve
    that ends at its minimum, is aligned to rows whose value is NaN; and a
    branch with a repeated field value is not aligned at all. *)
Lemma align_undefined_or_raises :
  (exists fa fb,
     interpolate_and_fill
       (frame ["H"; "R"] [] [])
       (frame ["H"; "R"] [0; 1] [zs [1; 21]; zs [2; 22]]) "H" "R" = Ok (fa, fb) /\
     column "R" fa = [NaN; NaN]) /\
  interpolate_and_fill
    (frame ["H"; "R"] [0; 1] [zs [1; 11]; zs [1; 12]])
    (frame ["H"; "R"] [0; 1] [zs [1; 21]; zs [2; 22]]) "H" "R" = Raise ValueError.
Proof.
  split; [|vm_compute; reflexivity].
  eexists _, _. split; vm_compute; reflexivity.
Qed.

(** ** Zero crossings and range *)

Example zero_crossings_scenario :
  compute_zero_crossings (frame ["R"] [0; 1; 2; 3] [zs [1]; zs [-1]; zs [1]; zs [-1]])
                         (frame ["R"] [0; 1; 2] [zs [2]; zs [2]; zs [2]]) "R" = Ok 3%nat.
Proof. vm_compute. reflexivity. Qed.

Example range_scenario :
  compute_range (frame ["H_kOe"; "R"] [0; 1; 2] [zs [0; 1]; zs [1; 5]; zs [2; 3]])
                (frame ["H_kOe"; "R"] [0; 1] [zs [1; 9]; zs [2; 0]]) "R" = Ok (of_Z 9).
Proof. vm_compute. reflexivity. Qed.

(** *** Counting sign changes *)

Lemma sign_cases (a : cell) :
  sign a = NaN \/ sign a = of_Z (-1) \/ sign a = of_Z 0 \/ sign a = of_Z 1.
Proof. destruct a as [| | |x]; simpl; auto. destruct (x ?= 0)%Qc; auto. Qed.

Lemma sign_zero_iff (a : cell) : sign a = of_Z 0 <-> a = of_Z 0.
Proof.
  destruct a as [| | |x]; simpl; try (split; discriminate).
  destruct (x ?= 0)%Qc eqn:E; split; try discriminate; intros H.
  - apply Qceq_alt in E. subst. reflexivity.
  - reflexivity.
  - injection H as ->. discriminate.
  - injection H as ->. discriminate.
Qed.

Lemma sign_diff_nonzero (a b : cell) :
  isna a = false -> isna b = false ->
  nonzero (sub (sign b) (sign a)) = negb (bool_decide (sign a = sign b)).
Proof.
  intros Na Nb.
  destruct (sign_cases a) as [Ha|[Ha|[Ha|Ha]]];
    [destruct a as [| | |x]; simpl in *; try discriminate;
     destruct (x ?= 0)%Qc; discriminate|..];
  (destruct (sign_cases b) as [Hb|[Hb|[Hb|Hb]]];
    [destruct b as [| | |x]; simpl in *; try discriminate;
     destruct (x ?= 0)%Qc; discriminate|..]);
  rewrite Ha, Hb; vm_compute; reflexivity.
Qed.

Lemma crossings_cons2 (a b : cell) (l : list cell) :
  crossings (a :: b :: l) =
  ((if nonzero (sub (sign b) (sign a)) then 1 else 0) + crossings (b :: l))%nat.
Proof.
  unfold crossings, diff. simpl. rewrite filter_cons.
  destruct (nonzero _) eqn:E.
  - rewrite decide_True by reflexivity. reflexivity.
  - rewrite decide_False by discriminate. reflexivity.
Qed.

(** On a column without NaN, the code counts the adjacent pairs whose signs
    differ. *)
Lemma crossings_sign_changes (l : list cell) :
  no_nan l -> crossings l = sign_changes l.
Proof.
  induction l as [|a [|b l] IH]; intros N; try reflexivity.
  rewrite crossings_cons2. apply Forall_cons in N as [Na N].
  pose proof N as N'. apply Forall_cons in N' as [Nb _].
  rewrite sign_diff_nonzero by assumption.
  change (sign_changes (a :: b :: l))
    with ((if decide (sign a = sign b) then 0 else 1) + sign_changes (b :: l))%nat.
  rewrite <- IH by assumption.
  destruct (decide (sign a = sign b)) as [E|E].
  - rewrite bool_decide_eq_true_2 by assumption. reflexivity.
  - rewrite bool_decide_eq_false_2 by assumption. reflexivity.
Qed.

Lemma crossings_app (l1 : list cell) (x : cell) (l2 : list cell) :
  crossings (l1 ++ x :: l2) = (crossings (l1 ++ [x]) + crossings (x :: l2))%nat.
Proof.
  induction l1 as [|a [|b l1] IH].
  - reflexivity.
  - simpl. destruct l2; rewrite !crossings_cons2; simpl; unfold crossings; simpl; lia.
  - change ((a :: b :: l1) ++ x :: l2) with (a :: ((b :: l1) ++ x :: l2)).
    change ((a :: b :: l1) ++ [x]) with (a :: ((b :: l1) ++ [x])).
    simpl app in *. rewrite !crossings_cons2, IH. lia.
Qed.

Lemma crossing_at_zero (a : cell) :
  a <> of_Z 0 ->
  nonzero (sub (sign (of_Z 0)) (sign a)) = true /\
  nonzero (sub (sign a) (sign (of_Z 0))) = true.
Proof.
  intros H. rewrite <- sign_zero_iff in H.
  destruct (sign_cases a) as [E|[E|[E|E]]]; try contradiction;
    rewrite E; vm_compute; auto.
Qed.

(** C9: a sample equal to zero between two nonzero samples is counted on
    both sides.  The count of the first branch splits into the crossings up
    to [a], the two crossings [a -> 0] and [0 -> b], and the crossings from
    [b] on; in particular the triple [a, 0, b] alone counts 2.  On a column
    without NaN the code counts exactly the adjacent pairs whose [np.sign]
    values differ. *)
Theorem zero_sample_counts_twice (df1 df2 : DataFrame) (y : string)
    (pre post : list cell) (a b : cell) :
  y ∈ columns df1 -> y ∈ columns df2 ->
  column y df1 = pre ++ [a; of_Z 0; b] ++ post ->
  a <> of_Z 0 -> b <> of_Z 0 ->
  compute_zero_crossings df1 df2 y
    = Ok (crossings (column y df1) + crossings (column y df2))%nat /\
  crossings (column y df1)
    = (crossings (pre ++ [a]) + 2 + crossings (b :: post))%nat /\
  crossings [a; of_Z 0; b] = 2%nat /\
  (no_nan (column y df1) -> crossings (column y df1) = sign_changes (column y df1)).
Proof.
  intros H1 H2 E Ha Hb.
  destruct (crossing_at_zero a Ha) as [Za _].
  destruct (crossing_at_zero b Hb) as [_ Zb].
  split; [|split; [|split]].
  - unfold compute_zero_crossings.
    destruct (getitem_values df1 y H1) as (s1 & -> & G1 & _).
    destruct (getitem_values df2 y H2) as (s2 & -> & G2 & _).
    simpl. rewrite G1, G2. reflexivity.
  - rewrite E.
    change (pre ++ [a; of_Z 0; b] ++ post) with (pre ++ a :: of_Z 0 :: b :: post).
    rewrite crossings_app, !crossings_cons2, Za, Zb. lia.
  - rewrite !crossings_cons2, Za, Zb. reflexivity.
  - apply crossings_sign_changes.
Qed.

Lemma zero_sample_counts_twice_witness :
  compute_zero_crossings (frame ["R"] [0; 1; 2] [zs [1]; zs [0]; zs [-1]])
                         (frame ["R"] [0; 1] [zs [2]; zs [2]]) "R" = Ok 2%nat.
Proof.
  destruct (zero_sample_counts_twice
              (frame ["R"] [0; 1; 2] [zs [1]; zs [0]; zs [-1]])
              (frame ["R"] [0; 1] [zs [2]; zs [2]]) "R" [] [] (of_Z 1) (of_Z (-1)))
    as (E & _).
  1-2: vm_compute; repeat constructor.
  - vm_compute. reflexivity.
  - discriminate.
  - discriminate.
  - rewrite E. vm_compute. reflexivity.
Defined.

(** ** [compute_pseudo_area_random_sampling] *)

(** Three samples against two: the larger branch is cut to two rows. *)
Example pseudo_area_ex :
  match compute_pseudo_area_random_sampling choice_rev 0%nat 1%nat "R"
          [frame ["H"; "R"] [0; 1; 2] [zs [0; 3]; zs [1; 5]; zs [2; 4]];
           frame ["H"; "R"] [0; 1] [zs [0; 2]; zs [1; 2]]]
  with
  | Ok (v, h) => eqb v (of_Z 4) && bool_decide (length h = 5%nat)
  | Raise _ => false
  end = true.
Proof. vm_compute. reflexivity. Qed.

(** *** Running programs over the store *)

Lemma bind_run {A B} (m : prog A) (f : A -> prog B) h a h' :
  m h = Ok (a, h') -> (m ≫= f) h = f a h'.
Proof. intros H. unfold mbind, prog_bind. rewrite H. reflexivity. Qed.

Lemma load_ok h l d : h !! l = Some d -> load l h = Ok (d, h).
Proof. intros H. unfold load. rewrite H. reflexivity. Qed.

Lemma lift_ok {A} (r : result A) a h : r = Ok a -> lift r h = Ok (a, h).
Proof. intros ->. reflexivity. Qed.

Lemma new_ok d h : new d h = Ok (length h, h ++ [d]).
Proof. reflexivity. Qed.

Lemma copy_ok h l d : h !! l = Some d -> copy l h = Ok (length h, h ++ [d]).
Proof.
  intros H. unfold copy. rewrite (bind_run _ _ _ _ _ (load_ok _ _ _ H)). reflexivity.
Qed.

Lemma shifted_len y k df : len (shifted y k df) = len df.
Proof. apply setitem_len. rewrite length_fmap. apply length_column. Qed.

Lemma shifted_column y k df :
  column y (shifted y k df) = (fun v => sub v k) <$> column y df.
Proof. apply setitem_column. rewrite length_fmap. apply length_column. Qed.

Lemma shifted_columns y k df : y ∈ columns df -> columns (shifted y k df) = columns df.
Proof. intros H. unfold shifted, setitem. simpl. rewrite decide_True by done. reflexivity. Qed.

Lemma isub_ok h l d c k :
  h !! l = Some d -> c ∈ columns d ->
  isub l c k h = Ok (tt, <[l := shifted c k d]> h).
Proof.
  intros H Hc. unfold isub.
  rewrite (bind_run _ _ _ _ _ (load_ok _ _ _ H)).
  destruct (getitem_values d c Hc) as (s & G & Gv & _).
  rewrite (bind_run _ _ _ _ _ (lift_ok _ _ _ G)).
  unfold store_at, shifted. rewrite Gv. reflexivity.
Qed.

Lemma extends_lookup h h' l d : extends h h' -> h !! l = Some d -> h' !! l = Some d.
Proof. intros [ext ->] H. apply lookup_app_l_Some, H. Qed.

Lemma lookup_suffix2_0 (h : store) a b : (h ++ [a; b]) !! length h = Some a.
Proof. apply list_lookup_middle. reflexivity. Qed.

Lemma lookup_suffix2_1 (h : store) a b : (h ++ [a; b]) !! S (length h) = Some b.
Proof.
  rewrite (cons_middle a h [b]), (assoc_L (++)).
  apply list_lookup_middle. rewrite length_app. simpl. lia.
Qed.

Lemma insert_suffix2_0 (h : store) a b a' :
  <[length h := a']> (h ++ [a; b]) = h ++ [a'; b].
Proof. rewrite insert_app_r_alt by lia. rewrite Nat.sub_diag. reflexivity. Qed.

Lemma insert_suffix2_1 (h : store) a b b' :
  <[S (length h) := b']> (h ++ [a; b]) = h ++ [a; b'].
Proof.
  rewrite insert_app_r_alt by lia.
  replace (S (length h) - length h)%nat with 1%nat by lia. reflexivity.
Qed.

Lemma sample_ok choice df n : (n <= len df)%nat -> sample choice df n = Ok (sample_rows choice df n).
Proof.
  intros H. unfold sample. destruct (Nat.leb_spec n (len df)); [reflexivity|lia].
Qed.

Lemma sample_rows_columns choice df n : columns (sample_rows choice df n) = columns df.
Proof. reflexivity. Qed.

(** The program returns [pseudo_area_value] of the two frames it was given,
    and leaves a store that extends the one it started from: the caller's
    frames are as they were. *)
Lemma pseudo_area_run choice (h : store) (lu ll : loc) (u l : DataFrame) (y : string) :
  h !! lu = Some u -> h !! ll = Some l -> y ∈ columns u -> y ∈ columns l ->
  exists h',
    compute_pseudo_area_random_sampling choice lu ll y h
      = Ok (pseudo_area_value choice u l y, h') /\ extends h h'.
Proof.
  intros Hu Hl Yu Yl. unfold compute_pseudo_area_random_sampling.
  rewrite (bind_run _ _ _ _ _ (load_ok _ _ _ Hu)).
  rewrite (bind_run _ _ _ _ _ (load_ok _ _ _ Hl)).
  destruct (getitem_values u y Yu) as (su & Gu & Vu & _).
  destruct (getitem_values l y Yl) as (sl & Gl & Vl & _).
  rewrite (bind_run _ _ _ _ _ (lift_ok _ _ _ Gu)).
  rewrite (bind_run _ _ _ _ _ (lift_ok _ _ _ Gl)).
  cbv zeta. rewrite Vu, Vl.
  set (y_min := py_min _ _).
  rewrite (bind_run _ _ _ _ _ (copy_ok _ _ _ Hu)).
  assert ((h ++ [u]) !! ll = Some l) as Hl' by (apply lookup_app_l_Some, Hl).
  rewrite (bind_run _ _ _ _ _ (copy_ok _ _ _ Hl')).
  rewrite <- (assoc_L (++)). simpl app.
  rewrite (bind_run _ _ _ _ _
             (isub_ok _ _ _ y y_min (lookup_suffix2_0 h u l) Yu)).
  rewrite insert_suffix2_0.
  assert (length (h ++ [u]) = S (length h)) as -> by (rewrite length_app; simpl; lia).
  rewrite (bind_run _ _ _ _ _
             (isub_ok _ _ _ y y_min (lookup_suffix2_1 h _ l) Yl)).
  rewrite insert_suffix2_1.
  set (un := shifted y y_min u). set (ln := shifted y y_min l).
  rewrite (bind_run _ _ _ _ _ (load_ok _ _ _ (lookup_suffix2_0 h un ln))).
  rewrite (bind_run _ _ _ _ _ (load_ok _ _ _ (lookup_suffix2_1 h un ln))).
  assert (y ∈ columns un) as Yun by (unfold un; rewrite shifted_columns; assumption).
  assert (y ∈ columns ln) as Yln by (unfold ln; rewrite shifted_columns; assumption).
  destruct (getitem_values un y Yun) as (sun & Gun & Vun & _).
  destruct (getitem_values ln y Yln) as (sln & Gln & Vln & _).
  unfold pseudo_area_value. fold y_min. fold un. fold ln.
  destruct (len ln <? len un)%nat.
  - set (s := sample_rows choice un _).
    assert (sample choice un (Nat.min (len un) (len ln)) = Ok s) as Hs
      by (apply sample_ok; lia).
    rewrite (bind_run _ _ _ _ _ (bind_run _ _ _ _ _ (lift_ok _ _ _ Hs))).
    assert (((h ++ [un; ln]) ++ [s]) !! length (h ++ [un; ln]) = Some s) as Ls
      by (apply list_lookup_middle; reflexivity).
    rewrite (bind_run _ _ _ _ _ (load_ok _ _ _ Ls)).
    assert (((h ++ [un; ln]) ++ [s]) !! S (length h) = Some ln) as Ll
      by (apply lookup_app_l_Some, lookup_suffix2_1).
    rewrite (bind_run _ _ _ _ _ (load_ok _ _ _ Ll)).
    destruct (getitem_values s y Yun) as (ss & Gs & Vs & _).
    rewrite (bind_run _ _ _ _ _ (lift_ok _ _ _ Gs)).
    rewrite (bind_run _ _ _ _ _ (lift_ok _ _ _ Gln)).
    cbv zeta. rewrite Vs, Vln. eexists. split; [reflexivity|].
    exists [un; ln; s]. rewrite <- (assoc_L (++)). reflexivity.
  - set (s := sample_rows choice ln _).
    assert (sample choice ln (Nat.min (len un) (len ln)) = Ok s) as Hs
      by (apply sample_ok; lia).
    rewrite (bind_run _ _ _ _ _ (bind_run _ _ _ _ _ (lift_ok _ _ _ Hs))).
    assert (((h ++ [un; ln]) ++ [s]) !! length h = Some un) as Lu
      by (apply lookup_app_l_Some, lookup_suffix2_0).
    rewrite (bind_run _ _ _ _ _ (load_ok _ _ _ Lu)).
    assert (((h ++ [un; ln]) ++ [s]) !! length (h ++ [un; ln]) = Some s) as Ls
      by (apply list_lookup_middle; reflexivity).
    rewrite (bind_run _ _ _ _ _ (load_ok _ _ _ Ls)).
    destruct (getitem_values s y Yln) as (ss & Gs & Vs & _).
    rewrite (bind_run _ _ _ _ _ (lift_ok _ _ _ Gun)).
    rewrite (bind_run _ _ _ _ _ (lift_ok _ _ _ Gs)).
    cbv zeta. rewrite Vun, Vs. eexists. split; [reflexivity|].
    exists [un; ln; s]. rewrite <- (assoc_L (++)). reflexivity.
Qed.

(** *** Arithmetic facts used by the pseudo-area *)

Lemma Num_ext (x y : Qc) : (this x == this y)%Q -> Num x = Num y.
Proof. intros H. f_equal. apply Qc_is_canon, H. Qed.

Lemma add_left_comm (a b c : cell) : add a (add b c) = add b (add a c).
Proof.
  destruct a as [| | |x], b as [| | |y], c as [| | |z]; simpl; try reflexivity.
  f_equal. ring.
Qed.

Lemma abs_sub_comm (a b : cell) : abs (sub a b) = abs (sub b a).
Proof.
  destruct a as [| | |x], b as [| | |y]; simpl; try reflexivity.
  f_equal. apply Qcabs_Qcminus.
Qed.

Lemma abs_sub_diag (a : cell) : isfinite a = true -> abs (sub a a) = of_Z 0.
Proof.
  destruct a as [| | |x]; simpl; try discriminate. intros _.
  replace (x + - x)%Qc with (Q2Qc 0) by ring. apply Num_ext. reflexivity.
Qed.

Lemma sort_le_antisym (a b : cell) : sort_le a b -> sort_le b a -> a = b.
Proof.
  destruct a as [| | |x], b as [| | |y]; unfold sort_le; simpl; try congruence.
  intros H1 H2. apply sort_leb_Num in H1, H2. f_equal. apply Qcle_antisym; assumption.
Qed.

(** Python's [min] does not depend on the order of its two arguments when
    neither is NaN. *)
Lemma py_min_comm (a b : cell) :
  isna a = false -> isna b = false -> py_min a b = py_min b a.
Proof.
  intros Na Nb. unfold py_min.
  rewrite (ltb_sort_leb b a), (ltb_sort_leb a b) by assumption.
  destruct (sort_leb a b) eqn:E1, (sort_leb b a) eqn:E2; simpl; try reflexivity.
  - apply sort_le_antisym; assumption.
  - destruct (sort_le_total a b) as [H|H]; unfold sort_le in H; congruence.
Qed.

Lemma nansum_Permutation (l1 l2 : list cell) : l1 ≡ₚ l2 -> nansum l1 = nansum l2.
Proof.
  intros P. unfold nansum.
  apply (foldr_permutation_proper eq add (of_Z 0)).
  - intros. apply add_left_comm.
  - apply filter_Permutation, P.
Qed.

Lemma finite_no_nan l : finite l -> no_nan l.
Proof.
  intros F. eapply Forall_impl; [exact F|].
  intros [| | |x]; simpl; congruence.
Qed.

Lemma nansum_finite (l : list cell) : finite l -> isfinite (nansum l) = true.
Proof.
  intros F. unfold nansum.
  induction F as [|[| | |x] l Hx F IH]; try discriminate; [reflexivity|].
  rewrite filter_cons_True by reflexivity. simpl.
  destruct (foldr _ _ _); try discriminate. reflexivity.
Qed.

Lemma series_min_elem (l : list cell) :
  has_valid l -> series_min l ∈ l /\ isna (series_min l) = false.
Proof.
  intros (v & Hv & Hn). unfold series_min.
  assert (v ∈ filter (fun v => isna v = false) l) as Hf
    by (apply list_elem_of_filter; auto).
  destruct (filter _ l) as [|w ws] eqn:E; [inversion Hf|].
  assert (forall x, x ∈ w :: ws -> x ∈ l /\ isna x = false) as Hall.
  { intros x Hx. rewrite <- E in Hx. apply list_elem_of_filter in Hx. tauto. }
  clear E Hf Hv Hn v. revert w Hall.
  induction ws as [|z ws IH]; intros w Hall; simpl.
  - apply Hall. left.
  - apply IH. intros x Hx. apply Hall.
    apply elem_of_cons in Hx as [->|Hx].
    + destruct (ltb z w); [right; left|left].
    + right. right. exact Hx.
Qed.

(** *** Symmetry of the pseudo-area *)

Lemma omap_lookup_seq {A} (l k : list A) :
  omap (fun i => (k ++ l) !! i) (seq (length k) (length l)) = l.
Proof.
  revert k. induction l as [|a l IH]; intros k; [reflexivity|].
  simpl. rewrite list_lookup_middle by reflexivity. f_equal.
  specialize (IH (k ++ [a])). rewrite length_app in IH. simpl in IH.
  rewrite Nat.add_1_r, <- (assoc_L (++)) in IH. exact IH.
Qed.

Lemma shifted_finite y k df :
  finite (column y df) -> isfinite k = true -> finite (column y (shifted y k df)).
Proof.
  intros F Hk. rewrite shifted_column. unfold finite in *.
  apply Forall_fmap. eapply Forall_impl; [exact F|].
  intros [| | |x]; simpl; try discriminate. destruct k; try discriminate. reflexivity.
Qed.

Section SamplingFacts.

Variable choice : nat -> nat -> list nat.

(** What is known of the generator: a draw of [n] out of [N] is a list of
    [n] distinct positions below [N]. *)
Hypothesis choice_spec : forall N n, (n <= N)%nat ->
  NoDup (choice N n) /\ length (choice N n) = n /\
  Forall (fun i => (i < N)%nat) (choice N n).

Lemma choice_all N : choice N N ≡ₚ seq 0 N.
Proof.
  destruct (choice_spec N N (le_n N)) as (D & L & B).
  apply submseteq_length_Permutation.
  - apply NoDup_submseteq; [exact D|]. intros i Hi.
    rewrite Forall_forall in B. apply elem_of_seq. specialize (B i Hi). lia.
  - rewrite length_seq, L. reflexivity.
Qed.

Lemma sample_all df y :
  column y (sample_rows choice df (len df)) ≡ₚ column y df.
Proof.
  unfold column, rows, sample_rows. simpl. do 2 apply fmap_Permutation.
  rewrite choice_all. unfold len.
  exact (eq_ind_r (fun l => l ≡ₚ body df) (reflexivity _)
           (omap_lookup_seq (body df) [])).
Qed.

Lemma sample_none df y : column y (sample_rows choice df 0) = [].
Proof.
  unfold column, rows, sample_rows. simpl.
  destruct (choice_spec (len df) 0 (Nat.le_0_l _)) as (_ & L & _).
  apply nil_length_inv in L. rewrite L. reflexivity.
Qed.

Lemma pseudo_area_value_comm u l y :
  has_valid (column y u) -> has_valid (column y l) ->
  pseudo_area_value choice u l y = pseudo_area_value choice l u y.
Proof.
  intros Vu Vl. unfold pseudo_area_value.
  destruct (series_min_elem _ Vu) as [_ Nu].
  destruct (series_min_elem _ Vl) as [_ Nl].
  rewrite (py_min_comm (series_min (column y l))) by assumption.
  set (m := py_min _ _). cbv zeta.
  set (un := shifted y m u). set (ln := shifted y m l).
  destruct (lt_eq_lt_dec (len un) (len ln)) as [[H|H]|H].
  - destruct (Nat.ltb_spec (len ln) (len un)); [lia|].
    destruct (Nat.ltb_spec (len un) (len ln)); [|lia].
    rewrite (Nat.min_comm (len ln)). apply abs_sub_comm.
  - destruct (Nat.ltb_spec (len ln) (len un)); [lia|].
    destruct (Nat.ltb_spec (len un) (len ln)); [lia|].
    rewrite <- H, Nat.min_id.
    rewrite (nansum_Permutation _ _ (sample_all un y)).
    rewrite H at 1. rewrite (nansum_Permutation _ _ (sample_all ln y)).
    apply abs_sub_comm.
  - destruct (Nat.ltb_spec (len ln) (len un)); [|lia].
    destruct (Nat.ltb_spec (len un) (len ln)); [lia|].
    rewrite (Nat.min_comm (len ln)). apply abs_sub_comm.
Qed.

Lemma pseudo_area_value_same u l y :
  has_valid (column y u) -> finite (column y u) -> column y u = column y l ->
  pseudo_area_value choice u l y = of_Z 0.
Proof.
  intros V F E. unfold pseudo_area_value. rewrite <- E.
  destruct (series_min_elem _ V) as [Hin _].
  set (m := py_min _ _).
  assert (isfinite m = true) as Fm.
  { unfold m, py_min. destruct (ltb _ _); unfold finite in F;
      rewrite Forall_forall in F; apply F, Hin. }
  cbv zeta. set (un := shifted y m u). set (ln := shifted y m l).
  assert (len ln = len un) as L.
  { unfold un, ln. rewrite !shifted_len, <- !(length_column y), E. reflexivity. }
  assert (column y ln = column y un) as C.
  { unfold un, ln. rewrite !shifted_column, E. reflexivity. }
  rewrite L. destruct (Nat.ltb_spec (len un) (len un)); [lia|].
  rewrite Nat.min_id, <- L, (nansum_Permutation _ _ (sample_all ln y)), C.
  apply abs_sub_diag, nansum_finite, shifted_finite; assumption.
Qed.

Lemma pseudo_area_value_empty u l y :
  rows u = [] \/ rows l = [] -> pseudo_area_value choice u l y = of_Z 0.
Proof.
  intros H. unfold pseudo_area_value. cbv zeta.
  set (m := py_min _ _).
  assert (forall d, rows d = [] -> len (shifted y m d) = 0%nat) as Z.
  { intros d Hd. rewrite shifted_len, <- len_rows, Hd. reflexivity. }
  assert (forall d, len d = 0%nat -> column y d = []) as Cz.
  { intros d Hd. apply nil_length_inv. rewrite length_column. exact Hd. }
  assert (abs (sub (nansum []) (nansum [])) = of_Z 0) as R
    by (apply Num_ext; reflexivity).
  destruct (Nat.ltb_spec (len (shifted y m l)) (len (shifted y m u))) as [Lt|Ge].
  - destruct H as [H|H]; [rewrite (Z u H) in Lt; lia|].
    rewrite (Z l H), Nat.min_0_r, sample_none, (Cz _ (Z l H)). exact R.
  - assert (len (shifted y m u) = 0%nat) as Hu.
    { destruct H as [H|H]; [exact (Z u H)|]. rewrite (Z l H) in Ge. lia. }
    rewrite Hu, Nat.min_0_l, sample_none, (Cz _ Hu). exact R.
Qed.

End SamplingFacts.

Lemma choice_rev_sampler : sampler choice_rev.
Proof.
  intros N n H. unfold choice_rev. split; [|split].
  - rewrite reverse_Permutation. apply NoDup_seq.
  - rewrite length_reverse. apply length_seq.
  - apply Forall_reverse, Forall_forall. intros i Hi. apply elem_of_seq in Hi. lia.
Qed.

Lemma finite_has_valid y df : rows df <> [] -> finite (column y df) -> has_valid (column y df).
Proof.
  intros Hne F. unfold column in *. destruct (rows df) as [|r rs]; [congruence|].
  apply Forall_cons in F as [Hr _]. exists (at_col y r). split; [left|].
  destruct (at_col y r); simpl in *; congruence.
Qed.

(** C3 (as amended): for two non-empty branches with the value column and
    numeric (finite) values, and with the two sums taken exactly, the
    pseudo-area does not depend on the order of the two arguments, and it is
    0 when the two value columns are the same. *)
Theorem pseudo_area_symmetric choice (h : store) (lu ll : loc) (u l : DataFrame)
    (y : string) :
  sampler choice ->
  h !! lu = Some u -> h !! ll = Some l ->
  y ∈ columns u -> y ∈ columns l ->
  rows u <> [] -> rows l <> [] ->
  finite (column y u) -> finite (column y l) ->
  exists v h1 h2,
    compute_pseudo_area_random_sampling choice lu ll y h = Ok (v, h1) /\
    compute_pseudo_area_random_sampling choice ll lu y h = Ok (v, h2) /\
    (column y u = column y l -> v = of_Z 0).
Proof.
  intros S Hu Hl Yu Yl Nu Nl Fu Fl.
  pose proof (finite_has_valid y u Nu Fu) as Vu.
  pose proof (finite_has_valid y l Nl Fl) as Vl.
  destruct (pseudo_area_run choice h lu ll u l y Hu Hl Yu Yl) as (h1 & E1 & _).
  destruct (pseudo_area_run choice h ll lu l u y Hl Hu Yl Yu) as (h2 & E2 & _).
  exists (pseudo_area_value choice u l y), h1, h2.
  split; [exact E1|]. split.
  - rewrite (pseudo_area_value_comm choice S u l y Vu Vl). exact E2.
  - apply pseudo_area_value_same; assumption.
Qed.

Lemma pseudo_area_symmetric_witness :
  exists v h1 h2,
    compute_pseudo_area_random_sampling choice_rev 0%nat 1%nat "R"
      [frame ["H"; "R"] [0; 1; 2] [zs [0; 3]; zs [1; 5]; zs [2; 4]];
       frame ["H"; "R"] [0; 1] [zs [0; 2]; zs [1; 2]]] = Ok (v, h1) /\
    compute_pseudo_area_random_sampling choice_rev 1%nat 0%nat "R"
      [frame ["H"; "R"] [0; 1; 2] [zs [0; 3]; zs [1; 5]; zs [2; 4]];
       frame ["H"; "R"] [0; 1] [zs [0; 2]; zs [1; 2]]] = Ok (v, h2).
Proof.
  destruct (pseudo_area_symmetric choice_rev
              [frame ["H"; "R"] [0; 1; 2] [zs [0; 3]; zs [1; 5]; zs [2; 4]];
               frame ["H"; "R"] [0; 1] [zs [0; 2]; zs [1; 2]]]
              0%nat 1%nat _ _ "R" choice_rev_sampler eq_refl eq_refl)
    as (v & h1 & h2 & E1 & E2 & _).
  1-2: vm_compute; repeat constructor.
  1-2: vm_compute; discriminate.
  1-2: vm_compute; repeat constructor.
  exists v, h1, h2. split; assumption.
Defined.

(** C3 (counterexample): a branch whose values are all NaN makes the result
    depend on the order of the arguments: Python's [min(nan, 5.0)] is NaN and
    [min(5.0, nan)] is 5.0, so one order shifts every value to NaN and
    returns 0, the other returns 2.  And on binary64, for branches of the
    same size, the sum over the rows of one branch is taken in the order the
    sample puts them in: with a generator that reverses the rows, the
    pseudo-area of a branch with itself is 2, not 0, and swapping that branch
    with a branch of zeros changes the result. *)
Lemma pseudo_area_order_matters :
  (exists v1 v2 h1 h2,
     compute_pseudo_area_random_sampling choice_rev 0%nat 1%nat "R"
       [frame ["H"; "R"] [0; 1] [[of_Z 0; NaN]; [of_Z 1; NaN]];
        frame ["H"; "R"] [0; 1] [zs [0; 5]; zs [1; 7]]] = Ok (v1, h1) /\
     compute_pseudo_area_random_sampling choice_rev 1%nat 0%nat "R"
       [frame ["H"; "R"] [0; 1] [[of_Z 0; NaN]; [of_Z 1; NaN]];
        frame ["H"; "R"] [0; 1] [zs [0; 5]; zs [1; 7]]] = Ok (v2, h2) /\
     v1 = of_Z 0 /\ v2 = of_Z 2) /\
  Binary64.pseudo_area choice_rev [1e16; 1; 0; 1]%float [1e16; 1; 0; 1]%float
  = 2%float /\
  Binary64.pseudo_area choice_rev [1e16; 1; 0; 1]%float [0; 0; 0; 0]%float
  = 1e16%float /\
  Binary64.pseudo_area choice_rev [0; 0; 0; 0]%float [1e16; 1; 0; 1]%float
  = 10000000000000002%float.
Proof.
  split; [|vm_compute; repeat split; reflexivity].
  eexists _, _, _, _. split; [vm_compute; reflexivity|].
  split; [vm_compute; reflexivity|]. split; apply Num_ext; reflexivity.
Qed.

(** C7 (as amended): when one of the two branches is empty (and both have
    the value column), the pseudo-area returns 0: nothing is raised. *)
Theorem pseudo_area_empty_branch choice (h : store) (lu ll : loc) (u l : DataFrame)
    (y : string) :
  sampler choice ->
  h !! lu = Some u -> h !! ll = Some l ->
  y ∈ columns u -> y ∈ columns l ->
  rows u = [] \/ rows l = [] ->
  exists h', compute_pseudo_area_random_sampling choice lu ll y h = Ok (of_Z 0, h').
Proof.
  intros S Hu Hl Yu Yl E.
  destruct (pseudo_area_run choice h lu ll u l y Hu Hl Yu Yl) as (h' & R & _).
  exists h'. rewrite R, (pseudo_area_value_empty choice S u l y E). reflexivity.
Qed.

Lemma pseudo_area_empty_branch_witness :
  exists h',
    compute_pseudo_area_random_sampling choice_rev 0%nat 1%nat "R"
      [frame ["H"; "R"] [] [];
       frame ["H"; "R"] [0; 1] [zs [0; 2]; zs [1; 3]]] = Ok (of_Z 0, h').
Proof.
  apply (pseudo_area_empty_branch choice_rev
           [frame ["H"; "R"] [] [];
            frame ["H"; "R"] [0; 1] [zs [0; 2]; zs [1; 3]]]
           0%nat 1%nat _ _ "R" choice_rev_sampler eq_refl eq_refl).
  1-2: vm_compute; repeat constructor.
  left. reflexivity.
Defined.

(** C7 (counterexample): an empty upper branch against a branch of two
    samples.  Whatever the generator draws, the call returns 0 and so does
    not end in InvalidInputError. *)
Lemma pseudo_area_empty_returns :
  (forall choice, sampler choice ->
     exists h',
       compute_pseudo_area_random_sampling choice 0%nat 1%nat "R"
         [frame ["H"; "R"] [] [];
          frame ["H"; "R"] [0; 1] [zs [0; 2]; zs [1; 3]]] = Ok (of_Z 0, h')) /\
  compute_pseudo_area_random_sampling choice_rev 0%nat 1%nat "R"
    [frame ["H"; "R"] [] [];
     frame ["H"; "R"] [0; 1] [zs [0; 2]; zs [1; 3]]] <> Raise InvalidInputError.
Proof.
  split.
  - intros choice S.
    destruct (pseudo_area_run choice
                [frame ["H"; "R"] [] [];
                 frame ["H"; "R"] [0; 1] [zs [0; 2]; zs [1; 3]]]
                0%nat 1%nat _ _ "R" eq_refl eq_refl) as (h' & R & _).
    1-2: vm_compute; repeat constructor.
    exists h'. rewrite R, (pseudo_area_value_empty choice S) by (left; reflexivity).
    reflexivity.
  - vm_compute. discriminate.
Qed.

(** ** [compute_change_rate_stats] and [apply_moving_average] *)

Lemma assign_ok h l d c vals :
  h !! l = Some d -> assign l c vals h = Ok (tt, <[l := setitem d c vals]> h).
Proof.
  intros H. unfold assign. rewrite (bind_run _ _ _ _ _ (load_ok _ _ _ H)). reflexivity.
Qed.

(** After the call, the caller's frame is the frame it passed with the
    column "change_rate" assigned. *)
Lemma change_rate_stats_run h l d c :
  h !! l = Some d -> c ∈ columns d ->
  exists v,
    compute_change_rate_stats l c h
    = Ok (v, <[l := setitem d "change_rate" (pct_change (column c d))]> h).
Proof.
  intros H Hc. unfold compute_change_rate_stats.
  rewrite (bind_run _ _ _ _ _ (load_ok _ _ _ H)).
  destruct (getitem_values d c Hc) as (s & G & Gv & _).
  rewrite (bind_run _ _ _ _ _ (lift_ok _ _ _ G)).
  rewrite (bind_run _ _ _ _ _ (assign_ok _ _ _ _ _ H)). rewrite Gv.
  set (d' := setitem d _ _).
  assert ((<[l := d']> h) !! l = Some d') as H'.
  { apply list_lookup_insert_eq. eapply lookup_lt_Some, H. }
  rewrite (bind_run _ _ _ _ _ (load_ok _ _ _ H')).
  destruct (getitem_values d' "change_rate" (setitem_has_column _ _ _)) as (s' & G' & _).
  rewrite (bind_run _ _ _ _ _ (lift_ok _ _ _ G')). eexists. reflexivity.
Qed.

(** The moving average leaves every frame of the store as it was and
    returns a new one. *)
Lemma moving_average_run h l d c w :
  h !! l = Some d -> c ∈ columns d ->
  exists d', apply_moving_average l c w h = Ok (length h, h ++ [d']) /\
             columns d' = columns (setitem d (c +:+ "_MA") []).
Proof.
  intros H Hc. unfold apply_moving_average.
  rewrite (bind_run _ _ _ _ _ (copy_ok _ _ _ H)). cbv zeta.
  assert ((h ++ [d]) !! length h = Some d) as H'
    by (apply list_lookup_middle; reflexivity).
  rewrite (bind_run _ _ _ _ _ (load_ok _ _ _ H')).
  destruct (getitem_values d c Hc) as (s & G & Gv & _).
  rewrite (bind_run _ _ _ _ _ (lift_ok _ _ _ G)).
  rewrite (bind_run _ _ _ _ _ (assign_ok _ _ _ _ _ H')).
  eexists. split.
  - rewrite insert_app_r_alt by lia. rewrite Nat.sub_diag. reflexivity.
  - reflexivity.
Qed.

(** C5 (divergence): a caller's frame with the columns H and R, passed to
    [compute_change_rate_stats], has the columns H, R and change_rate when
    the call returns (the first change rate is NaN, the second is
    4/2 - 1 = 1). *)
Theorem change_rate_stats_adds_column (h : store) (l : loc) (d : DataFrame) (c : string) :
  h !! l = Some d -> c ∈ columns d -> "change_rate" ∉ columns d ->
  exists v h' d',
    compute_change_rate_stats l c h = Ok (v, h') /\
    h' !! l = Some d' /\
    columns d' = columns d ++ ["change_rate"] /\
    d' <> d.
Proof.
  intros H Hc Hn. destruct (change_rate_stats_run h l d c H Hc) as (v & R).
  eexists v, _, _. split; [exact R|]. split.
  { apply list_lookup_insert_eq. eapply lookup_lt_Some, H. }
  assert (columns (setitem d "change_rate" (pct_change (column c d)))
          = columns d ++ ["change_rate"]) as C.
  { unfold setitem. simpl. rewrite decide_False by assumption. reflexivity. }
  split; [exact C|]. intros E. rewrite E in C.
  apply (f_equal length) in C. rewrite length_app in C. simpl in C. lia.
Qed.

Lemma change_rate_stats_adds_column_witness :
  exists v h' d',
    compute_change_rate_stats 0%nat "R"
      [frame ["H"; "R"] [0; 1] [zs [0; 2]; zs [1; 4]]] = Ok (v, h') /\
    h' !! 0%nat = Some d' /\
    columns d' = ["H"; "R"; "change_rate"].
Proof.
  destruct (change_rate_stats_adds_column
              [frame ["H"; "R"] [0; 1] [zs [0; 2]; zs [1; 4]]] 0%nat _ "R" eq_refl)
    as (v & h' & d' & E & L & C & _).
  - vm_compute. repeat constructor.
  - apply (bool_decide_eq_false_1 _). vm_compute. reflexivity.
  - exists v, h', d'. split; [exact E|]. split; [exact L|exact C].
Defined.

Example change_rate_ex :
  match compute_change_rate_stats 0%nat "R"
          [frame ["H"; "R"] [0; 1; 2] [zs [0; 2]; zs [1; 4]; zs [2; 2]]] with
  | Ok ((m, v), [d]) =>
      eqb m (Num (Q2Qc (1 # 4))) && eqb v (Num (Q2Qc (9 # 8)))
      && bool_decide (columns d = ["H"; "R"; "change_rate"])
      && match column "change_rate" d with
         | [a; b; c] => isna a && eqb b (of_Z 1) && eqb c (Num (Q2Qc (-1 # 2)))
         | _ => false
         end
  | _ => false
  end = true.
Proof. vm_compute. reflexivity. Qed.

(** ** [compute_y_ratio] *)

Example py_round_ex :
  py_round (Q2Qc (1 # 2)) = 0 /\ py_round (Q2Qc (3 # 2)) = 2 /\
  py_round (Q2Qc (5 # 2)) = 2 /\ py_round (Q2Qc (7 # 4)) = 2 /\
  py_round (Q2Qc (-1 # 2)) = 0.
Proof. vm_compute. auto. Qed.

(** At fraction 1/2 of a grid of four points the index is [round(1.5) = 2];
    the denominator there is 0 after the shift and is replaced by 1e-10. *)
Example y_ratio_ex :
  match compute_y_ratio 0%nat 1%nat "H" "R" (Q2Qc (1 # 2))
          [frame ["H"; "R"] [0; 1; 2] [zs [0; 10]; zs [2; 12]; zs [4; 14]];
           frame ["H"; "R"] [0; 1] [zs [1; 9]; zs [2; 9]]] with
  | Ok (v, h) => eqb v (of_Z 30000000000) && bool_decide (length h = 6%nat)
  | Raise _ => false
  end = true.
Proof. vm_compute. reflexivity. Qed.

(** The program returns the guarded quotient of [y_ratio_operands] and
    leaves a store that extends the one it started from. *)
Lemma y_ratio_run (h : store) (l1 l2 : loc) (a b : DataFrame) (x y : string)
    (fraction : Qc) (n d : cell) :
  h !! l1 = Some a -> h !! l2 = Some b ->
  y_ratio_operands a b x y fraction = Ok (n, d) ->
  exists h',
    compute_y_ratio l1 l2 x y fraction h = Ok (ratio_guard n d, h') /\ extends h h'.
Proof.
  intros Ha Hb O. unfold y_ratio_operands in O.
  inv_bind O. destruct x0 as [f1 f2]. inv_bind O. inv_bind O. cbv zeta in O.
  inv_bind O. inv_bind O. injection O as <- <-.
  apply getitem_Ok in E0 as (Y1 & _ & V1). apply getitem_Ok in E1 as (Y2 & _ & V2).
  rewrite V1, V2 in *. set (y_min := py_min _ _) in *.
  unfold compute_y_ratio.
  rewrite (bind_run _ _ _ _ _ (copy_ok _ _ _ Ha)).
  assert ((h ++ [a]) !! l2 = Some b) as Hb' by (apply lookup_app_l_Some, Hb).
  rewrite (bind_run _ _ _ _ _ (copy_ok _ _ _ Hb')).
  rewrite <- (assoc_L (++)). simpl app.
  rewrite (bind_run _ _ _ _ _ (load_ok _ _ _ (lookup_suffix2_0 h a b))).
  assert (length (h ++ [a]) = S (length h)) as -> by (rewrite length_app; simpl; lia).
  rewrite (bind_run _ _ _ _ _ (load_ok _ _ _ (lookup_suffix2_1 h a b))).
  rewrite (bind_run _ _ _ _ _ (lift_ok _ _ _ E)).
  set (h0 := h ++ [a; b]).
  rewrite (bind_run _ _ _ _ _ (new_ok f1 h0)).
  rewrite (bind_run _ _ _ _ _ (new_ok f2 (h0 ++ [f1]))).
  rewrite <- (assoc_L (++)). simpl app.
  assert (length (h0 ++ [f1]) = S (length h0)) as -> by (rewrite length_app; simpl; lia).
  destruct (getitem_values f1 y Y1) as (s1 & G1 & Gv1 & _).
  destruct (getitem_values f2 y Y2) as (s2 & G2 & Gv2 & _).
  rewrite (bind_run _ _ _ _ _ (lift_ok _ _ _ G1)).
  rewrite (bind_run _ _ _ _ _ (lift_ok _ _ _ G2)).
  cbv zeta. rewrite Gv1, Gv2. fold y_min.
  rewrite (bind_run _ _ _ _ _
             (isub_ok _ _ _ y y_min (lookup_suffix2_0 h0 f1 f2) Y1)).
  rewrite insert_suffix2_0.
  rewrite (bind_run _ _ _ _ _
             (isub_ok _ _ _ y y_min (lookup_suffix2_1 h0 _ f2) Y2)).
  rewrite insert_suffix2_1.
  rewrite (bind_run _ _ _ _ _ (load_ok _ _ _ (lookup_suffix2_0 h0 _ _))).
  rewrite (bind_run _ _ _ _ _ (load_ok _ _ _ (lookup_suffix2_1 h0 _ _))).
  rewrite (bind_run _ _ _ _ _ (lift_ok _ _ _ E2)).
  rewrite (bind_run _ _ _ _ _ (lift_ok _ _ _ E3)).
  eexists. split; [reflexivity|].
  exists [a; b; shifted y y_min f1; shifted y y_min f2].
  unfold h0. rewrite <- (assoc_L (++)). reflexivity.
Qed.

(** *** The fractional index stays inside the frame *)

Lemma this_minus (a b : Qc) : (this (a - b)%Qc == this a - this b)%Q.
Proof.
  unfold Qcminus, Qcplus, Qcopp, Q2Qc. cbn [this].
  rewrite !Qred_correct. reflexivity.
Qed.

Lemma this_Q2Qc (q : Q) : (this (Q2Qc q) == q)%Q.
Proof. apply Qred_correct. Qed.

Lemma py_round_bounds (q : Qc) (m : Z) :
  (0 <= q)%Qc -> (q <= Q2Qc (inject_Z m))%Qc -> 0 <= py_round q <= m.
Proof.
  intros H0 Hm. unfold Qcle in H0, Hm.
  pose proof (this_Q2Qc 0) as Z0. pose proof (this_Q2Qc (inject_Z m)) as Zm.
  assert (0 <= this q)%Q as H0' by lra.
  assert (this q <= inject_Z m)%Q as Hm' by lra.
  clear H0 Hm.
  pose proof (Qfloor_resp_le _ _ H0') as F0. change (Qfloor 0) with 0 in F0.
  pose proof (Qfloor_resp_le _ _ Hm') as Fm. rewrite Qfloor_Z in Fm.
  assert ((q - Q2Qc (inject_Z (Qfloor q)) ?= Q2Qc (1 # 2))%Qc <> Lt ->
          Qfloor q + 1 <= m) as K.
  { intros C. destruct (Z.eq_dec (Qfloor q) m) as [E|E]; [|lia].
    exfalso. apply C. apply (proj1 (Qclt_alt _ _)). unfold Qclt. rewrite E.
    pose proof (this_minus q (Q2Qc (inject_Z m))) as E1.
    pose proof (this_Q2Qc (1 # 2)) as E3.
    lra. }
  unfold py_round. destruct (_ ?= _)%Qc eqn:C.
  - destruct (Z.even _); [lia|]. split; [lia|]. apply K. discriminate.
  - lia.
  - split; [lia|]. apply K. discriminate.
Qed.

Lemma Q2Qc_inject_nonneg (m : Z) : 0 <= m -> (0 <= Q2Qc (inject_Z m))%Qc.
Proof.
  intros H. unfold Qcle.
  pose proof (this_Q2Qc 0) as Z0. pose proof (this_Q2Qc (inject_Z m)) as Zm.
  assert (inject_Z 0 <= inject_Z m)%Q as I by (rewrite <- Zle_Qle; exact H).
  change (inject_Z 0) with 0%Q in I. lra.
Qed.

Lemma fraction_index_bounds (fraction : Qc) (df : DataFrame) :
  (0 <= fraction)%Qc -> (fraction <= 1)%Qc -> (0 < len df)%nat ->
  0 <= fraction_index fraction df < Z.of_nat (len df).
Proof.
  intros H0 H1 Hn. unfold fraction_index.
  set (m := Z.of_nat (len df) - 1).
  assert (0 <= m) as Hm by lia.
  pose proof (Q2Qc_inject_nonneg m Hm) as Hq.
  destruct (py_round_bounds (fraction * Q2Qc (inject_Z m))%Qc m); [| |lia].
  - apply Qcmult_nonneg_nonneg; assumption.
  - rewrite <- (Qcmult_1_l (Q2Qc (inject_Z m))) at 2.
    apply Qcmult_le_compat_r; assumption.
Qed.

Lemma iloc_at_in_range (df : DataFrame) (i : Z) (c : string) :
  0 <= i < Z.of_nat (len df) -> c ∈ columns df ->
  exists v, iloc_at df i c = Ok v /\ v ∈ column c df.
Proof.
  intros Hi Hc. unfold iloc_at.
  destruct (Z.ltb_spec i 0); [lia|].
  destruct (Z.leb_spec 0 i); [|lia].
  destruct (Z.ltb_spec i (Z.of_nat (len df))); [|lia]. simpl.
  destruct (rows df !! Z.to_nat i) as [r|] eqn:E.
  - rewrite decide_True by assumption. eexists. split; [reflexivity|].
    unfold column. apply list_elem_of_fmap. exists r. split; [reflexivity|].
    eapply list_elem_of_lookup_2, E.
  - apply lookup_ge_None in E. rewrite len_rows in E. lia.
Qed.

(** *** The fill pipeline invents no value *)

Section FillPreserves.

(** A property of cells that NaN has: the pipeline keeps it, since every
    value it writes is NaN or a value of its input. *)
Variable P : cell -> Prop.
Hypothesis P_NaN : P NaN.

Lemma valid_before_P (l : list cell) (i : nat) d v :
  Forall P l -> valid_before l i = Some (d, v) -> P v.
Proof.
  intros F. revert d. induction i as [|i IH]; intros d; simpl; [discriminate|].
  destruct (l !! i) as [w|] eqn:E.
  - destruct (isna w).
    + destruct (valid_before l i) as [[d' v']|]; simpl; [|discriminate].
      intros [= _ <-]. eapply IH. reflexivity.
    + intros [= _ <-]. rewrite Forall_forall in F. apply F.
      eapply list_elem_of_lookup_2, E.
  - destruct (valid_before l i) as [[d' v']|]; simpl; [|discriminate].
    intros [= _ <-]. eapply IH. reflexivity.
Qed.

Lemma valid_after_P (l : list cell) d v :
  Forall P l -> valid_after l = Some (d, v) -> P v.
Proof.
  intros F. revert d. induction F as [|w l Hw F IH]; intros d; simpl; [discriminate|].
  destruct (isna w).
  - destruct (valid_after l) as [[d' v']|]; simpl; [|discriminate].
    intros [= _ <-]. eapply IH. reflexivity.
  - intros [= _ <-]. exact Hw.
Qed.

Lemma interpolate_nearest_P (l : list cell) :
  Forall P l -> Forall P (interpolate_nearest l).
Proof.
  intros F. apply Forall_lookup_2. intros i x Hx.
  unfold interpolate_nearest in Hx. rewrite list_lookup_imap in Hx.
  destruct (l !! i) as [v|] eqn:E; [|discriminate]. simpl in Hx.
  injection Hx as <-.
  destruct (isna v).
  - destruct (valid_before l i) as [[dp vp]|] eqn:B; [|exact P_NaN].
    destruct (valid_after (drop (S i) l)) as [[dq vq]|] eqn:A; [|exact P_NaN].
    destruct (dp <=? dq)%nat.
    + eapply valid_before_P; eassumption.
    + eapply valid_after_P; [|exact A]. apply Forall_drop, F.
  - rewrite Forall_forall in F. apply F. eapply list_elem_of_lookup_2, E.
Qed.

Lemma ffill_from_P (c : cell) (l : list cell) :
  P c -> Forall P l -> Forall P (ffill_from c l).
Proof.
  intros Hc F. revert c Hc. induction F as [|v l Hv F IH]; intros c Hc; simpl.
  - constructor.
  - destruct (isna v); constructor; auto.
Qed.

Lemma fill_P (l : list cell) : Forall P l -> Forall P (bfill (ffill l)).
Proof.
  intros F. unfold bfill, ffill.
  apply Forall_reverse, ffill_from_P; [exact P_NaN|].
  apply Forall_reverse, ffill_from_P; [exact P_NaN|exact F].
Qed.

Lemma reindex_on_P x y grid df d :
  index_name_free x df ->
  reindex_on x grid df = Ok d ->
  Forall P (column y df) -> Forall P grid -> Forall P (column y d).
Proof.
  intros Free H Fy Fg. rewrite reindex_on_plain in H by exact Free. inv_bind H.
  cbv zeta in H.
  destruct (decide (values x0 = grid)).
  - injection H as <-. unfold column. rewrite reset_index_rows. exact Fy.
  - destruct (decide (NoDup (values x0))); [|discriminate].
    injection H as <-. unfold column. rewrite reset_index_rows. unfold rows. simpl.
    rewrite <- !list_fmap_compose. apply Forall_fmap.
    eapply Forall_impl; [exact Fg|]. intros g Hg. unfold compose. cbn [snd].
    destruct (decide (x = y)) as [->|N]; [rewrite at_col_insert; exact Hg|].
    rewrite at_col_insert_ne by assumption.
    unfold row_of_label. fold (rows df).
    destruct (list_find _ (rows df)) as [[i r]|] eqn:Fd; simpl; [|exact P_NaN].
    apply list_find_Some in Fd as (Hi & _).
    unfold column in Fy. rewrite Forall_fmap, Forall_forall in Fy.
    apply (Fy r). eapply list_elem_of_lookup_2, Hi.
Qed.

End FillPreserves.

(** What [interpolate_and_fill_df] returns, step by step. *)
Lemma interpolate_and_fill_df_Ok x y grid df d :
  interpolate_and_fill_df x y grid df = Ok d ->
  exists d0,
    reindex_on x grid df = Ok d0 /\ y ∈ columns d0 /\ y ∈ columns d /\
    len d = len d0 /\
    column y d = bfill (ffill (interpolate_nearest (column y d0))).
Proof.
  unfold interpolate_and_fill_df. intros H.
  inv_bind H. rename x0 into d0. inv_bind H.
  apply getitem_Ok in E0 as (Y0 & _ & V0). rewrite V0 in H.
  set (d1 := setitem d0 y _) in H. inv_bind H. injection H as <-.
  apply getitem_Ok in E0 as (Y1 & _ & V1). rewrite V1.
  assert (len d1 = len d0) as L1.
  { apply setitem_len. rewrite length_interpolate_nearest. apply length_column. }
  assert (column y d1 = interpolate_nearest (column y d0)) as C1.
  { apply setitem_column. rewrite length_interpolate_nearest. apply length_column. }
  assert (length (bfill (ffill (column y d1))) = len d1) as L2.
  { rewrite length_fill. apply length_column. }
  exists d0. split; [exact E|]. split; [exact Y0|].
  split; [apply setitem_has_column|]. split.
  - rewrite setitem_len by assumption. exact L1.
  - rewrite setitem_column by assumption. rewrite C1. reflexivity.
Qed.

(** *** The guarded ratio *)

Lemma finite_not_inf l : finite l -> Forall not_inf l.
Proof. intros F. eapply Forall_impl; [exact F|]. intros c H. right. exact H. Qed.

Lemma not_inf_no_nan_finite l : Forall not_inf l -> no_nan l -> finite l.
Proof.
  intros F N. unfold finite, no_nan in *. rewrite Forall_forall in *.
  intros c Hc. destruct (F c Hc) as [H|H]; [|exact H].
  rewrite (N c Hc) in H. discriminate.
Qed.

Lemma ratio_guard_small (n d : cell) :
  ltb (abs d) epsilon = true -> ratio_guard n d = div n epsilon.
Proof. intros H. unfold ratio_guard. rewrite H. reflexivity. Qed.

Lemma ratio_guard_finite (n d : cell) :
  isfinite n = true -> isfinite d = true -> isfinite (ratio_guard n d) = true.
Proof.
  destruct n as [| | |p], d as [| | |q]; try discriminate. intros _ _.
  unfold ratio_guard. destruct (ltb (abs (Num q)) epsilon) eqn:G.
  - reflexivity.
  - simpl. destruct (bool_decide (q = 0%Qc)) eqn:Z; [|reflexivity].
    apply bool_decide_eq_true in Z. subst q. vm_compute in G. discriminate.
Qed.

(** The aligned value column of a branch is finite when the branch and the
    grid are. *)
Lemma interpolate_and_fill_df_finite x y grid df d :
  index_name_free x df ->
  interpolate_and_fill_df x y grid df = Ok d ->
  finite (column y df) -> finite grid -> no_nan (column y d) ->
  finite (column y d).
Proof.
  intros Free H Fy Fg N.
  apply interpolate_and_fill_df_Ok in H as (d0 & R & _ & _ & _ & C).
  apply not_inf_no_nan_finite; [|exact N]. rewrite C.
  apply fill_P; [left; reflexivity|].
  apply interpolate_nearest_P; [left; reflexivity|].
  eapply (reindex_on_P not_inf); [left; reflexivity|exact Free|exact R| |];
    apply finite_not_inf; assumption.
Qed.

Lemma common_grid_finite xs1 xs2 :
  finite xs1 -> finite xs2 -> finite (common_grid xs1 xs2).
Proof.
  intros F1 F2. unfold finite in *. rewrite Forall_forall in *.
  intros g Hg. apply common_grid_elem in Hg as [Hg|Hg]; auto.
Qed.

Lemma series_min_finite l : l <> [] -> finite l -> isfinite (series_min l) = true.
Proof.
  intros Hne F.
  assert (has_valid l) as V.
  { destruct l as [|v l]; [congruence|]. exists v. split; [left|].
    apply Forall_cons in F as [Hv _]. destruct v; simpl in *; congruence. }
  destruct (series_min_elem l V) as [Hin _].
  unfold finite in F. rewrite Forall_forall in F. auto.
Qed.

(** The operands exist and are finite for two non-empty numeric branches
    with pairwise distinct field values. *)
Lemma y_ratio_operands_finite (a b : DataFrame) (x y : string) (fraction : Qc) :
  x ∈ columns a -> x ∈ columns b -> y ∈ columns a -> y ∈ columns b ->
  index_name_free x a -> index_name_free x b ->
  rows a <> [] -> rows b <> [] ->
  finite (column x a) -> finite (column x b) ->
  NoDup (column x a) -> NoDup (column x b) ->
  finite (column y a) -> finite (column y b) ->
  (0 <= fraction)%Qc -> (fraction <= 1)%Qc ->
  exists n d,
    y_ratio_operands a b x y fraction = Ok (n, d) /\
    isfinite n = true /\ isfinite d = true.
Proof.
  intros Xa Xb Ya Yb Ia Ib Ra Rb Fxa Fxb Da Db Fya Fyb F0 F1.
  unfold y_ratio_operands. rewrite interpolate_and_fill_unfold by assumption.
  set (grid := common_grid _ _).
  assert (finite grid) as Fg by (apply common_grid_finite; assumption).
  assert (0 < length grid)%nat as Lg.
  { assert (column x a <> []) as Hne
      by (unfold column; intros E; apply fmap_nil_inv in E; auto).
    destruct (column x a) as [|g gs] eqn:E; [congruence|].
    assert (g ∈ grid) as Hg by (apply common_grid_elem; left; left).
    destruct grid; [inversion Hg|simpl; lia]. }
  destruct (interpolate_and_fill_df_returns x y grid a) as (fa & Ea & La & Na); auto.
  destruct (interpolate_and_fill_df_returns x y grid b) as (fb & Eb & Lb & Nb); auto.
  assert (finite (column y fa)) as Ffa.
  { eapply (interpolate_and_fill_df_finite x y grid a fa Ia Ea); eauto. apply Na.
    - apply finite_no_nan, Fxa.
    - intros g Hg. apply common_grid_elem. auto.
    - apply finite_has_valid; assumption. }
  assert (finite (column y fb)) as Ffb.
  { eapply (interpolate_and_fill_df_finite x y grid b fb Ib Eb); eauto. apply Nb.
    - apply finite_no_nan, Fxb.
    - intros g Hg. apply common_grid_elem. auto.
    - apply finite_has_valid; assumption. }
  destruct (interpolate_and_fill_df_Ok _ _ _ _ _ Ea) as (_ & _ & _ & Yfa & _).
  destruct (interpolate_and_fill_df_Ok _ _ _ _ _ Eb) as (_ & _ & _ & Yfb & _).
  rewrite Ea. simpl. rewrite Eb. simpl.
  destruct (getitem_values fa y Yfa) as (s1 & -> & V1 & _). simpl.
  destruct (getitem_values fb y Yfb) as (s2 & -> & V2 & _). simpl.
  rewrite V1, V2. set (y_min := py_min _ _).
  assert (isfinite y_min = true) as Fm.
  { unfold y_min, py_min. destruct (ltb _ _); apply series_min_finite; try assumption;
      intros E; apply (f_equal length) in E; rewrite length_column in E; simpl in E; lia. }
  set (fa' := shifted y y_min fa). set (fb' := shifted y y_min fb).
  destruct (iloc_at_in_range fa' (fraction_index fraction fa') y) as (n & -> & Hn).
  { apply fraction_index_bounds; try assumption.
    unfold fa'. rewrite shifted_len. lia. }
  { unfold fa'. rewrite shifted_columns; assumption. }
  destruct (iloc_at_in_range fb' (fraction_index fraction fb') y) as (d & -> & Hd).
  { apply fraction_index_bounds; try assumption.
    unfold fb'. rewrite shifted_len. lia. }
  { unfold fb'. rewrite shifted_columns; assumption. }
  exists n, d. split; [reflexivity|].
  pose proof (shifted_finite y y_min fa Ffa Fm) as S1.
  pose proof (shifted_finite y y_min fb Ffb Fm) as S2.
  unfold finite in S1, S2. rewrite Forall_forall in S1, S2. auto.
Qed.

(** C4 (as amended): for two non-empty branches with the field and value
    columns present and no other column called "index", numeric values, and
    field values that are pairwise distinct within each branch, and for a
    fraction in [0, 1]: [y_ratio] returns, the caller's frames stay as they
    were, the result is a finite number (in exact arithmetic), and when the
    denominator before the guard is below 1e-10 in magnitude the result is
    the numerator divided by 1e-10. *)
Theorem y_ratio_returns_guarded (h : store) (l1 l2 : loc) (a b : DataFrame)
    (x y : string) (fraction : Qc) :
  h !! l1 = Some a -> h !! l2 = Some b ->
  x ∈ columns a -> x ∈ columns b -> y ∈ columns a -> y ∈ columns b ->
  index_name_free x a -> index_name_free x b ->
  rows a <> [] -> rows b <> [] ->
  finite (column x a) -> finite (column x b) ->
  NoDup (column x a) -> NoDup (column x b) ->
  finite (column y a) -> finite (column y b) ->
  (0 <= fraction)%Qc -> (fraction <= 1)%Qc ->
  exists n d h',
    y_ratio_operands a b x y fraction = Ok (n, d) /\
    compute_y_ratio l1 l2 x y fraction h = Ok (ratio_guard n d, h') /\
    extends h h' /\
    isfinite (ratio_guard n d) = true /\
    (ltb (abs d) epsilon = true -> ratio_guard n d = div n epsilon).
Proof.
  intros Ha Hb Xa Xb Ya Yb Ia Ib Ra Rb Fxa Fxb Da Db Fya Fyb F0 F1.
  destruct (y_ratio_operands_finite a b x y fraction) as (n & d & O & Fn & Fd);
    try assumption.
  destruct (y_ratio_run h l1 l2 a b x y fraction n d Ha Hb O) as (h' & R & E).
  exists n, d, h'. split; [exact O|]. split; [exact R|]. split; [exact E|].
  split; [apply ratio_guard_finite; assumption|apply ratio_guard_small].
Qed.

Lemma y_ratio_returns_guarded_witness :
  exists n d h',
    y_ratio_operands
      (frame ["H"; "R"] [0; 1; 2] [zs [0; 10]; zs [2; 12]; zs [4; 14]])
      (frame ["H"; "R"] [0; 1] [zs [1; 9]; zs [2; 9]]) "H" "R" (Q2Qc (1 # 2))
    = Ok (n, d) /\
    compute_y_ratio 0%nat 1%nat "H" "R" (Q2Qc (1 # 2))
      [frame ["H"; "R"] [0; 1; 2] [zs [0; 10]; zs [2; 12]; zs [4; 14]];
       frame ["H"; "R"] [0; 1] [zs [1; 9]; zs [2; 9]]]
    = Ok (ratio_guard n d, h').
Proof.
  destruct (y_ratio_returns_guarded
              [frame ["H"; "R"] [0; 1; 2] [zs [0; 10]; zs [2; 12]; zs [4; 14]];
               frame ["H"; "R"] [0; 1] [zs [1; 9]; zs [2; 9]]]
              0%nat 1%nat _ _ "H" "R" (Q2Qc (1 # 2)) eq_refl eq_refl)
    as (n & d & h' & O & R & _).
  1-4: vm_compute; repeat constructor.
  1-2: apply (bool_decide_unpack _); vm_compute; exact I.
  1-2: vm_compute; discriminate.
  1-2: vm_compute; repeat constructor.
  1-2: apply (bool_decide_unpack _); vm_compute; exact I.
  1-2: vm_compute; repeat constructor.
  1-2: vm_compute; discriminate.
  exists n, d, h'. split; assumption.
Defined.

(** C4 (counterexample): a branch in which the field value 1 occurs twice
    makes [y_ratio] raise (ValueError, from the alignment); and on doubles a
    finite numerator over the substituted 1e-10 overflows: with the shifted
    values 1e300 and 0 the result is +infinity. *)
Lemma y_ratio_raises_or_overflows :
  compute_y_ratio 0%nat 1%nat "H" "R" (Q2Qc (1 # 2))
    [frame ["H"; "R"] [0; 1; 2] [zs [0; 10]; zs [1; 11]; zs [1; 12]];
     frame ["H"; "R"] [0; 1] [zs [0; 20]; zs [2; 22]]]
  = Raise ValueError /\
  Binary64.ratio_guard Binary64.big 0%float = infinity /\
  PrimFloat.ltb (PrimFloat.abs Binary64.big) infinity = true.
Proof. vm_compute. repeat split; reflexivity. Qed.

(** * Part III: further properties of the code *)

(** ** The split *)

Lemma split_partitions_witness :
  rows (frame ["H"; "R"] [0; 1; 2] [zs [0; 1]; zs [1; 3]; zs [2; 5]])
  ++ rows (frame ["H"; "R"] [0; 1] [zs [1; 3]; zs [2; 5]])
  ≡ₚ rows (frame ["H"; "R"] [0; 1; 2; 3; 4]
             [zs [2; 5]; zs [1; 3]; zs [0; 1]; zs [1; 3]; zs [2; 5]]).
Proof.
  destruct (split_partitions
              (frame ["H"; "R"] [0; 1; 2; 3; 4]
                 [zs [2; 5]; zs [1; 3]; zs [0; 1]; zs [1; 3]; zs [2; 5]]) "H"
              (frame ["H"; "R"] [0; 1; 2] [zs [0; 1]; zs [1; 3]; zs [2; 5]])
              (frame ["H"; "R"] [0; 1] [zs [1; 3]; zs [2; 5]])) as (P & _).
  - vm_compute. reflexivity.
  - exact P.
Defined.

Lemma split_at_first_minimum_witness :
  exists p v d1 d2,
    split_dataframe_at_turning_point
      (frame ["H"; "R"] [0; 1; 2; 3; 4]
         [zs [2; 5]; zs [1; 3]; zs [0; 1]; zs [1; 3]; zs [2; 5]]) "H" = Ok (d1, d2) /\
    column "H" (frame ["H"; "R"] [0; 1; 2; 3; 4]
         [zs [2; 5]; zs [1; 3]; zs [0; 1]; zs [1; 3]; zs [2; 5]]) !! p = Some v.
Proof.
  destruct (split_at_first_minimum
              (frame ["H"; "R"] [0; 1; 2; 3; 4]
                 [zs [2; 5]; zs [1; 3]; zs [0; 1]; zs [1; 3]; zs [2; 5]]) "H")
    as (p & v & d1 & d2 & E & L & _).
  - vm_compute. repeat constructor.
  - vm_compute. discriminate.
  - vm_compute. repeat constructor.
  - vm_compute. reflexivity.
  - exists p, v, d1, d2. split; assumption.
Defined.

Lemma nanargmin_Some (l : list cell) :
  has_valid l -> exists p, nanargmin l = Some p /\ (p < length l)%nat.
Proof.
  intros (v & Hv & Hn). unfold nanargmin.
  assert (forallb isna l = false) as ->.
  { apply not_true_is_false. intros F. rewrite forallb_forall in F.
    apply list_elem_of_In in Hv. rewrite (F v Hv) in Hn. discriminate. }
  set (l' := (fun v => if isna v then PInf else v) <$> l).
  assert (no_nan l') as N.
  { unfold l', no_nan. apply Forall_fmap, Forall_forall. intros x _. simpl.
    destruct (isna x) eqn:E; [reflexivity|exact E]. }
  assert (l' <> []) as Hne.
  { unfold l'. intros E. apply fmap_nil_inv in E. subst. inversion Hv. }
  destruct (argmin_spec l' Hne N) as (w & Hw & _).
  exists (argmin l'). split; [reflexivity|].
  apply lookup_lt_Some in Hw. unfold l' in Hw. rewrite length_fmap in Hw. exact Hw.
Qed.

Lemma nanargmin_has_valid (l : list cell) p : nanargmin l = Some p -> has_valid l.
Proof.
  unfold nanargmin. destruct (forallb isna l) eqn:F; [discriminate|]. intros _.
  induction l as [|x l IH]; [discriminate|]. simpl in F.
  destruct (isna x) eqn:E.
  - destruct (IH F) as (v & Hv & Hn). exists v. split; [right; exact Hv|exact Hn].
  - exists x. split; [left|exact E].
Qed.

(** X3: the split returns exactly on the curves that have the field column
    with at least one value in it that is not NaN; on every other curve it
    raises. *)
Theorem split_returns_iff (df : DataFrame) (c : string) :
  returns (split_dataframe_at_turning_point df c) <->
  c ∈ columns df /\ has_valid (column c df).
Proof.
  split.
  - intros [[d1 d2] H]. unfold split_dataframe_at_turning_point in H.
    inv_bind H. apply getitem_Ok in E as (Hc & _ & Gv). split; [exact Hc|].
    inv_bind H. destruct x0 as [t|]; [|discriminate].
    assert (x <> []) as Hx by (intros ->; discriminate).
    rewrite idxmin_nonempty in E by assumption. injection E as E.
    rewrite Gv in E. destruct (nanargmin (column c df)) as [p|] eqn:A; [|discriminate].
    eapply nanargmin_has_valid, A.
  - intros [Hc V]. unfold split_dataframe_at_turning_point.
    destruct (getitem_values df c Hc) as (s & -> & Gv & Gi). simpl.
    destruct (nanargmin_Some _ V) as (p & A & Hp).
    rewrite length_column in Hp.
    assert (s <> []) as Hs.
    { intros ->. simpl in Gv. destruct V as (v & Hv & _). rewrite <- Gv in Hv.
      inversion Hv. }
    rewrite idxmin_nonempty by assumption. rewrite Gv, A. simpl.
    assert (p < length s.*1)%nat as Hp'.
    { rewrite Gi. unfold index. rewrite length_fmap. exact Hp. }
    destruct (lookup_lt_is_Some_2 _ _ Hp') as [t ->]. simpl.
    destruct (sort_reset_returns (iloc_to (t + 1) df) c Hc) as [d1 ->].
    destruct (sort_reset_returns (iloc_from (t + 1) df) c Hc) as [d2 ->].
    simpl. eexists. reflexivity.
Qed.

(** ** The merge *)

#[global] Instance sort_le_antisymm : AntiSymm eq sort_le.
Proof. intros a b. apply sort_le_antisym. Qed.

Lemma ascending_column c df : ascending c df -> Sorted sort_le (column c df).
Proof.
  unfold ascending, column. apply (Sorted_fmap (at_col c) (row_le c) sort_le). auto.
Qed.

(** X4: the order of the two arguments of the merge does not matter for the
    result up to the order of rows with equal keys: both orders return, hold
    the same rows, and have the same "H_kOe" column. *)
Theorem merge_order_insensitive (a b : DataFrame) :
  "H_kOe" ∈ columns a \/ "H_kOe" ∈ columns b ->
  exists m1 m2,
    merge_dataframes a b = Ok m1 /\ merge_dataframes b a = Ok m2 /\
    rows m1 ≡ₚ rows m2 /\
    column "H_kOe" m1 = column "H_kOe" m2.
Proof.
  intros H.
  assert ("H_kOe" ∈ columns (concat a b)) as H1 by (apply concat_columns; tauto).
  assert ("H_kOe" ∈ columns (concat b a)) as H2 by (apply concat_columns; tauto).
  destruct (sort_reset_returns _ _ H1) as [m1 E1].
  destruct (sort_reset_returns _ _ H2) as [m2 E2].
  exists m1, m2. split; [exact E1|]. split; [exact E2|].
  apply sort_reset_spec in E1 as (_ & P1 & _ & A1 & _).
  apply sort_reset_spec in E2 as (_ & P2 & _ & A2 & _).
  rewrite concat_rows in P1, P2.
  assert (rows m1 ≡ₚ rows m2) as P.
  { rewrite P1, P2. apply Permutation_app_comm. }
  split; [exact P|].
  apply (Sorted_unique sort_le); try apply ascending_column; try assumption.
  unfold column. apply fmap_Permutation, P.
Qed.

Lemma merge_order_insensitive_witness :
  exists m1 m2,
    merge_dataframes (frame ["H_kOe"; "R"] [0; 1] [zs [1; 3]; zs [0; 1]])
                     (frame ["H_kOe"; "R"] [0; 1] [zs [1; 4]; zs [2; 5]]) = Ok m1 /\
    merge_dataframes (frame ["H_kOe"; "R"] [0; 1] [zs [1; 4]; zs [2; 5]])
                     (frame ["H_kOe"; "R"] [0; 1] [zs [1; 3]; zs [0; 1]]) = Ok m2 /\
    column "H_kOe" m1 = column "H_kOe" m2.
Proof.
  destruct (merge_order_insensitive
              (frame ["H_kOe"; "R"] [0; 1] [zs [1; 3]; zs [0; 1]])
              (frame ["H_kOe"; "R"] [0; 1] [zs [1; 4]; zs [2; 5]]))
    as (m1 & m2 & E1 & E2 & _ & C).
  - left. vm_compute. repeat constructor.
  - exists m1, m2. repeat split; assumption.
Defined.

(** ** The alignment *)

Lemma setitem_index df c vals :
  length vals = len df -> index (setitem df c vals) = index df.
Proof.
  unfold index, len, setitem. simpl. generalize (body df) as b.
  induction vals as [|v vals IH]; intros [|[i r] b] L; simpl in *; try congruence.
  f_equal. apply IH. lia.
Qed.

Lemma setitem_column_ne df c c' vals :
  c <> c' -> length vals = len df -> column c' (setitem df c vals) = column c' df.
Proof.
  intros N. unfold column, rows, len, setitem. simpl. generalize (body df) as b.
  induction vals as [|v vals IH]; intros [|[i r] b] L; simpl in *; try congruence.
  rewrite at_col_insert_ne by assumption. f_equal. apply IH. lia.
Qed.

Lemma setitem_fresh df c vals :
  length vals = len df -> fresh_index df -> fresh_index (setitem df c vals).
Proof.
  intros L F. unfold fresh_index. rewrite setitem_index, setitem_len by assumption.
  exact F.
Qed.

(** What [reindex_on] returns: the field column is the grid, the index is
    fresh, and a row of the input is found at the grid position of its
    label. *)
Lemma reindex_on_Ok x grid df d0 :
  index_name_free x df ->
  reindex_on x grid df = Ok d0 ->
  (forall g, g ∈ column x df -> g ∈ grid) ->
  column x d0 = grid /\ fresh_index d0 /\
  (forall y r, x <> y -> r ∈ rows df ->
     exists k, grid !! k = Some (at_col x r) /\
               column y d0 !! k = Some (at_col y r)).
Proof.
  intros Free H Sub. rewrite reindex_on_plain in H by exact Free. inv_bind H.
  cbv zeta in H.
  apply getitem_Ok in E as (Hx & _ & Gv). rewrite Gv in H.
  destruct (decide (column x df = grid)) as [Eg|NE].
  - injection H as <-. split; [|split; [apply reset_index_fresh|]].
    + unfold column. rewrite reset_index_rows. exact Eg.
    + intros y r _ Hr. apply list_elem_of_lookup in Hr as [k Hk]. exists k.
      unfold column. rewrite reset_index_rows. rewrite <- Eg. unfold column.
      unfold rows in *. simpl.
      split; rewrite list_lookup_fmap, Hk; reflexivity.
  - destruct (decide (NoDup (column x df))) as [Hnd|]; [|discriminate].
    injection H as <-. split; [|split; [apply reset_index_fresh|]].
    + unfold column. rewrite reset_index_rows. unfold rows. simpl.
      rewrite <- !list_fmap_compose. rewrite <- (list_fmap_id grid) at 2.
      apply list_fmap_ext. intros _ g _. unfold compose. cbn [snd].
      apply at_col_insert.
    + intros y r Nxy Hr. set (g := at_col x r).
      assert (g ∈ grid) as Hg by (apply Sub, list_elem_of_fmap; eauto).
      apply list_elem_of_lookup in Hg as [k Hk]. exists k. split; [exact Hk|].
      assert (row_of_label x g (rows df) = Some r) as Hrow.
      { unfold row_of_label.
        destruct (list_find_elem_of (fun r' => at_col x r' = g) (rows df) r Hr eq_refl)
          as [[i r'] Hf].
        rewrite Hf. simpl. f_equal.
        apply list_find_Some in Hf as (Hi & Hg' & _).
        apply list_elem_of_lookup in Hr as [j Hj].
        assert (i = j) as ->; [|congruence].
        apply (NoDup_lookup (column x df) i j g Hnd); unfold column;
          rewrite list_lookup_fmap; [rewrite Hi|rewrite Hj]; simpl.
        all: try (f_equal; assumption). all: reflexivity. }
      unfold column. rewrite reset_index_rows. unfold rows. simpl.
      rewrite <- !list_fmap_compose, list_lookup_fmap, Hk. simpl.
      fold (rows df). rewrite Hrow. simpl.
      rewrite at_col_insert_ne by assumption. reflexivity.
Qed.

Lemma ffill_from_keeps c l k v :
  l !! k = Some v -> isna v = false -> ffill_from c l !! k = Some v.
Proof.
  revert c k. induction l as [|w l IH]; intros c k; [discriminate|].
  destruct k as [|k]; simpl.
  - intros [= ->] Hn. rewrite Hn. reflexivity.
  - intros Hk Hn. destruct (isna w); simpl; apply IH; assumption.
Qed.

(** Interpolation and filling leave a defined sample where it is. *)
Lemma fill_keeps l k v :
  l !! k = Some v -> isna v = false ->
  bfill (ffill (interpolate_nearest l)) !! k = Some v.
Proof.
  intros Hk Hn.
  assert (interpolate_nearest l !! k = Some v) as H1.
  { unfold interpolate_nearest. rewrite list_lookup_imap, Hk. simpl. rewrite Hn.
    reflexivity. }
  assert (ffill (interpolate_nearest l) !! k = Some v) as H2
    by (apply ffill_from_keeps; assumption).
  set (m := ffill (interpolate_nearest l)) in *.
  assert (k < length m)%nat as Lk by (eapply lookup_lt_Some, H2).
  unfold bfill. apply reverse_lookup_Some. split.
  - unfold ffill. rewrite length_ffill_from, length_reverse.
    apply ffill_from_keeps; [|exact Hn].
    apply reverse_lookup_Some. split; [|lia].
    replace (length m - S (length m - S k))%nat with k by lia. exact H2.
  - unfold ffill. rewrite length_ffill_from, length_reverse. exact Lk.
Qed.

(** What [interpolate_and_fill_df] returns for a value column other than
    the field column. *)
Lemma interpolate_and_fill_df_grid x y grid df d :
  index_name_free x df ->
  x <> y ->
  interpolate_and_fill_df x y grid df = Ok d ->
  (forall g, g ∈ column x df -> g ∈ grid) ->
  column x d = grid /\ fresh_index d /\
  (forall r, r ∈ rows df -> isna (at_col y r) = false ->
     exists k, column x d !! k = Some (at_col x r) /\
               column y d !! k = Some (at_col y r)).
Proof.
  intros Free Nxy H Sub. pose proof H as H'.
  apply interpolate_and_fill_df_Ok in H' as (d0 & R & Y0 & _ & L & C).
  destruct (reindex_on_Ok x grid df d0 Free R Sub) as (Cx & F0 & Look).
  unfold interpolate_and_fill_df in H. rewrite R in H. simpl in H.
  destruct (getitem_values d0 y Y0) as (s & G & Gv & _). rewrite G in H. simpl in H.
  rewrite Gv in H. set (d1 := setitem d0 y _) in H.
  assert (length (interpolate_nearest (column y d0)) = len d0) as L1
    by (rewrite length_interpolate_nearest; apply length_column).
  destruct (getitem_values d1 y (setitem_has_column _ _ _)) as (s1 & G1 & Gv1 & _).
  rewrite G1 in H. simpl in H. injection H as <-. rewrite Gv1.
  assert (length (bfill (ffill (column y d1))) = len d1) as L2
    by (rewrite length_fill; apply length_column).
  assert (column x (setitem d1 y (bfill (ffill (column y d1)))) = grid) as Cxd.
  { rewrite setitem_column_ne by (auto using not_eq_sym).
    unfold d1. rewrite setitem_column_ne by (auto using not_eq_sym). exact Cx. }
  split; [exact Cxd|]. split.
  - apply setitem_fresh; [exact L2|]. apply setitem_fresh; assumption.
  - intros r Hr Hn. destruct (Look y r Nxy Hr) as (k & Hk & Hy). exists k.
    rewrite Cxd. split; [exact Hk|].
    rewrite setitem_column by exact L2.
    unfold d1. rewrite setitem_column by exact L1.
    apply fill_keeps; assumption.
Qed.

(** X5: the two aligned branches lie on one grid.  For branches with the
    field and value columns (two different columns) and no other column
    called "index", whose field values are defined and pairwise distinct
    within each branch, both outputs have the same field column: ascending,
    without repetition, holding exactly the field values of the two inputs;
    and both have a fresh index. *)
Theorem align_on_common_grid (a b : DataFrame) (x y : string) :
  x ∈ columns a -> x ∈ columns b -> y ∈ columns a -> y ∈ columns b -> x <> y ->
  index_name_free x a -> index_name_free x b ->
  no_nan (column x a) -> no_nan (column x b) ->
  NoDup (column x a) -> NoDup (column x b) ->
  exists fa fb,
    interpolate_and_fill a b x y = Ok (fa, fb) /\
    column x fa = column x fb /\
    Sorted sort_le (column x fa) /\ NoDup (column x fa) /\
    (forall g, g ∈ column x fa <-> g ∈ column x a \/ g ∈ column x b) /\
    fresh_index fa /\ fresh_index fb.
Proof.
  intros Xa Xb Ya Yb Nxy Ia Ib _ _ Da Db.
  rewrite interpolate_and_fill_unfold by assumption.
  set (grid := common_grid _ _).
  destruct (interpolate_and_fill_df_returns x y grid a) as (fa & Ea & _); auto.
  destruct (interpolate_and_fill_df_returns x y grid b) as (fb & Eb & _); auto.
  rewrite Ea. simpl. rewrite Eb. simpl. exists fa, fb. split; [reflexivity|].
  destruct (interpolate_and_fill_df_grid x y grid a fa Ia Nxy Ea) as (Ca & Fa & _).
  { intros g Hg. apply common_grid_elem. auto. }
  destruct (interpolate_and_fill_df_grid x y grid b fb Ib Nxy Eb) as (Cb & Fb & _).
  { intros g Hg. apply common_grid_elem. auto. }
  rewrite Ca, Cb. split; [reflexivity|].
  split; [apply common_grid_ascending|]. split; [apply common_grid_NoDup|].
  split; [intros g; apply common_grid_elem|]. split; assumption.
Qed.

Lemma align_on_common_grid_witness :
  exists fa fb,
    interpolate_and_fill
      (frame ["H"; "R"] [0; 1; 2] [zs [0; 10]; zs [2; 12]; zs [4; 14]])
      (frame ["H"; "R"] [0; 1] [zs [1; 21]; zs [2; 22]]) "H" "R" = Ok (fa, fb) /\
    column "H" fa = column "H" fb.
Proof.
  destruct (align_on_common_grid
              (frame ["H"; "R"] [0; 1; 2] [zs [0; 10]; zs [2; 12]; zs [4; 14]])
              (frame ["H"; "R"] [0; 1] [zs [1; 21]; zs [2; 22]]) "H" "R")
    as (fa & fb & E & C & _).
  1-4: vm_compute; repeat constructor.
  1: discriminate.
  1-2: apply (bool_decide_unpack _); vm_compute; exact I.
  1-2: vm_compute; repeat constructor.
  1-2: apply (bool_decide_unpack _); vm_compute; exact I.
  exists fa, fb. split; assumption.
Defined.

(** X6: the alignment keeps the samples it was given.  Under the conditions
    of X5, every sample of the first branch whose value is defined is found
    in the first output, at its own field value and with its own value; the
    same holds for the second branch. *)
Theorem align_keeps_samples (a b : DataFrame) (x y : string) :
  x ∈ columns a -> x ∈ columns b -> y ∈ columns a -> y ∈ columns b -> x <> y ->
  index_name_free x a -> index_name_free x b ->
  no_nan (column x a) -> no_nan (column x b) ->
  NoDup (column x a) -> NoDup (column x b) ->
  exists fa fb,
    interpolate_and_fill a b x y = Ok (fa, fb) /\
    (forall r, r ∈ rows a -> isna (at_col y r) = false ->
       exists k, column x fa !! k = Some (at_col x r) /\
                 column y fa !! k = Some (at_col y r)) /\
    (forall r, r ∈ rows b -> isna (at_col y r) = false ->
       exists k, column x fb !! k = Some (at_col x r) /\
                 column y fb !! k = Some (at_col y r)).
Proof.
  intros Xa Xb Ya Yb Nxy Ia Ib _ _ Da Db.
  rewrite interpolate_and_fill_unfold by assumption.
  set (grid := common_grid _ _).
  destruct (interpolate_and_fill_df_returns x y grid a) as (fa & Ea & _); auto.
  destruct (interpolate_and_fill_df_returns x y grid b) as (fb & Eb & _); auto.
  rewrite Ea. simpl. rewrite Eb. simpl. exists fa, fb. split; [reflexivity|].
  destruct (interpolate_and_fill_df_grid x y grid a fa Ia Nxy Ea) as (_ & _ & Ka).
  { intros g Hg. apply common_grid_elem. auto. }
  destruct (interpolate_and_fill_df_grid x y grid b fb Ib Nxy Eb) as (_ & _ & Kb).
  { intros g Hg. apply common_grid_elem. auto. }
  split; assumption.
Qed.

Lemma align_keeps_samples_witness :
  exists fa fb,
    interpolate_and_fill
      (frame ["H"; "R"] [0; 1; 2] [zs [0; 10]; zs [2; 12]; zs [4; 14]])
      (frame ["H"; "R"] [0; 1] [zs [1; 21]; zs [2; 22]]) "H" "R" = Ok (fa, fb).
Proof.
  destruct (align_keeps_samples
              (frame ["H"; "R"] [0; 1; 2] [zs [0; 10]; zs [2; 12]; zs [4; 14]])
              (frame ["H"; "R"] [0; 1] [zs [1; 21]; zs [2; 22]]) "H" "R")
    as (fa & fb & E & _).
  1-4: vm_compute; repeat constructor.
  1: discriminate.
  1-2: apply (bool_decide_unpack _); vm_compute; exact I.
  1-2: vm_compute; repeat constructor.
  1-2: apply (bool_decide_unpack _); vm_compute; exact I.
  exists fa, fb. exact E.
Defined.

(** ** The pseudo-area and the change rate *)

Lemma abs_not_negative (a : cell) : ltb (abs a) (of_Z 0) = false.
Proof.
  destruct a as [| | |x]; try reflexivity.
  destruct (ltb (abs (Num x)) (of_Z 0)) eqn:L; [|reflexivity].
  apply ltb_Num in L. exfalso.
  exact (Qclt_not_le _ _ L (Qcabs_nonneg x)).
Qed.

(** X7: the pseudo-area leaves every frame of the caller as it was (it
    works on copies) and its result is never negative: it is an absolute
    value, or NaN. *)
Theorem pseudo_area_pure_nonneg choice (h : store) (lu ll : loc) (u l : DataFrame)
    (y : string) :
  h !! lu = Some u -> h !! ll = Some l -> y ∈ columns u -> y ∈ columns l ->
  exists v h',
    compute_pseudo_area_random_sampling choice lu ll y h = Ok (v, h') /\
    extends h h' /\ ltb v (of_Z 0) = false.
Proof.
  intros Hu Hl Yu Yl.
  destruct (pseudo_area_run choice h lu ll u l y Hu Hl Yu Yl) as (h' & R & E).
  eexists _, h'. split; [exact R|]. split; [exact E|].
  unfold pseudo_area_value. cbv zeta. destruct (_ <? _)%nat; apply abs_not_negative.
Qed.

Lemma pseudo_area_pure_nonneg_witness :
  exists v h',
    compute_pseudo_area_random_sampling choice_rev 0%nat 1%nat "R"
      [frame ["H"; "R"] [0; 1; 2] [zs [0; 3]; zs [1; 5]; zs [2; 4]];
       frame ["H"; "R"] [0; 1] [zs [0; 2]; zs [1; 2]]] = Ok (v, h') /\
    ltb v (of_Z 0) = false.
Proof.
  destruct (pseudo_area_pure_nonneg choice_rev
              [frame ["H"; "R"] [0; 1; 2] [zs [0; 3]; zs [1; 5]; zs [2; 4]];
               frame ["H"; "R"] [0; 1] [zs [0; 2]; zs [1; 2]]]
              0%nat 1%nat _ _ "R" eq_refl eq_refl) as (v & h' & E & _ & N).
  1-2: vm_compute; repeat constructor.
  exists v, h'. split; assumption.
Defined.

Lemma length_pct_change l : length (pct_change l) = length l.
Proof.
  unfold pct_change. pose proof (length_ffill_from NaN l) as L. fold (ffill l) in L.
  destruct (ffill l) as [|v data]; [simpl in *; lia|].
  simpl. rewrite length_zip_with. simpl in *. lia.
Qed.

(** The result and the store of [compute_change_rate_stats]. *)
Lemma change_rate_stats_value h l d c :
  h !! l = Some d -> c ∈ columns d ->
  compute_change_rate_stats l c h
  = Ok ((series_mean (pct_change (column c d)), series_var (pct_change (column c d))),
        <[l := setitem d "change_rate" (pct_change (column c d))]> h).
Proof.
  intros H Hc. unfold compute_change_rate_stats.
  rewrite (bind_run _ _ _ _ _ (load_ok _ _ _ H)).
  destruct (getitem_values d c Hc) as (s & G & Gv & _).
  rewrite (bind_run _ _ _ _ _ (lift_ok _ _ _ G)).
  rewrite (bind_run _ _ _ _ _ (assign_ok _ _ _ _ _ H)). rewrite Gv.
  set (d' := setitem d _ _).
  assert ((<[l := d']> h) !! l = Some d') as H'.
  { apply list_lookup_insert_eq. eapply lookup_lt_Some, H. }
  rewrite (bind_run _ _ _ _ _ (load_ok _ _ _ H')).
  destruct (getitem_values d' "change_rate" (setitem_has_column _ _ _)) as (s' & G' & Gv' & _).
  rewrite (bind_run _ _ _ _ _ (lift_ok _ _ _ G')). cbv zeta. rewrite Gv'.
  unfold d'. rewrite setitem_column by (rewrite length_pct_change; apply length_column).
  reflexivity.
Qed.

Lemma pct_change_valid_count l :
  (length (filter (fun v => isna v = false) (pct_change l)) <= length l - 1)%nat.
Proof.
  pose proof (length_pct_change l) as L. unfold pct_change in *.
  destruct (ffill l) as [|v data]; [apply Nat.le_0_l|].
  rewrite filter_cons_False by (simpl; discriminate).
  etransitivity; [apply length_filter|]. simpl in *. lia.
Qed.

(** X8: with fewer than three samples there are fewer than two change
    rates, and the variance returned is NaN; with fewer than two samples the
    mean is NaN as well.  Nothing is raised. *)
Theorem change_rate_stats_short (h : store) (l : loc) (d : DataFrame) (c : string) :
  h !! l = Some d -> c ∈ columns d -> (len d <= 2)%nat ->
  exists m h',
    compute_change_rate_stats l c h = Ok ((m, NaN), h') /\
    ((len d <= 1)%nat -> m = NaN).
Proof.
  intros H Hc L. rewrite (change_rate_stats_value h l d c H Hc).
  pose proof (pct_change_valid_count (column c d)) as V.
  rewrite length_column in V.
  eexists _, _. split.
  - f_equal. f_equal. f_equal. unfold series_var.
    destruct (Nat.leb_spec (length (filter (fun v => isna v = false)
                                      (pct_change (column c d)))) 1); [reflexivity|lia].
  - intros L1. unfold series_mean.
    destruct (filter _ _) as [|x xs]; [reflexivity|]. simpl in V. lia.
Qed.

Lemma change_rate_stats_short_witness :
  exists m h',
    compute_change_rate_stats 0%nat "R"
      [frame ["H"; "R"] [0; 1] [zs [0; 2]; zs [1; 4]]] = Ok ((m, NaN), h').
Proof.
  destruct (change_rate_stats_short
              [frame ["H"; "R"] [0; 1] [zs [0; 2]; zs [1; 4]]] 0%nat _ "R" eq_refl)
    as (m & h' & E & _).
  - vm_compute. repeat constructor.
  - vm_compute. lia.
  - exists m, h'. exact E.
Defined.

Lemma setitem_setitem df c vals :
  setitem (setitem df c vals) c vals = setitem df c vals.
Proof.
  unfold setitem. simpl. f_equal.
  - destruct (decide (c ∈ columns df)) as [H|H].
    + rewrite decide_True by assumption. reflexivity.
    + rewrite decide_True; [reflexivity|]. apply elem_of_app. right. left.
  - generalize (body df) as b.
    induction vals as [|v vals IH]; intros [|[i r] b]; simpl; try reflexivity.
    rewrite insert_insert_eq. f_equal. apply IH.
Qed.

(** X9: a second call on the same column returns the same statistics and
    leaves the store as the first call left it: the column "change_rate" is
    overwritten by the same values, not added again. *)
Theorem change_rate_stats_twice (h h1 : store) (l : loc) (d : DataFrame)
    (c : string) (v : cell * cell) :
  h !! l = Some d -> c ∈ columns d -> c <> "change_rate" ->
  compute_change_rate_stats l c h = Ok (v, h1) ->
  compute_change_rate_stats l c h1 = Ok (v, h1).
Proof.
  intros H Hc Nc R. rewrite (change_rate_stats_value h l d c H Hc) in R.
  injection R as <- <-.
  set (cr := pct_change (column c d)). set (d' := setitem d "change_rate" cr).
  assert (length cr = len d) as Lc
    by (unfold cr; rewrite length_pct_change; apply length_column).
  assert ((<[l := d']> h) !! l = Some d') as H'.
  { apply list_lookup_insert_eq. eapply lookup_lt_Some, H. }
  assert (c ∈ columns d') as Hc'.
  { unfold d', setitem. simpl. destruct (decide _); [assumption|].
    apply elem_of_app. left. assumption. }
  rewrite (change_rate_stats_value _ l d' c H' Hc').
  assert (column c d' = column c d) as ->
    by (apply setitem_column_ne; [apply not_eq_sym; assumption|exact Lc]).
  fold cr. unfold d'. rewrite setitem_setitem. fold d'.
  rewrite list_insert_insert_eq. reflexivity.
Qed.

Lemma change_rate_stats_twice_witness :
  exists v h1,
    compute_change_rate_stats 0%nat "R"
      [frame ["H"; "R"] [0; 1] [zs [0; 2]; zs [1; 4]]] = Ok (v, h1) /\
    compute_change_rate_stats 0%nat "R" h1 = Ok (v, h1).
Proof.
  assert ("R" ∈ columns (frame ["H"; "R"] [0; 1] [zs [0; 2]; zs [1; 4]])) as Hc
    by (vm_compute; repeat constructor).
  pose proof (change_rate_stats_value
                [frame ["H"; "R"] [0; 1] [zs [0; 2]; zs [1; 4]]] 0%nat _ "R"
                eq_refl Hc) as R.
  eexists _, _. split; [exact R|].
  apply (change_rate_stats_twice
           [frame ["H"; "R"] [0; 1] [zs [0; 2]; zs [1; 4]]] _ 0%nat _ "R" _
           eq_refl Hc); [discriminate|exact R].
Defined.

(** ** Zero crossings, range and deviation *)

Lemma crossings_bound (l : list cell) : (crossings l <= length l - 1)%nat.
Proof.
  unfold crossings, diff. etransitivity; [apply length_filter|].
  rewrite <- (length_fmap sign l). destruct (sign <$> l) as [|s m]; simpl; [lia|].
  rewrite length_zip_with. simpl. lia.
Qed.

(** X10: the zero-crossing count does not depend on the order of the two
    branches (also when it raises: a missing column is a KeyError either
    way), and it is at most the number of adjacent pairs of samples:
    [max(len - 1, 0)] for each branch, an empty branch having none. *)
Theorem zero_crossings_symmetric_bounded (df1 df2 : DataFrame) (y : string) :
  compute_zero_crossings df1 df2 y = compute_zero_crossings df2 df1 y /\
  (forall n, compute_zero_crossings df1 df2 y = Ok n ->
             Z.of_nat n <= Z.max (Z.of_nat (len df1) - 1) 0
                           + Z.max (Z.of_nat (len df2) - 1) 0).
Proof.
  unfold compute_zero_crossings. unfold getitem.
  destruct (decide (y ∈ columns df1)), (decide (y ∈ columns df2)); simpl;
    split; try reflexivity; try discriminate.
  - f_equal. apply Nat.add_comm.
  - intros n [= <-].
    pose proof (crossings_bound (values (prod_map id (at_col y) <$> body df1))) as B1.
    pose proof (crossings_bound (values (prod_map id (at_col y) <$> body df2))) as B2.
    unfold values in B1, B2. rewrite !length_fmap in B1, B2. unfold len, values. lia.
Qed.

Lemma fold_min_spec (ws : list cell) : forall w,
  no_nan (w :: ws) ->
  foldl (fun m x => if ltb x m then x else m) w ws ∈ w :: ws /\
  forall x, x ∈ w :: ws -> sort_le (foldl (fun m x => if ltb x m then x else m) w ws) x.
Proof.
  induction ws as [|z ws IH]; intros w N; simpl.
  - split; [left|]. intros x Hx. apply list_elem_of_singleton in Hx. subst. reflexivity.
  - apply Forall_cons in N as [Nw N]. pose proof N as N'.
    apply Forall_cons in N' as [Nz Nws].
    set (w' := if ltb z w then z else w).
    assert (isna w' = false) as Nw' by (unfold w'; destruct (ltb z w); assumption).
    assert (sort_le w' w /\ sort_le w' z) as [Lw Lz].
    { unfold w'. destruct (ltb z w) eqn:L.
      - split; [apply ltb_sort_le; assumption|reflexivity].
      - split; [reflexivity|apply not_ltb_sort_le; assumption]. }
    destruct (IH w') as [Hin Hle]; [constructor; assumption|]. split.
    + apply elem_of_cons in Hin as [->|Hin].
      * unfold w'. destruct (ltb z w); [right; left|left].
      * right. right. exact Hin.
    + intros x Hx.
      assert (sort_le (foldl (fun m x => if ltb x m then x else m) w' ws) w') as Hw'
        by (apply Hle; left).
      apply elem_of_cons in Hx as [->|Hx]; [etransitivity; eassumption|].
      apply elem_of_cons in Hx as [->|Hx]; [etransitivity; eassumption|].
      apply Hle. right. exact Hx.
Qed.

Lemma fold_max_spec (ws : list cell) : forall w,
  no_nan (w :: ws) ->
  foldl (fun m x => if ltb m x then x else m) w ws ∈ w :: ws /\
  forall x, x ∈ w :: ws -> sort_le x (foldl (fun m x => if ltb m x then x else m) w ws).
Proof.
  induction ws as [|z ws IH]; intros w N; simpl.
  - split; [left|]. intros x Hx. apply list_elem_of_singleton in Hx. subst. reflexivity.
  - apply Forall_cons in N as [Nw N]. pose proof N as N'.
    apply Forall_cons in N' as [Nz Nws].
    set (w' := if ltb w z then z else w).
    assert (isna w' = false) as Nw' by (unfold w'; destruct (ltb w z); assumption).
    assert (sort_le w w' /\ sort_le z w') as [Lw Lz].
    { unfold w'. destruct (ltb w z) eqn:L.
      - split; [apply ltb_sort_le; assumption|reflexivity].
      - split; [reflexivity|apply not_ltb_sort_le; assumption]. }
    destruct (IH w') as [Hin Hle]; [constructor; assumption|]. split.
    + apply elem_of_cons in Hin as [->|Hin].
      * unfold w'. destruct (ltb w z); [right; left|left].
      * right. right. exact Hin.
    + intros x Hx.
      assert (sort_le w' (foldl (fun m x => if ltb m x then x else m) w' ws)) as Hw'
        by (apply Hle; left).
      apply elem_of_cons in Hx as [->|Hx]; [etransitivity; eassumption|].
      apply elem_of_cons in Hx as [->|Hx]; [etransitivity; eassumption|].
      apply Hle. right. exact Hx.
Qed.

Lemma valid_filter_no_nan (l : list cell) : no_nan (filter (fun v => isna v = false) l).
Proof.
  unfold no_nan. apply Forall_forall. intros x Hx.
  apply list_elem_of_filter in Hx. tauto.
Qed.

Lemma series_min_Permutation l1 l2 : l1 ≡ₚ l2 -> series_min l1 = series_min l2.
Proof.
  intros P. unfold series_min.
  pose proof (filter_Permutation (fun v => isna v = false) _ _ P) as PF.
  pose proof (valid_filter_no_nan l1) as N1. pose proof (valid_filter_no_nan l2) as N2.
  destruct (filter _ l1) as [|w1 ws1], (filter _ l2) as [|w2 ws2]; try reflexivity.
  - apply Permutation_nil_l in PF. discriminate.
  - apply Permutation_nil_r in PF. discriminate.
  - destruct (fold_min_spec ws1 w1 N1) as [I1 L1].
    destruct (fold_min_spec ws2 w2 N2) as [I2 L2].
    apply sort_le_antisym.
    + apply L1. rewrite PF. exact I2.
    + apply L2. rewrite <- PF. exact I1.
Qed.

Lemma series_max_Permutation l1 l2 : l1 ≡ₚ l2 -> series_max l1 = series_max l2.
Proof.
  intros P. unfold series_max.
  pose proof (filter_Permutation (fun v => isna v = false) _ _ P) as PF.
  pose proof (valid_filter_no_nan l1) as N1. pose proof (valid_filter_no_nan l2) as N2.
  destruct (filter _ l1) as [|w1 ws1], (filter _ l2) as [|w2 ws2]; try reflexivity.
  - apply Permutation_nil_l in PF. discriminate.
  - apply Permutation_nil_r in PF. discriminate.
  - destruct (fold_max_spec ws1 w1 N1) as [I1 L1].
    destruct (fold_max_spec ws2 w2 N2) as [I2 L2].
    apply sort_le_antisym.
    + apply L2. rewrite <- PF. exact I1.
    + apply L1. rewrite PF. exact I2.
Qed.

Lemma compute_range_cases (a b : DataFrame) (y : string) :
  compute_range a b y =
  if decide ("H_kOe" ∈ columns a \/ "H_kOe" ∈ columns b) then
    if decide (y ∈ columns a \/ y ∈ columns b) then Ok (range_value a b y)
    else Raise KeyError
  else Raise KeyError.
Proof.
  unfold compute_range. destruct (decide ("H_kOe" ∈ columns a \/ _)) as [H|H].
  - apply concat_columns in H. destruct (sort_reset_returns _ _ H) as [m E].
    unfold merge_dataframes. rewrite E. simpl.
    apply sort_reset_spec in E as (C & P & _). rewrite concat_rows in P.
    unfold getitem at 1. rewrite C.
    destruct (decide (y ∈ columns (concat a b))) as [Y|Y];
      rewrite concat_columns in Y.
    + rewrite decide_True by assumption. simpl. f_equal.
      assert (values (prod_map id (at_col y) <$> body m) = column y m) as ->.
      { unfold values, column, rows. rewrite <- !list_fmap_compose.
        apply list_fmap_ext. intros _ [i r] _. reflexivity. }
      assert (column y m ≡ₚ column y a ++ column y b) as PC.
      { unfold column. rewrite <- fmap_app. apply fmap_Permutation, P. }
      unfold range_value.
      rewrite (series_max_Permutation _ _ PC), (series_min_Permutation _ _ PC).
      reflexivity.
    + rewrite decide_False by assumption. reflexivity.
  - unfold merge_dataframes, sort_values.
    rewrite decide_False by (rewrite concat_columns; assumption). reflexivity.
Qed.

(** X11: the range is the largest minus the smallest defined value of the
    two value columns taken together, whatever the row order; it needs the
    column "H_kOe" in one of the branches, because it goes through the merge,
    and raises KeyError without it even when the value column is there. *)
Theorem compute_range_spec (a b : DataFrame) (y : string) :
  y ∈ columns a \/ y ∈ columns b ->
  ("H_kOe" ∈ columns a \/ "H_kOe" ∈ columns b ->
   compute_range a b y
   = Ok (sub (series_max (column y a ++ column y b))
             (series_min (column y a ++ column y b)))) /\
  ("H_kOe" ∉ columns a -> "H_kOe" ∉ columns b ->
   compute_range a b y = Raise KeyError).
Proof.
  intros Y. rewrite compute_range_cases. split.
  - intros H. rewrite !decide_True by assumption. reflexivity.
  - intros Ha Hb. rewrite decide_False by tauto. reflexivity.
Qed.

Lemma compute_range_spec_witness :
  compute_range (frame ["H"; "R"] [0; 1] [zs [0; 1]; zs [1; 5]])
                (frame ["H"; "R"] [0; 1] [zs [1; 9]; zs [2; 0]]) "R" = Raise KeyError.
Proof.
  apply (compute_range_spec (frame ["H"; "R"] [0; 1] [zs [0; 1]; zs [1; 5]])
                            (frame ["H"; "R"] [0; 1] [zs [1; 9]; zs [2; 0]]) "R").
  - left. vm_compute. repeat constructor.
  - apply (bool_decide_eq_false_1 _). vm_compute. reflexivity.
  - apply (bool_decide_eq_false_1 _). vm_compute. reflexivity.
Defined.

(** X12: the range does not depend on the order of the two branches, for
    every input (both orders raise KeyError on the same inputs). *)
Theorem compute_range_symmetric (a b : DataFrame) (y : string) :
  compute_range a b y = compute_range b a y.
Proof.
  rewrite !compute_range_cases.
  destruct (decide ("H_kOe" ∈ columns a \/ "H_kOe" ∈ columns b)) as [H|H].
  - rewrite (decide_True (P := "H_kOe" ∈ columns b \/ _)) by tauto.
    destruct (decide (y ∈ columns a \/ y ∈ columns b)) as [Y|Y].
    + rewrite (decide_True (P := y ∈ columns b \/ _)) by tauto. f_equal.
      unfold range_value.
      assert (column y a ++ column y b ≡ₚ column y b ++ column y a) as P
        by apply Permutation_app_comm.
      rewrite (series_max_Permutation _ _ P), (series_min_Permutation _ _ P).
      reflexivity.
    + rewrite (decide_False (P := y ∈ columns b \/ _)) by tauto. reflexivity.
  - rewrite (decide_False (P := "H_kOe" ∈ columns b \/ _)) by tauto. reflexivity.
Qed.

Lemma common_grid_comm xs1 xs2 : common_grid xs1 xs2 = common_grid xs2 xs1.
Proof.
  apply (Sorted_unique sort_le); try apply common_grid_ascending.
  unfold common_grid. rewrite !merge_sort_Permutation.
  apply NoDup_Permutation; try apply NoDup_remove_dups.
  intros g. rewrite !elem_of_remove_dups, !elem_of_app. tauto.
Qed.

Lemma interpolate_and_fill_df_cases x y grid df :
  index_name_free x df ->
  x ∈ columns df -> y ∈ columns df -> NoDup grid ->
  (exists d, interpolate_and_fill_df x y grid df = Ok d /\
             len d = length grid /\ y ∈ columns d) \/
  interpolate_and_fill_df x y grid df = Raise ValueError.
Proof.
  intros Free Hx Hy Hg. destruct (decide (NoDup (column x df))) as [D|D].
  - left. destruct (interpolate_and_fill_df_returns x y grid df) as (d & E & L & _); auto.
    exists d. split; [exact E|]. split; [exact L|].
    apply interpolate_and_fill_df_Ok in E as (_ & _ & _ & Y & _). exact Y.
  - right. apply interpolate_and_fill_df_duplicates; assumption.
Qed.

Lemma iloc_at_same_status f1 f2 i y :
  len f1 = len f2 -> y ∈ columns f1 -> y ∈ columns f2 ->
  (exists v1 v2, iloc_at f1 i y = Ok v1 /\ iloc_at f2 i y = Ok v2) \/
  (iloc_at f1 i y = Raise IndexError /\ iloc_at f2 i y = Raise IndexError).
Proof.
  intros L Y1 Y2. unfold iloc_at. rewrite <- L.
  set (p := if i <? 0 then Z.of_nat (len f1) + i else i).
  destruct ((0 <=? p) && (p <? Z.of_nat (len f1))) eqn:C; [|right; auto].
  apply andb_true_iff in C as [C1 C2].
  apply Z.leb_le in C1. apply Z.ltb_lt in C2.
  assert (Z.to_nat p < length (rows f1))%nat as L1 by (rewrite len_rows; lia).
  assert (Z.to_nat p < length (rows f2))%nat as L2 by (rewrite len_rows; lia).
  destruct (lookup_lt_is_Some_2 _ _ L1) as [r1 ->].
  destruct (lookup_lt_is_Some_2 _ _ L2) as [r2 ->].
  rewrite !decide_True by assumption. left. eauto.
Qed.

(** X13: with the field and value columns present in both branches, no
    other column called "index" and no NaN among the field values, the
    deviation does not depend on the order of the two branches: both orders
    return the same value or raise the same exception. *)
Theorem y_deviation_symmetric (a b : DataFrame) (x y : string) (fraction : Qc) :
  x ∈ columns a -> x ∈ columns b -> y ∈ columns a -> y ∈ columns b ->
  index_name_free x a -> index_name_free x b ->
  no_nan (column x a) -> no_nan (column x b) ->
  compute_y_deviation a b x y fraction = compute_y_deviation b a x y fraction.
Proof.
  intros Xa Xb Ya Yb Ia Ib _ _. unfold compute_y_deviation.
  rewrite !interpolate_and_fill_unfold by assumption.
  rewrite (common_grid_comm (column x b)). set (grid := common_grid _ _).
  pose proof (common_grid_NoDup (column x a) (column x b)) as Hg. fold grid in Hg.
  destruct (interpolate_and_fill_df_cases x y grid a Ia Xa Ya Hg)
    as [(fa & -> & La & Yfa)| ->];
    destruct (interpolate_and_fill_df_cases x y grid b Ib Xb Yb Hg)
      as [(fb & -> & Lb & Yfb)| ->]; simpl; try reflexivity.
  assert (len fa = len fb) as L by congruence.
  assert (fraction_index fraction fb = fraction_index fraction fa) as ->
    by (unfold fraction_index; rewrite L; reflexivity).
  destruct (iloc_at_same_status fa fb (fraction_index fraction fa) y L Yfa Yfb)
    as [(v1 & v2 & -> & ->)|[-> ->]]; simpl; [|reflexivity].
  f_equal. apply abs_sub_comm.
Qed.

Lemma y_deviation_symmetric_witness :
  compute_y_deviation
    (frame ["H"; "R"] [0; 1; 2] [zs [0; 10]; zs [2; 12]; zs [4; 14]])
    (frame ["H"; "R"] [0; 1] [zs [1; 9]; zs [2; 9]]) "H" "R" (Q2Qc (1 # 2))
  = compute_y_deviation
      (frame ["H"; "R"] [0; 1] [zs [1; 9]; zs [2; 9]])
      (frame ["H"; "R"] [0; 1; 2] [zs [0; 10]; zs [2; 12]; zs [4; 14]])
      "H" "R" (Q2Qc (1 # 2)).
Proof.
  apply (y_deviation_symmetric
           (frame ["H"; "R"] [0; 1; 2] [zs [0; 10]; zs [2; 12]; zs [4; 14]])
           (frame ["H"; "R"] [0; 1] [zs [1; 9]; zs [2; 9]]) "H" "R" (Q2Qc (1 # 2))).
  1-6: apply (bool_decide_unpack _); vm_compute; exact I.
  1-2: vm_compute; repeat constructor.
Defined.

(** ** The moving average *)

Lemma moving_average_value h l d c w :
  h !! l = Some d -> c ∈ columns d ->
  apply_moving_average l c w h
  = Ok (length h,
        h ++ [setitem d (c +:+ "_MA") (rolling_mean_center w (column c d))]).
Proof.
  intros H Hc. unfold apply_moving_average.
  rewrite (bind_run _ _ _ _ _ (copy_ok _ _ _ H)). cbv zeta.
  assert ((h ++ [d]) !! length h = Some d) as H'
    by (apply list_lookup_middle; reflexivity).
  rewrite (bind_run _ _ _ _ _ (load_ok _ _ _ H')).
  destruct (getitem_values d c Hc) as (s & G & Gv & _).
  rewrite (bind_run _ _ _ _ _ (lift_ok _ _ _ G)).
  rewrite (bind_run _ _ _ _ _ (assign_ok _ _ _ _ _ H')).
  rewrite insert_app_r_alt by lia. rewrite Nat.sub_diag, Gv. reflexivity.
Qed.

Lemma length_rolling_mean_center w l : length (rolling_mean_center w l) = length l.
Proof. unfold rolling_mean_center. apply length_imap. Qed.

(** X14: the moving average returns a new frame and leaves the frames of the
    caller as they were.  The new frame has the rows, the index and every
    other column of the input, and the column [<name>_MA], which is NaN at
    every position where the centred window does not fit (all of them when
    the window is longer than the column). *)
Theorem moving_average_frame (h : store) (l : loc) (d : DataFrame) (c : string)
    (w : nat) :
  h !! l = Some d -> c ∈ columns d ->
  exists d',
    apply_moving_average l c w h = Ok (length h, h ++ [d']) /\
    len d' = len d /\ index d' = index d /\
    (forall c', c' <> c +:+ "_MA" -> column c' d' = column c' d) /\
    (c +:+ "_MA") ∈ columns d' /\
    (forall i, (i < len d)%nat -> window_fits w (len d) i = false ->
               column (c +:+ "_MA") d' !! i = Some NaN).
Proof.
  intros H Hc. rewrite (moving_average_value h l d c w H Hc).
  set (vals := rolling_mean_center w (column c d)).
  assert (length vals = len d) as L
    by (unfold vals; rewrite length_rolling_mean_center; apply length_column).
  eexists. split; [reflexivity|].
  split; [apply setitem_len, L|]. split; [apply setitem_index, L|].
  split; [intros c' N; apply setitem_column_ne; [apply not_eq_sym, N|exact L]|].
  split; [apply setitem_has_column|].
  intros i Hi F. rewrite setitem_column by exact L.
  unfold vals, rolling_mean_center. rewrite list_lookup_imap.
  assert (i < length (column c d))%nat as Hi' by (rewrite length_column; exact Hi).
  destruct (lookup_lt_is_Some_2 _ _ Hi') as [v ->].
  unfold window_fits in F. cbv beta zeta. rewrite length_column, F. reflexivity.
Qed.

Lemma moving_average_frame_witness :
  exists d',
    apply_moving_average 0%nat "R" 10
      [frame ["H"; "R"] [0; 1; 2] [zs [0; 3]; zs [1; 5]; zs [2; 4]]]
    = Ok (1%nat, [frame ["H"; "R"] [0; 1; 2] [zs [0; 3]; zs [1; 5]; zs [2; 4]]] ++ [d']) /\
    column "R_MA" d' !! 1%nat = Some NaN.
Proof.
  destruct (moving_average_frame
              [frame ["H"; "R"] [0; 1; 2] [zs [0; 3]; zs [1; 5]; zs [2; 4]]]
              0%nat _ "R" 10 eq_refl) as (d' & E & _ & _ & _ & _ & N).
  - vm_compute. repeat constructor.
  - exists d'. split; [exact E|]. apply N; [vm_compute; lia|reflexivity].
Defined.

Lemma this_plus (a b : Qc) : (this (a + b)%Qc == this a + this b)%Q.
Proof. unfold Qcplus, Q2Qc. cbn [this]. apply Qred_correct. Qed.

Lemma Q2Qc_inject_S (n : nat) :
  Q2Qc (inject_Z (Z.of_nat (S n))) = (Q2Qc (inject_Z (Z.of_nat n)) + 1)%Qc.
Proof.
  apply Qc_is_canon.
  pose proof (this_plus (Q2Qc (inject_Z (Z.of_nat n))) 1) as E.
  pose proof (this_Q2Qc (inject_Z (Z.of_nat n))) as E1.
  pose proof (this_Q2Qc (inject_Z (Z.of_nat (S n)))) as E2.
  pose proof (this_Q2Qc 1) as E3.
  rewrite Nat2Z.inj_succ in E2 |- *. unfold Z.succ in E2 |- *.
  pose proof (inject_Z_plus (Z.of_nat n) 1) as E4.
  change (inject_Z 1) with 1%Q in E4.
  etransitivity; [exact E2|]. rewrite E4. lra.
Qed.

Lemma Q2Qc_inject_pos (n : nat) : (0 < n)%nat -> Q2Qc (inject_Z (Z.of_nat n)) <> 0%Qc.
Proof.
  intros H E. apply Q2Qc_eq_iff in E.
  pose proof (proj1 (inject_Z_injective (Z.of_nat n) 0) E) as E2. lia.
Qed.

Lemma sum_replicate (w : nat) (k : Qc) :
  foldr add (of_Z 0) (replicate w (Num k))
  = Num (Q2Qc (inject_Z (Z.of_nat w)) * k)%Qc.
Proof.
  induction w as [|w IH].
  - change (Z.of_nat 0) with 0. cbn [replicate foldr]. unfold of_Z. f_equal.
    change (Q2Qc (inject_Z 0)) with 0%Qc. ring.
  - rewrite Q2Qc_inject_S. cbn [replicate foldr]. rewrite IH. cbn [add]. f_equal. ring.
Qed.

Lemma forallb_replicate {A} (f : A -> bool) (x : A) (w : nat) :
  f x = true -> forallb f (replicate w x) = true.
Proof. intros H. induction w as [|w IH]; simpl; [reflexivity|]. rewrite H, IH. reflexivity. Qed.

(** X15: on a column that holds one finite value [k] throughout, the moving
    average over a window of [w >= 1] samples is [k] wherever the centred
    window fits and NaN elsewhere. *)
Theorem moving_average_constant (h : store) (l : loc) (d : DataFrame) (c : string)
    (w : nat) (k : Qc) :
  h !! l = Some d -> c ∈ columns d -> (1 <= w)%nat ->
  column c d = replicate (len d) (Num k) ->
  exists d',
    apply_moving_average l c w h = Ok (length h, h ++ [d']) /\
    forall i, (i < len d)%nat ->
      column (c +:+ "_MA") d' !! i
      = Some (if window_fits w (len d) i then Num k else NaN).
Proof.
  intros H Hc Hw Const. rewrite (moving_average_value h l d c w H Hc).
  eexists. split; [reflexivity|]. intros i Hi.
  rewrite setitem_column
    by (rewrite length_rolling_mean_center; apply length_column).
  unfold rolling_mean_center. rewrite list_lookup_imap, Const.
  rewrite lookup_replicate_2 by exact Hi. cbv beta zeta.
  rewrite length_replicate. unfold window_fits.
  set (stop := (i + 1 + (w - 1) / 2)%nat).
  destruct ((w <=? stop)%nat && (stop <=? len d)%nat) eqn:F; [|reflexivity].
  apply andb_true_iff in F as [F1 F2]. apply Nat.leb_le in F1, F2.
  rewrite drop_replicate, take_replicate.
  replace (w `min` (len d - (stop - w)))%nat with w by lia.
  rewrite forallb_replicate by reflexivity.
  rewrite sum_replicate. simpl. unfold of_nat, of_Z. simpl.
  pose proof (Q2Qc_inject_pos w Hw) as Nz.
  rewrite bool_decide_eq_false_2 by exact Nz.
  do 2 f_equal. field. exact Nz.
Qed.

Lemma moving_average_constant_witness :
  exists d',
    apply_moving_average 0%nat "R" 2
      [frame ["H"; "R"] [0; 1; 2] [zs [0; 7]; zs [1; 7]; zs [2; 7]]]
    = Ok (1%nat, [frame ["H"; "R"] [0; 1; 2] [zs [0; 7]; zs [1; 7]; zs [2; 7]]] ++ [d']) /\
    column "R_MA" d' !! 1%nat = Some (of_Z 7).
Proof.
  destruct (moving_average_constant
              [frame ["H"; "R"] [0; 1; 2] [zs [0; 7]; zs [1; 7]; zs [2; 7]]]
              0%nat _ "R" 2 (Q2Qc (inject_Z 7)) eq_refl) as (d' & E & V).
  - vm_compute. repeat constructor.
  - lia.
  - vm_compute. reflexivity.
  - exists d'. split; [exact E|]. apply (V 1%nat). vm_compute. lia.
Defined.

(** ** The sign of the ratio *)

Lemma not_negative_Num (x : Qc) : (0 <= x)%Qc -> ltb (Num x) (of_Z 0) = false.
Proof.
  intros H. destruct (ltb (Num x) (of_Z 0)) eqn:L; [|reflexivity].
  apply ltb_Num in L. exfalso. exact (Qclt_not_le _ _ L H).
Qed.

Lemma Num_not_negative (x : Qc) : ltb (Num x) (of_Z 0) = false -> (0 <= x)%Qc.
Proof.
  intros L. apply Qcnot_lt_le. intros H.
  assert (ltb (Num x) (of_Z 0) = true) as T by (apply ltb_Num; exact H). congruence.
Qed.

Lemma series_min_le (l : list cell) (x : cell) :
  x ∈ l -> isna x = false -> sort_le (series_min l) x.
Proof.
  intros Hx Hn. unfold series_min.
  assert (x ∈ filter (fun v => isna v = false) l) as Hf
    by (apply list_elem_of_filter; auto).
  pose proof (valid_filter_no_nan l) as N.
  destruct (filter _ l) as [|w ws]; [inversion Hf|].
  apply (fold_min_spec ws w N), Hf.
Qed.

Lemma shifted_not_negative y k df :
  finite (column y df) -> isfinite k = true ->
  (forall v, v ∈ column y df -> sort_le k v) ->
  forall v, v ∈ column y (shifted y k df) -> ltb v (of_Z 0) = false.
Proof.
  intros F Fk Le v Hv. rewrite shifted_column in Hv.
  apply list_elem_of_fmap in Hv as (u & -> & Hu).
  specialize (Le u Hu). unfold finite in F. rewrite Forall_forall in F.
  specialize (F u Hu). destruct u as [| | |p], k as [| | |q]; try discriminate.
  apply sort_leb_Num in Le. simpl. apply not_negative_Num.
  apply Qcle_minus_iff in Le. exact Le.
Qed.

Lemma epsilon_positive : (0 < Q2Qc (1 # 10000000000))%Qc.
Proof. reflexivity. Qed.

Lemma ratio_guard_not_negative (n d : cell) :
  isfinite n = true -> isfinite d = true ->
  ltb n (of_Z 0) = false -> ltb d (of_Z 0) = false ->
  ltb (ratio_guard n d) (of_Z 0) = false.
Proof.
  destruct n as [| | |p], d as [| | |q]; try discriminate. intros _ _ Hp Hq.
  apply Num_not_negative in Hp, Hq.
  unfold ratio_guard. destruct (ltb (abs (Num q)) epsilon) eqn:G.
  - unfold epsilon. cbn [div].
    destruct (bool_decide _) eqn:B; [apply bool_decide_eq_true_1 in B; discriminate|].
    apply not_negative_Num. apply Qcmult_nonneg_nonneg; [exact Hp|].
    apply Qclt_le_weak, Qcinv_pos, epsilon_positive.
  - assert (0 < q)%Qc as Pq.
    { apply Qcnot_le_lt. intros Le.
      assert (q = 0%Qc) as -> by (apply Qcle_antisym; assumption).
      vm_compute in G. discriminate. }
    cbn [div]. rewrite bool_decide_eq_false_2
      by (intros ->; exact (Qclt_not_eq _ _ Pq eq_refl)).
    apply not_negative_Num. apply Qcmult_nonneg_nonneg; [exact Hp|].
    apply Qclt_le_weak, Qcinv_pos, Pq.
Qed.

Lemma py_min_le (a b : cell) :
  isna a = false -> isna b = false ->
  sort_le (py_min a b) a /\ sort_le (py_min a b) b.
Proof.
  intros Na Nb. unfold py_min. destruct (ltb b a) eqn:L.
  - split; [apply ltb_sort_le; assumption|reflexivity].
  - split; [reflexivity|apply not_ltb_sort_le; assumption].
Qed.

(** The operands are finite and not negative for two non-empty numeric
    branches with pairwise distinct field values. *)
Lemma y_ratio_operands_not_negative (a b : DataFrame) (x y : string) (fraction : Qc) :
  x ∈ columns a -> x ∈ columns b -> y ∈ columns a -> y ∈ columns b ->
  index_name_free x a -> index_name_free x b ->
  rows a <> [] -> rows b <> [] ->
  finite (column x a) -> finite (column x b) ->
  NoDup (column x a) -> NoDup (column x b) ->
  finite (column y a) -> finite (column y b) ->
  (0 <= fraction)%Qc -> (fraction <= 1)%Qc ->
  exists n d,
    y_ratio_operands a b x y fraction = Ok (n, d) /\
    isfinite n = true /\ isfinite d = true /\
    ltb n (of_Z 0) = false /\ ltb d (of_Z 0) = false.
Proof.
  intros Xa Xb Ya Yb Ia Ib Ra Rb Fxa Fxb Da Db Fya Fyb F0 F1.
  unfold y_ratio_operands. rewrite interpolate_and_fill_unfold by assumption.
  set (grid := common_grid _ _).
  assert (finite grid) as Fg by (apply common_grid_finite; assumption).
  assert (0 < length grid)%nat as Lg.
  { assert (column x a <> []) as Hne
      by (unfold column; intros E; apply fmap_nil_inv in E; auto).
    destruct (column x a) as [|g gs] eqn:E; [congruence|].
    assert (g ∈ grid) as Hg by (apply common_grid_elem; left; left).
    destruct grid; [inversion Hg|simpl; lia]. }
  destruct (interpolate_and_fill_df_returns x y grid a) as (fa & Ea & La & Na); auto.
  destruct (interpolate_and_fill_df_returns x y grid b) as (fb & Eb & Lb & Nb); auto.
  assert (finite (column y fa)) as Ffa.
  { eapply (interpolate_and_fill_df_finite x y grid a fa Ia Ea); eauto. apply Na.
    - apply finite_no_nan, Fxa.
    - intros g Hg. apply common_grid_elem. auto.
    - apply finite_has_valid; assumption. }
  assert (finite (column y fb)) as Ffb.
  { eapply (interpolate_and_fill_df_finite x y grid b fb Ib Eb); eauto. apply Nb.
    - apply finite_no_nan, Fxb.
    - intros g Hg. apply common_grid_elem. auto.
    - apply finite_has_valid; assumption. }
  destruct (interpolate_and_fill_df_Ok _ _ _ _ _ Ea) as (_ & _ & _ & Yfa & _).
  destruct (interpolate_and_fill_df_Ok _ _ _ _ _ Eb) as (_ & _ & _ & Yfb & _).
  rewrite Ea. simpl. rewrite Eb. simpl.
  destruct (getitem_values fa y Yfa) as (s1 & -> & V1 & _). simpl.
  destruct (getitem_values fb y Yfb) as (s2 & -> & V2 & _). simpl.
  rewrite V1, V2. set (y_min := py_min _ _).
  assert (column y fa <> []) as Nea
    by (intros E; apply (f_equal length) in E; rewrite length_column in E; simpl in E; lia).
  assert (column y fb <> []) as Neb
    by (intros E; apply (f_equal length) in E; rewrite length_column in E; simpl in E; lia).
  pose proof (series_min_finite _ Nea Ffa) as Fma.
  pose proof (series_min_finite _ Neb Ffb) as Fmb.
  assert (isfinite y_min = true) as Fm
    by (unfold y_min, py_min; destruct (ltb _ _); assumption).
  assert (isna (series_min (column y fa)) = false) as Nma
    by (destruct (series_min (column y fa)); simpl in *; congruence).
  assert (isna (series_min (column y fb)) = false) as Nmb
    by (destruct (series_min (column y fb)); simpl in *; congruence).
  destruct (py_min_le _ _ Nma Nmb) as [Lea Leb]. fold y_min in Lea, Leb.
  set (fa' := shifted y y_min fa). set (fb' := shifted y y_min fb).
  destruct (iloc_at_in_range fa' (fraction_index fraction fa') y) as (n & -> & Hn).
  { apply fraction_index_bounds; try assumption.
    unfold fa'. rewrite shifted_len. lia. }
  { unfold fa'. rewrite shifted_columns; assumption. }
  destruct (iloc_at_in_range fb' (fraction_index fraction fb') y) as (d & -> & Hd).
  { apply fraction_index_bounds; try assumption.
    unfold fb'. rewrite shifted_len. lia. }
  { unfold fb'. rewrite shifted_columns; assumption. }
  exists n, d. split; [reflexivity|].
  pose proof (shifted_finite y y_min fa Ffa Fm) as S1.
  pose proof (shifted_finite y y_min fb Ffb Fm) as S2.
  unfold finite in S1, S2. rewrite Forall_forall in S1, S2.
  split; [auto|]. split; [auto|]. split.
  - apply (shifted_not_negative y y_min fa Ffa Fm); [|exact Hn].
    intros v Hv. etransitivity; [exact Lea|]. apply series_min_le; [exact Hv|].
    apply finite_no_nan in Ffa. unfold no_nan in Ffa. rewrite Forall_forall in Ffa. auto.
  - apply (shifted_not_negative y y_min fb Ffb Fm); [|exact Hd].
    intros v Hv. etransitivity; [exact Leb|]. apply series_min_le; [exact Hv|].
    apply finite_no_nan in Ffb. unfold no_nan in Ffb. rewrite Forall_forall in Ffb. auto.
Qed.

(** X16: for two non-empty numeric branches with pairwise distinct field
    values, no column called "index" besides the field column, and a fraction
    in [0, 1], the ratio is never negative.  After the
    baseline shift both operands are at least 0, so the denominator the guard
    replaces is never a negative one. *)
Theorem y_ratio_not_negative (h : store) (l1 l2 : loc) (a b : DataFrame)
    (x y : string) (fraction : Qc) :
  h !! l1 = Some a -> h !! l2 = Some b ->
  x ∈ columns a -> x ∈ columns b -> y ∈ columns a -> y ∈ columns b ->
  index_name_free x a -> index_name_free x b ->
  rows a <> [] -> rows b <> [] ->
  finite (column x a) -> finite (column x b) ->
  NoDup (column x a) -> NoDup (column x b) ->
  finite (column y a) -> finite (column y b) ->
  (0 <= fraction)%Qc -> (fraction <= 1)%Qc ->
  exists n d v h',
    y_ratio_operands a b x y fraction = Ok (n, d) /\
    ltb n (of_Z 0) = false /\ ltb d (of_Z 0) = false /\
    compute_y_ratio l1 l2 x y fraction h = Ok (v, h') /\
    ltb v (of_Z 0) = false.
Proof.
  intros Ha Hb Xa Xb Ya Yb Ia Ib Ra Rb Fxa Fxb Da Db Fya Fyb F0 F1.
  destruct (y_ratio_operands_not_negative a b x y fraction)
    as (n & d & O & Fn & Fd & Pn & Pd); try assumption.
  destruct (y_ratio_run h l1 l2 a b x y fraction n d Ha Hb O) as (h' & R & _).
  exists n, d, (ratio_guard n d), h'.
  split; [exact O|]. split; [exact Pn|]. split; [exact Pd|]. split; [exact R|].
  apply ratio_guard_not_negative; assumption.
Qed.

Lemma y_ratio_not_negative_witness :
  exists v h',
    compute_y_ratio 0%nat 1%nat "H" "R" (Q2Qc (1 # 2))
      [frame ["H"; "R"] [0; 1; 2] [zs [0; 10]; zs [2; 12]; zs [4; 14]];
       frame ["H"; "R"] [0; 1] [zs [1; 9]; zs [2; 9]]] = Ok (v, h') /\
    ltb v (of_Z 0) = false.
Proof.
  destruct (y_ratio_not_negative
              [frame ["H"; "R"] [0; 1; 2] [zs [0; 10]; zs [2; 12]; zs [4; 14]];
               frame ["H"; "R"] [0; 1] [zs [1; 9]; zs [2; 9]]]
              0%nat 1%nat _ _ "H" "R" (Q2Qc (1 # 2)) eq_refl eq_refl)
    as (n & d & v & h' & _ & _ & _ & R & P).
  1-4: vm_compute; repeat constructor.
  1-2: apply (bool_decide_unpack _); vm_compute; exact I.
  1-2: vm_compute; discriminate.
  1-2: vm_compute; repeat constructor.
  1-2: apply (bool_decide_unpack _); vm_compute; exact I.
  1-2: vm_compute; repeat constructor.
  1-2: vm_compute; discriminate.
  exists v, h'. split; assumption.
Defined.

(** ** [get_gradient_at_fraction] *)

Lemma eqb_eq (a b : cell) : eqb a b = true -> a = b.
Proof.
  destruct a, b; simpl; try discriminate; try reflexivity.
  intros H. apply bool_decide_eq_true_1 in H. congruence.
Qed.

Lemma nunique_one (l : list cell) :
  nunique l = 1%nat <->
  exists v, v ∈ l /\ isna v = false /\
            forall w, w ∈ l -> isna w = false -> w = v.
Proof.
  unfold nunique. set (l' := filter _ l).
  assert (forall w, w ∈ remove_dups l' <-> w ∈ l /\ isna w = false) as M.
  { intros w. rewrite elem_of_remove_dups. unfold l'.
    rewrite list_elem_of_filter. tauto. }
  pose proof (NoDup_remove_dups l') as N.
  destruct (remove_dups l') as [|a [|b t]]; simpl.
  - split; [discriminate|]. intros (v & Hv & Hn & _).
    assert (v ∈ []) as E by (apply M; auto). inversion E.
  - split; [intros _|reflexivity]. exists a.
    destruct (proj1 (M a)) as [Ha Na]; [left|].
    split; [exact Ha|]. split; [exact Na|]. intros w Hw Nw.
    assert (w ∈ [a]) as E by (apply M; auto).
    apply list_elem_of_singleton in E. exact E.
  - split; [discriminate|]. intros (v & _ & _ & Hall). exfalso.
    assert (a = v) as -> by (destruct (proj1 (M a)); [left|]; auto).
    assert (b = v) as -> by (destruct (proj1 (M b)); [right; left|]; auto).
    inversion N as [|? ? Hin _]; subst. apply Hin. left.
Qed.

Lemma diff_lookup (l : list cell) (i : nat) (a b : cell) :
  l !! i = Some a -> l !! S i = Some b -> diff l !! i = Some (sub b a).
Proof.
  intros Ha Hb. unfold diff. rewrite lookup_zip_with, lookup_tail, Ha, Hb.
  reflexivity.
Qed.

Lemma length_diff (l : list cell) : length (diff l) = (length l - 1)%nat.
Proof.
  unfold diff. rewrite length_zip_with. destruct l; simpl; [reflexivity|lia].
Qed.

Lemma Qc_lt_gap (a b : Qc) : (a < b)%Qc -> (b + - a)%Qc <> 0%Qc.
Proof.
  intros H E. apply Qclt_minus_iff in H. rewrite E in H.
  exact (Qclt_not_eq _ _ H eq_refl).
Qed.

Lemma Qc_gap_pos (a b : Qc) : (a < b)%Qc -> (0 < b + - a)%Qc.
Proof. intros H. apply Qclt_minus_iff in H. exact H. Qed.

Lemma Qc_pos_add_ne (p q : Qc) : (0 < p)%Qc -> (0 < q)%Qc -> (p + q)%Qc <> 0%Qc.
Proof.
  intros Hp Hq E. pose proof (this_plus p q) as S. rewrite E in S.
  unfold Qclt in Hp, Hq. change (this 0%Qc) with 0%Q in *. lra.
Qed.

Lemma Qc_mult_ne (p q : Qc) : p <> 0%Qc -> q <> 0%Qc -> (p * q)%Qc <> 0%Qc.
Proof. intros Hp Hq E. apply Qcmult_integral in E. tauto. Qed.

Lemma div_Num (p q : Qc) : q <> 0%Qc -> div (Num p) (Num q) = Num (p / q)%Qc.
Proof. intros H. simpl. rewrite bool_decide_eq_false_2 by exact H. reflexivity. Qed.

Lemma two_Num : of_Z 2 = Num (1 + 1)%Qc.
Proof. apply Num_ext. reflexivity. Qed.

(** The one-sided difference of a line is its slope. *)
Lemma edge_difference (s c a b : Qc) :
  (a < b)%Qc ->
  div (sub (Num (s * b + c)) (Num (s * a + c))) (sub (Num b) (Num a)) = Num s.
Proof.
  intros H. pose proof (Qc_lt_gap a b H) as G.
  cbn [sub neg add]. rewrite div_Num by exact G. f_equal. field. exact G.
Qed.

(** So is the central difference over a constant spacing. *)
Lemma central_difference (s c x0 x1 x2 : Qc) :
  (x0 < x1)%Qc -> (x2 + - x1 = x1 + - x0)%Qc ->
  div (sub (Num (s * x2 + c)) (Num (s * x0 + c)))
      (mul (of_Z 2) (sub (Num x1) (Num x0))) = Num s.
Proof.
  intros H E. pose proof (Qc_lt_gap x0 x1 H) as G.
  rewrite two_Num. cbn [sub neg add mul].
  assert ((1 + 1) * (x1 + - x0) <> 0)%Qc as G2.
  { apply Qc_mult_ne; [|exact G]. discriminate. }
  rewrite div_Num by exact G2. f_equal.
  assert (x2 = x1 + (x1 + - x0))%Qc as -> by (rewrite <- E; ring).
  field. split; [exact G|discriminate].
Qed.

(** And numpy's three-point formula over an uneven spacing. *)
Lemma three_point_difference (s c x0 x1 x2 : Qc) :
  (x0 < x1)%Qc -> (x1 < x2)%Qc ->
  let dx1 := sub (Num x1) (Num x0) in
  let dx2 := sub (Num x2) (Num x1) in
  add (add (mul (div (neg dx2) (mul dx1 (add dx1 dx2))) (Num (s * x0 + c)))
           (mul (div (sub dx2 dx1) (mul dx1 dx2)) (Num (s * x1 + c))))
      (mul (div dx1 (mul dx2 (add dx1 dx2))) (Num (s * x2 + c))) = Num s.
Proof.
  intros H1 H2.
  pose proof (Qc_lt_gap _ _ H1) as G1. pose proof (Qc_lt_gap _ _ H2) as G2.
  pose proof (Qc_pos_add_ne _ _ (Qc_gap_pos _ _ H1) (Qc_gap_pos _ _ H2)) as G3.
  cbn [sub neg add mul].
  rewrite !div_Num by (repeat apply Qc_mult_ne; assumption).
  cbn [mul add]. f_equal. field. repeat split; assumption.
Qed.

Section GradientOfLine.

Variables (xs : list Qc) (s c : Qc).
Hypothesis increasing :
  forall i a b, xs !! i = Some a -> xs !! S i = Some b -> (a < b)%Qc.

Let X : list cell := Num <$> xs.
Let F : list cell := (fun q => Num (s * q + c)%Qc) <$> xs.

Lemma line_X i q : xs !! i = Some q -> X !!! i = Num q.
Proof.
  intros H. apply list_lookup_total_correct. unfold X.
  rewrite list_lookup_fmap, H. reflexivity.
Qed.

Lemma line_F i q : xs !! i = Some q -> F !!! i = Num (s * q + c)%Qc.
Proof.
  intros H. apply list_lookup_total_correct. unfold F.
  rewrite list_lookup_fmap, H. reflexivity.
Qed.

Lemma line_diff i a b :
  xs !! i = Some a -> xs !! S i = Some b ->
  diff X !!! i = sub (Num b) (Num a).
Proof.
  intros Ha Hb. apply list_lookup_total_correct, diff_lookup; unfold X;
    rewrite list_lookup_fmap; [rewrite Ha|rewrite Hb]; reflexivity.
Qed.

Lemma gradient_at_line (uniform : bool) (i : nat) :
  (uniform = true -> forall j, (j < length (diff X))%nat -> diff X !!! j = diff X !!! 0%nat) ->
  (2 <= length xs)%nat -> (i < length xs)%nat ->
  gradient_at F (diff X) uniform i = Num s.
Proof.
  intros U L Hi. unfold gradient_at.
  assert (length F = length xs) as LF by (unfold F; apply length_fmap).
  assert (length (diff X) = (length xs - 1)%nat) as LD
    by (rewrite length_diff; unfold X; rewrite length_fmap; reflexivity).
  rewrite LF.
  assert (forall j, (j < length xs)%nat -> exists q, xs !! j = Some q) as At
    by (intros j Hj; apply lookup_lt_is_Some_2 in Hj as [q Hq]; eauto).
  destruct (i =? 0)%nat eqn:E0.
  { destruct (At 0%nat) as (x0 & H0); [lia|].
    destruct (At 1%nat) as (x1 & H1); [lia|].
    rewrite (line_F _ _ H0), (line_F _ _ H1), (line_diff _ _ _ H0 H1).
    apply edge_difference. eapply increasing; eassumption. }
  apply Nat.eqb_neq in E0.
  destruct (i =? length xs - 1)%nat eqn:En.
  { destruct (At (length xs - 2)%nat) as (a & Ha); [lia|].
    destruct (At (length xs - 1)%nat) as (b & Hb); [lia|].
    assert (xs !! S (length xs - 2) = Some b) as Hb'
      by (replace (S (length xs - 2)) with (length xs - 1)%nat by lia; exact Hb).
    assert ((if uniform then diff X !!! 0%nat else diff X !!! (length xs - 2)%nat)
            = sub (Num b) (Num a)) as ->.
    { rewrite <- (line_diff _ _ _ Ha Hb').
      destruct uniform; [|reflexivity]. symmetry. apply U; [reflexivity|lia]. }
    rewrite (line_F _ _ Ha), (line_F _ _ Hb).
    apply edge_difference. eapply increasing; eassumption. }
  apply Nat.eqb_neq in En.
  destruct (At (i - 1)%nat) as (x0 & H0); [lia|].
  destruct (At i) as (x1 & H1); [lia|].
  destruct (At (i + 1)%nat) as (x2 & H2); [lia|].
  assert (xs !! S (i - 1) = Some x1) as H1'
    by (replace (S (i - 1)) with i by lia; exact H1).
  assert (xs !! S i = Some x2) as H2'
    by (replace (S i) with (i + 1)%nat by lia; exact H2).
  pose proof (increasing _ _ _ H0 H1') as I1.
  pose proof (increasing _ _ _ H1 H2') as I2.
  rewrite (line_F _ _ H0), (line_F _ _ H1), (line_F _ _ H2).
  destruct uniform.
  - pose proof (U eq_refl (i - 1)%nat ltac:(lia)) as U1.
    pose proof (U eq_refl i ltac:(lia)) as U2.
    rewrite (line_diff _ _ _ H0 H1') in U1. rewrite (line_diff _ _ _ H1 H2') in U2.
    rewrite <- U1. apply central_difference; [exact I1|].
    rewrite <- U2 in U1. cbn [sub neg add] in U1. congruence.
  - rewrite (line_diff _ _ _ H0 H1'), (line_diff _ _ _ H1 H2').
    apply three_point_difference; assumption.
Qed.

End GradientOfLine.

Lemma item_in_range (a : list cell) (i : Z) :
  0 <= i < Z.of_nat (length a) ->
  exists v, item a i = Ok v /\ a !! Z.to_nat i = Some v.
Proof.
  intros H. unfold item.
  destruct (i <? 0) eqn:E; [apply Z.ltb_lt in E; lia|].
  replace (0 <=? i) with true by (symmetry; apply Z.leb_le; lia).
  replace (i <? Z.of_nat (length a)) with true by (symmetry; apply Z.ltb_lt; lia).
  simpl. destruct (a !! Z.to_nat i) as [v|] eqn:L; [eauto|].
  apply lookup_ge_None in L. lia.
Qed.

(** X17: when the values that are not NaN are all the same one, the gradient
    is 0.0 whatever the fraction and the field column: neither is looked at,
    so a field column the frame does not have goes unnoticed. *)
Theorem gradient_constant_is_zero (df : DataFrame) (y : string) (v : cell) :
  y ∈ columns df -> v ∈ column y df -> isna v = false ->
  (forall w, w ∈ column y df -> isna w = false -> w = v) ->
  forall (fraction : Qc) (x : string),
    get_gradient_at_fraction df fraction x y = Ok (of_Z 0).
Proof.
  intros Hy Hv Hn Hall fraction x. unfold get_gradient_at_fraction.
  destruct (getitem_values df y Hy) as (sy & -> & Vy & _). simpl.
  assert (nunique (values sy) = 1%nat) as ->
    by (apply nunique_one; rewrite Vy; eauto).
  reflexivity.
Qed.

Lemma gradient_constant_is_zero_witness :
  get_gradient_at_fraction
    (frame ["H"; "R"] [0; 1; 2] [[of_Z 0; of_Z 7]; [of_Z 1; NaN]; [of_Z 2; of_Z 7]])
    (Q2Qc 5) "no such column" "R" = Ok (of_Z 0).
Proof.
  apply (gradient_constant_is_zero _ "R" (of_Z 7)).
  - vm_compute. repeat constructor.
  - vm_compute. repeat constructor.
  - reflexivity.
  - intros w Hw Nw. vm_compute in Hw.
    repeat (apply elem_of_cons in Hw as [->|Hw]; [try reflexivity; try discriminate|]).
    inversion Hw.
Defined.

(** X18: on a frame whose field values strictly increase and whose values
    lie on a line [s * x + c], the gradient is the slope [s] at every
    fraction of [0, 1], for even and for uneven spacing of the field. *)
Theorem gradient_of_line (df : DataFrame) (x y : string) (xs : list Qc)
    (s c fraction : Qc) :
  x ∈ columns df -> y ∈ columns df ->
  column x df = Num <$> xs ->
  column y df = (fun q => Num (s * q + c)%Qc) <$> xs ->
  (2 <= length xs)%nat ->
  (forall i a b, xs !! i = Some a -> xs !! S i = Some b -> (a < b)%Qc) ->
  (0 <= fraction)%Qc -> (fraction <= 1)%Qc ->
  get_gradient_at_fraction df fraction x y = Ok (Num s).
Proof.
  intros Hx Hy Cx Cy L Inc F0 F1. unfold get_gradient_at_fraction.
  destruct (getitem_values df y Hy) as (sy & Ey & Vy & _).
  destruct (getitem_values df x Hx) as (sx & Ex & Vx & _).
  rewrite Ey. simpl. rewrite Vy, Cy.
  assert (len df = length xs) as Ln
    by (rewrite <- (length_column x df), Cx, length_fmap; reflexivity).
  destruct (lookup_lt_is_Some_2 xs 0%nat) as (x0 & H0); [lia|].
  destruct (lookup_lt_is_Some_2 xs 1%nat) as (x1 & H1); [lia|].
  pose proof (Inc _ _ _ H0 H1) as I01.
  destruct (nunique _ =? 1)%nat eqn:U.
  - apply Nat.eqb_eq, nunique_one in U as (v & _ & _ & Hall).
    assert (Num (s * x0 + c)%Qc = v) as E0.
    { apply Hall; [|reflexivity]. apply list_elem_of_fmap. exists x0.
      split; [reflexivity|]. eapply list_elem_of_lookup_2, H0. }
    assert (Num (s * x1 + c)%Qc = v) as E1.
    { apply Hall; [|reflexivity]. apply list_elem_of_fmap. exists x1.
      split; [reflexivity|]. eapply list_elem_of_lookup_2, H1. }
    assert (s * x0 + c = s * x1 + c)%Qc as E by congruence.
    assert (s * (x1 + - x0) = 0)%Qc as Z.
    { transitivity ((s * x1 + c) + - (s * x0 + c))%Qc; [ring|]. rewrite E. ring. }
    apply Qcmult_integral in Z as [->|Z]; [reflexivity|].
    exfalso. exact (Qc_lt_gap _ _ I01 Z).
  - rewrite Ex. simpl. rewrite Vx, Cx.
    unfold gradient. rewrite !length_fmap, Nat.eqb_refl. simpl negb. cbv iota.
    destruct (diff (Num <$> xs)) as [|d0 ds] eqn:D.
    { pose proof (length_diff (Num <$> xs)) as LD.
      rewrite D, length_fmap in LD. simpl in LD. lia. }
    rewrite <- D. cbv zeta. simpl.
    set (g := gradient_at _ _ _ <$> _).
    assert (length g = length xs) as Lg
      by (unfold g; rewrite length_fmap, length_seq; reflexivity).
    destruct (item_in_range g (fraction_index fraction df)) as (w & -> & Hw).
    { rewrite Lg, <- Ln. apply fraction_index_bounds; try assumption. lia. }
    f_equal. unfold g in Hw. rewrite list_lookup_fmap in Hw.
    destruct (seq 0 (length xs) !! _) as [p|] eqn:P; [|discriminate].
    apply lookup_seq in P as [-> P]. simpl in Hw. injection Hw as <-.
    apply gradient_at_line; try assumption.
    intros Uf j Hj. rewrite forallb_forall in Uf.
    assert (diff (Num <$> xs) !!! 0%nat = d0) as -> by (rewrite D; reflexivity).
    apply eqb_eq, Uf, list_elem_of_In, list_elem_of_lookup_total_2, Hj.
Qed.

Lemma gradient_of_line_witness :
  get_gradient_at_fraction
    (frame ["H"; "R"] [0; 1; 2; 3] [zs [0; 1]; zs [1; 4]; zs [3; 10]; zs [4; 13]])
    (Q2Qc (1 # 2)) "H" "R" = Ok (Num (Q2Qc 3)).
Proof.
  apply (gradient_of_line _ "H" "R"
           [Q2Qc 0; Q2Qc 1; Q2Qc 3; Q2Qc 4] (Q2Qc 3) (Q2Qc 1)).
  - vm_compute. repeat constructor.
  - vm_compute. repeat constructor.
  - vm_compute. repeat f_equal; apply Num_ext; reflexivity.
  - vm_compute. repeat f_equal; apply Num_ext; reflexivity.
  - simpl. lia.
  - intros i a b Ha Hb.
    destruct i as [|[|[|i]]]; simpl in Ha, Hb;
      try discriminate; injection Ha as <-; injection Hb as <-; reflexivity.
  - discriminate.
  - discriminate.
Defined.

(** X19: a frame of at most one row whose value is not a number (an empty
    frame, or a single NaN) has no gradient: the call raises. *)
Theorem gradient_short_frame_raises (df : DataFrame) (fraction : Qc) (x y : string) :
  (len df <= 1)%nat -> ~ has_valid (column y df) ->
  raises (get_gradient_at_fraction df fraction x y).
Proof.
  intros L Hv. unfold get_gradient_at_fraction, raises.
  destruct (decide (y ∈ columns df)) as [Hy|Hy];
    [|rewrite getitem_absent by exact Hy; simpl; eauto].
  destruct (getitem_values df y Hy) as (sy & Ey & Vy & _). rewrite Ey. simpl.
  destruct (nunique _ =? 1)%nat eqn:U.
  { apply Nat.eqb_eq, nunique_one in U as (v & Hin & Hn & _).
    exfalso. apply Hv. exists v. rewrite <- Vy. auto. }
  destruct (decide (x ∈ columns df)) as [Hx|Hx];
    [|rewrite getitem_absent by exact Hx; simpl; eauto].
  destruct (getitem_values df x Hx) as (sx & Ex & Vx & _).
  rewrite Ex. simpl. unfold gradient.
  rewrite Vx, Vy, !length_column, Nat.eqb_refl. simpl negb. cbv iota.
  pose proof (length_diff (column x df)) as LD. rewrite length_column in LD.
  destruct (diff (column x df)); [simpl; eauto|simpl in LD; lia].
Qed.

Lemma gradient_short_frame_raises_witness :
  raises (get_gradient_at_fraction (frame ["H"; "R"] [0] [[of_Z 1; NaN]])
            (Q2Qc (1 # 2)) "H" "R").
Proof.
  apply gradient_short_frame_raises.
  - vm_compute. lia.
  - intros (v & Hv & Nv). vm_compute in Hv.
    apply list_elem_of_singleton in Hv. subst. discriminate.
Defined.
